(** * rhf-sync-url: the codec and the two synchronisation effects of [useSyncUrl]

    A shallow embedding of [src/index.ts].  The file has four layers:

    - [JS]: the JavaScript values the hook handles, with the few language
      operations the source relies on ([typeof], [Array.isArray],
      [Object.prototype.toString.call], [String], property assignment);
    - the codec [safeJsonParse] / [safeSerialize], stated over an arbitrary
      JSON engine (class [JSON]) because [JSON.parse] and [JSON.stringify]
      are built-ins of the host, not code of the package;
    - [URLSearchParams] and the bodies of the two effects of [useSyncUrl];
    - a small world (refs, timers, microtasks, call logs) in which the effects
      run, and [Engine], an executable JSON engine used to evaluate the model
      on concrete query strings. *)

From Stdlib Require Import List String Ascii ZArith NArith Bool Lia Arith.
From Stdlib Require Import DecimalString DecimalN DecimalZ.
Import ListNotations.
Open Scope string_scope.

Set Warnings "-register-all".

(* ===================================================================== *)
(** * JavaScript values *)
(* ===================================================================== *)

Module JS.

(** Numbers are kept as exact decimals [m * 10^e]; binary64 rounding is
    not represented.  [NaN] and the infinities are the values that
    [JSON.stringify] cannot write. *)
Inductive Number :=
| NaN
| Infinity (negative : bool)
| Dec (m e : Z).

(** [[Prototype]] of an ordinary object: [Object.prototype] for an object
    literal or a [JSON.parse] result, [null] for [Object.create(null)]. *)
Inductive Proto := ObjectPrototype | NullPrototype.

(** A JavaScript value (the TypeScript type [unknown]).
    [VObject] is an ordinary object whose class tag is ["Object"]: its own
    enumerable string-keyed properties in enumeration order.
    [VHost] is any other object (Date, RegExp, Map, ...): [tag] is what
    [Object.prototype.toString.call] reports between ["[object "] and ["]"],
    [str] is the result of [String(value)] ([None] when the conversion
    throws), and [json] what its [toJSON] method returns, when it has
    one. *)
Inductive Value :=
| VUndefined
| VNull
| VBool (b : bool)
| VNumber (n : Number)
| VString (s : string)
| VBigInt (z : Z)
| VSymbol (description : string)
| VFunction (source : string)
| VArray (elems : list Value)
| VObject (proto : Proto) (props : list (string * Value))
| VHost (tag : string) (str : option string) (json : option string).

Inductive Error :=
| SyntaxError (msg : string)
| TypeError (msg : string).

(** Outcome of evaluating an expression: a value, or a thrown exception. *)
Inductive Completion (A : Type) :=
| Normal (a : A)
| Throw (e : Error).
Arguments Normal {A} a.
Arguments Throw {A} e.

(** ** [typeof], [Array.isArray], [Object.prototype.toString.call] *)

Definition typeof (v : Value) : string :=
  match v with
  | VUndefined => "undefined"
  | VNull => "object"
  | VBool _ => "boolean"
  | VNumber _ => "number"
  | VString _ => "string"
  | VBigInt _ => "bigint"
  | VSymbol _ => "symbol"
  | VFunction _ => "function"
  | VArray _ | VObject _ _ | VHost _ _ _ => "object"
  end.

Definition isArray (v : Value) : bool :=
  match v with VArray _ => true | _ => false end.

Definition classTag (v : Value) : string :=
  match v with
  | VUndefined => "Undefined"
  | VNull => "Null"
  | VBool _ => "Boolean"
  | VNumber _ => "Number"
  | VString _ => "String"
  | VBigInt _ => "BigInt"
  | VSymbol _ => "Symbol"
  | VFunction _ => "Function"
  | VArray _ => "Array"
  | VObject _ _ => "Object"
  | VHost tag _ _ => tag
  end.

(** [Object.prototype.toString.call(v)] *)
Definition objectToString (v : Value) : string :=
  "[object " ++ classTag v ++ "]".

(** ** Decimal digits *)

Definition string_of_N (n : N) : string :=
  NilZero.string_of_uint (N.to_uint n).

Definition string_of_Z (z : Z) : string :=
  NilZero.string_of_int (Z.to_int z).

Fixpoint zeros (n : nat) : string :=
  match n with O => "" | S n' => String "0" (zeros n') end.

Fixpoint string_rev_acc (s acc : string) : string :=
  match s with
  | EmptyString => acc
  | String c s' => string_rev_acc s' (String c acc)
  end.

Definition string_rev (s : string) : string := string_rev_acc s "".

(** Number of leading ["0"] characters. *)
Fixpoint leading_zeros (s : string) : nat :=
  match s with
  | String "0" s' => S (leading_zeros s')
  | _ => 0
  end.

Fixpoint string_drop (n : nat) (s : string) : string :=
  match n, s with
  | S n', String _ s' => string_drop n' s'
  | _, _ => s
  end.

Fixpoint string_take (n : nat) (s : string) : string :=
  match n, s with
  | S n', String c s' => String c (string_take n' s')
  | _, _ => ""
  end.

(** The shortest digit string of a non-zero magnitude together with the
    count of the trailing zeros that were removed from it. *)
Definition significant_digits (a : N) : string * nat :=
  let r := string_rev (string_of_N a) in
  let t := leading_zeros r in
  (string_rev (string_drop t r), t).

(** A decimal in canonical form: zero is [Dec 0 0], and the mantissa of any
    other value is not a multiple of ten. *)
Definition normalize (n : Number) : Number :=
  match n with
  | Dec m e =>
      if (m =? 0)%Z then Dec 0 0
      else
        let '(s, t) := significant_digits (Z.abs_N m) in
        Dec (m / 10 ^ Z.of_nat t) (e + Z.of_nat t)
  | _ => n
  end.

Definition number_of_Z (z : Z) : Number := normalize (Dec z 0).

(** [Number::toString] (radix 10), ECMA-262 6.1.6.1.20: with [s] the [k]
    significant digits and [n] the position of the decimal point. *)
Definition Number_toString (x : Number) : string :=
  match x with
  | NaN => "NaN"
  | Infinity false => "Infinity"
  | Infinity true => "-Infinity"
  | Dec m e =>
      if (m =? 0)%Z then "0"
      else
        let '(s, t) := significant_digits (Z.abs_N m) in
        let k := Z.of_nat (String.length s) in
        let n := (k + e + Z.of_nat t)%Z in
        let body :=
          if ((k <=? n) && (n <=? 21))%Z then
            s ++ zeros (Z.to_nat (n - k))
          else if ((0 <? n) && (n <=? 21))%Z then
            string_take (Z.to_nat n) s ++ "." ++ string_drop (Z.to_nat n) s
          else if ((-6 <? n) && (n <=? 0))%Z then
            "0." ++ zeros (Z.to_nat (- n)) ++ s
          else
            let ex := (n - 1)%Z in
            let sign := if (ex <? 0)%Z then "-" else "+" in
            let digits := string_of_N (Z.abs_N ex) in
            if (k =? 1)%Z then s ++ "e" ++ sign ++ digits
            else string_take 1 s ++ "." ++ string_drop 1 s
                 ++ "e" ++ sign ++ digits
        in
        if (m <? 0)%Z then "-" ++ body else body
  end.

(** ** [String(value)] *)

Fixpoint join (sep : string) (l : list string) : string :=
  match l with
  | [] => ""
  | [x] => x
  | x :: rest => x ++ sep ++ join sep rest
  end.

(** [String(v)].  For an array this is [Array.prototype.join]: elements
    separated by commas, [null] and [undefined] written as the empty
    string.  A symbol inside an array makes the join throw; at top level
    [String] accepts it.  The conversion of a host object is carried by the
    value itself. *)
Fixpoint ToString (top : bool) (v : Value) : Completion string :=
  match v with
  | VUndefined => Normal (if top then "undefined" else "")
  | VNull => Normal (if top then "null" else "")
  | VBool b => Normal (if b then "true" else "false")
  | VNumber n => Normal (Number_toString n)
  | VString s => Normal s
  | VBigInt z => Normal (string_of_Z z)
  | VSymbol d =>
      if top then Normal ("Symbol(" ++ d ++ ")")
      else Throw (TypeError "Cannot convert a Symbol value to a string")
  | VFunction src => Normal src
  | VArray elems =>
      let fix go (l : list Value) : Completion (list string) :=
        match l with
        | [] => Normal []
        | x :: rest =>
            match ToString false x with
            | Throw e => Throw e
            | Normal sx =>
                match go rest with
                | Throw e => Throw e
                | Normal srest => Normal (sx :: srest)
                end
            end
        end in
      match go elems with
      | Throw e => Throw e
      | Normal parts => Normal (join "," parts)
      end
  | VObject ObjectPrototype _ => Normal "[object Object]"
  | VObject NullPrototype _ =>
      Throw (TypeError "Cannot convert object to primitive value")
  | VHost _ (Some s) _ => Normal s
  | VHost _ None _ =>
      Throw (TypeError "Cannot convert object to primitive value")
  end.

Definition String_ (v : Value) : Completion string := ToString true v.

(** JavaScript truthiness of a string: only the empty string is falsy. *)
Definition truthy_string (s : string) : bool :=
  negb (String.eqb s "").

(** ** Own properties of ordinary objects *)

Definition Props := list (string * Value).

(** An array index is the canonical decimal form of an integer below
    [2^32 - 1]; such keys are enumerated first, in ascending order. *)
Definition array_index (key : string) : option N :=
  match NilZero.uint_of_string key with
  | Some d =>
      let n := N.of_uint d in
      if (String.eqb (string_of_N n) key && (n <? 4294967295)%N)%bool
      then Some n else None
  | None => None
  end.

Fixpoint get_own (key : string) (props : Props) : option Value :=
  match props with
  | [] => None
  | (k, v) :: rest => if String.eqb k key then Some v else get_own key rest
  end.

Definition has_own (key : string) (props : Props) : bool :=
  match get_own key props with Some _ => true | None => false end.

Definition keys (props : Props) : list string := map fst props.

Fixpoint replace_own (key : string) (v : Value) (props : Props) : Props :=
  match props with
  | [] => []
  | (k, w) :: rest =>
      if String.eqb k key then (k, v) :: rest
      else (k, w) :: replace_own key v rest
  end.

Fixpoint insert_index (n : N) (key : string) (v : Value) (props : Props)
  : Props :=
  match props with
  | [] => [(key, v)]
  | (k, w) :: rest =>
      match array_index k with
      | Some n' =>
          if (n' <? n)%N then (k, w) :: insert_index n key v rest
          else (key, v) :: props
      | None => (key, v) :: props
      end
  end.

(** Defining (or overwriting) an own data property: an existing key keeps
    its place, a new array index goes in numeric order before the string
    keys, any other new key goes last. *)
Definition define_own (key : string) (v : Value) (props : Props) : Props :=
  if has_own key props then replace_own key v props
  else match array_index key with
       | Some n => insert_index n key v props
       | None => (props ++ [(key, v)])%list
       end.

(** The own enumerable string-keyed properties of a value.  Host objects
    (Date, RegExp, ...) have none. *)
Definition ownProperties (v : Value) : Props :=
  match v with
  | VObject _ props => props
  | VArray elems =>
      combine (map (fun i => string_of_N (N.of_nat i)) (seq 0 (List.length elems)))
              elems
  | _ => []
  end.

(** [Object.prototype.hasOwnProperty.call(obj, key)] *)
Definition hasOwnProperty (obj : Value) (key : string) : bool :=
  has_own key (ownProperties obj).

(** [obj[key]] for an own property; a missing one reads [undefined]. *)
Definition get (obj : Value) (key : string) : Value :=
  match get_own key (ownProperties obj) with
  | Some v => v
  | None => VUndefined
  end.

(** ** Property assignment on an object literal

    [restoredValues] starts as [{}] and is filled by [restoredValues[key] = v].
    [Object.prototype] carries the [__proto__] accessor, so as long as it
    is in the prototype chain an assignment to that key replaces the
    prototype (when [v] is an object or [null]) or does nothing; every
    other assignment defines an own property. *)

Inductive ProtoSlot :=
| ProtoDefault
| ProtoReplaced (v : Value).

Record Obj := { obj_proto : ProtoSlot; obj_props : Props }.

(** [{}] *)
Definition empty_object : Obj :=
  {| obj_proto := ProtoDefault; obj_props := [] |}.

Definition is_object_or_null (v : Value) : bool :=
  match v with
  | VNull | VFunction _ | VArray _ | VObject _ _ | VHost _ _ _ => true
  | _ => false
  end.

(** Whether [Object.prototype] is reached from the prototype slot.  Arrays,
    functions and host objects inherit from it. *)
Definition reaches_Object_prototype (p : ProtoSlot) : bool :=
  match p with
  | ProtoDefault => true
  | ProtoReplaced (VFunction _ | VArray _ | VObject ObjectPrototype _
                  | VHost _ _ _) => true
  | ProtoReplaced _ => false
  end.

(** [o[key] = v] *)
Definition assign (key : string) (v : Value) (o : Obj) : Obj :=
  if String.eqb key "__proto__" && reaches_Object_prototype (obj_proto o)
  then
    if is_object_or_null v
    then {| obj_proto := ProtoReplaced v; obj_props := obj_props o |}
    else o
  else {| obj_proto := obj_proto o;
          obj_props := define_own key v (obj_props o) |}.

(** [Object.keys(o)] *)
Definition Object_keys (o : Obj) : list string := keys (obj_props o).

(** [o[key]] as far as the object and the object in its prototype slot
    decide it: an own property, else an own property of the prototype.
    [None]: the lookup goes on to the built-in prototypes. *)
Definition read (o : Obj) (key : string) : option Value :=
  match get_own key (obj_props o) with
  | Some v => Some v
  | None =>
      match obj_proto o with
      | ProtoDefault => None
      | ProtoReplaced p => get_own key (ownProperties p)
      end
  end.

(** ** Exceptions *)

Definition bind {A B} (c : Completion A) (k : A -> Completion B)
  : Completion B :=
  match c with
  | Normal a => k a
  | Throw e => Throw e
  end.

(** [try { body } catch (e) { handler e }] *)
Definition try_catch {A} (body : Completion A) (handler : Error -> Completion A)
  : Completion A :=
  match body with
  | Normal a => Normal a
  | Throw e => handler e
  end.

End JS.
Export JS.

Notation "x <- c ;; k" := (bind c (fun x => k))
  (at level 61, c at next level, right associativity).

(* ===================================================================== *)
(** * The host's JSON built-ins *)
(* ===================================================================== *)

(** [JSON.parse] either returns a value or throws; [JSON.stringify] returns
    a string, returns [undefined] ([None]), or throws.  The codec is written
    against this interface; [Engine.json] below is an instance. *)
Module JSON.
Class Engine := {
  parse : string -> Completion Value;
  stringify : Value -> Completion (option string)
}.
End JSON.

(* ===================================================================== *)
(** * Diagnostics ([console.warn]) *)
(* ===================================================================== *)

Inductive Diagnostic :=
| WarnSensitiveField (fieldName : string)
| WarnSerializeArray (error : Error)
| WarnSerializeObject (error : Error)
| WarnUrlLength (length maximum : nat).

(* ===================================================================== *)
(** * The codec *)
(* ===================================================================== *)

Section Codec.
Context {json : JSON.Engine}.

Definition is_null (v : Value) : bool :=
  match v with VNull => true | _ => false end.

(** The keys that [safeJsonParse] refuses to copy. *)
Definition dangerous (key : string) : bool :=
  String.eqb key "__proto__" || String.eqb key "constructor"
  || String.eqb key "prototype".

(** The [for (const key in obj)] loop of [safeJsonParse].  The loop visits
    the own enumerable keys of [obj] (inherited ones are rejected by the
    [hasOwnProperty] test); [key] is not ["__proto__"] where the assignment
    is reached, so [sanitized[key] = obj[key]] defines an own property. *)
Definition sanitize (obj : Value) : Props :=
  fold_left
    (fun sanitized key =>
       if hasOwnProperty obj key
          && negb (String.eqb key "__proto__")
          && negb (String.eqb key "constructor")
          && negb (String.eqb key "prototype")
       then define_own key (get obj key) sanitized
       else sanitized)
    (keys (ownProperties obj)) [].

Definition safeJsonParse (value : string) : Completion Value :=
  try_catch
    (parsed <- JSON.parse value ;;
     if negb (is_null parsed)
        && String.eqb (typeof parsed) "object"
        && negb (isArray parsed)
        && negb (String.eqb (objectToString parsed) "[object Object]")
     then
       Normal (VString value)
     else if negb (is_null parsed)
        && String.eqb (typeof parsed) "object"
        && negb (isArray parsed)
        && String.eqb (objectToString parsed) "[object Object]"
     then
       let obj := parsed in
       let hasDangerousKeys :=
         hasOwnProperty obj "__proto__"
         || hasOwnProperty obj "constructor"
         || hasOwnProperty obj "prototype" in
       if hasDangerousKeys then
         Normal (VObject ObjectPrototype (sanitize obj))
       else Normal parsed
     else Normal parsed)
    (fun _ => Normal (VString value)).

(** [safeSerialize] returns its result together with what it wrote to the
    console.  The result is a string, or [undefined] ([None]) when
    [JSON.stringify] returned [undefined]. *)
Definition safeSerialize (value : Value)
  : Completion (option string) * list Diagnostic :=
  if is_null value then (Normal (Some ""), [])
  else if negb (String.eqb (typeof value) "object") then
    (s <- String_ value ;; Normal (Some s), [])
  else if isArray value then
    match JSON.stringify value with
    | Normal r => (Normal r, [])
    | Throw error => (Normal (Some ""), [WarnSerializeArray error])
    end
  else if String.eqb (objectToString value) "[object Object]" then
    match JSON.stringify value with
    | Normal r => (Normal r, [])
    | Throw error => (Normal (Some ""), [WarnSerializeObject error])
    end
  else
    (s <- String_ value ;; Normal (Some s), []).

End Codec.

(* ===================================================================== *)
(** * [URLSearchParams] *)
(* ===================================================================== *)

(** The query string as the URL standard keeps it: an ordered list of
    name/value pairs in which a name may occur several times. *)
Module URLSearchParams.

Definition t := list (string * string).

Definition has (name : string) (l : t) : bool :=
  existsb (fun e => String.eqb (fst e) name) l.

(** [params.delete(name)] removes every pair called [name]. *)
Definition delete (name : string) (l : t) : t :=
  filter (fun e => negb (String.eqb (fst e) name)) l.

(** [params.set(name, value)]: the first pair called [name] takes the value
    and the others are removed; without such a pair, one is appended. *)
Fixpoint set (name value : string) (l : t) : t :=
  match l with
  | [] => [(name, value)]
  | (k, v) :: rest =>
      if String.eqb k name then (k, value) :: delete name rest
      else (k, v) :: set name value rest
  end.

(** [params.get(name)]: the value of the first pair called [name]. *)
Fixpoint get (name : string) (l : t) : option string :=
  match l with
  | [] => None
  | (k, v) :: rest => if String.eqb k name then Some v else get name rest
  end.

(** [params.getAll(name)] *)
Definition getAll (name : string) (l : t) : list string :=
  map snd (filter (fun e => String.eqb (fst e) name) l).

(** ** [params.toString()]: the application/x-www-form-urlencoded
    serializer.  Strings are taken as UTF-8 bytes. *)

Definition hex_digit (n : nat) : ascii :=
  match n with
  | 0 => "0" | 1 => "1" | 2 => "2" | 3 => "3" | 4 => "4" | 5 => "5"
  | 6 => "6" | 7 => "7" | 8 => "8" | 9 => "9" | 10 => "A" | 11 => "B"
  | 12 => "C" | 13 => "D" | 14 => "E" | _ => "F"
  end%char.

Definition in_range (lo hi : nat) (c : ascii) : bool :=
  let n := nat_of_ascii c in ((lo <=? n) && (n <=? hi))%nat.

(** Bytes the serializer leaves as they are: ASCII letters and digits and
    [*], [-], [.], [_]. *)
Definition unreserved (c : ascii) : bool :=
  in_range 48 57 c || in_range 65 90 c || in_range 97 122 c
  || Ascii.eqb c "*" || Ascii.eqb c "-" || Ascii.eqb c "."
  || Ascii.eqb c "_".

Definition encode_byte (c : ascii) : string :=
  if unreserved c then String c ""
  else if Ascii.eqb c " " then "+"
  else
    let n := nat_of_ascii c in
    String "%" (String (hex_digit (n / 16)) (String (hex_digit (n mod 16)) "")).

Fixpoint encode (s : string) : string :=
  match s with
  | EmptyString => ""
  | String c s' => encode_byte c ++ encode s'
  end.

Definition toString (l : t) : string :=
  join "&" (map (fun e => encode (fst e) ++ "=" ++ encode (snd e)) l).

End URLSearchParams.

(* ===================================================================== *)
(** * Sensitive field names *)
(* ===================================================================== *)

Definition DEFAULT_MAX_URL_LENGTH : nat := 2000.

Definition SENSITIVE_FIELD_PATTERNS : list string :=
  [ "password"; "pwd"; "pass"; "secret"; "token"; "apiKey"; "apikey";
    "auth"; "credential"; "ssn"; "socialSecurity"; "creditCard";
    "cardNumber"; "cvv"; "cvc"; "pin"; "ssn"; "sin"; "accountNumber";
    "routingNumber"; "bankAccount" ].

Definition lower_char (c : ascii) : ascii :=
  if URLSearchParams.in_range 65 90 c
  then ascii_of_nat (nat_of_ascii c + 32) else c.

(** [s.toLowerCase()] for a string of ASCII characters: the letters [A] to
    [Z] are lower-cased and every other byte is kept.  The built-in also
    maps letters outside ASCII, so what is stated of the lower-cased form
    of an arbitrary field name is stated for ASCII names, on which the two
    agree. *)
Fixpoint toLowerCase (s : string) : string :=
  match s with
  | EmptyString => ""
  | String c s' => String (lower_char c) (toLowerCase s')
  end.

(** The strings of ASCII characters. *)
Fixpoint isASCII (s : string) : bool :=
  match s with
  | EmptyString => true
  | String c s' => (nat_of_ascii c <? 128)%nat && isASCII s'
  end.

(** [s.includes(pattern)] *)
Fixpoint string_includes (s pattern : string) : bool :=
  prefix pattern s
  || match s with
     | EmptyString => false
     | String _ s' => string_includes s' pattern
     end.

(** [array.includes(x)] on an array of strings. *)
Definition includes (l : list string) (x : string) : bool :=
  existsb (String.eqb x) l.

(** [process.env.NODE_ENV] is ambient; the model takes it as an argument. *)
Definition warnIfSensitiveField (NODE_ENV : string) (fieldName : string)
    (excludeFields : list string) : list Diagnostic :=
  if negb (String.eqb NODE_ENV "development") then []
  else if includes excludeFields fieldName then []
  else
    let lowerFieldName := toLowerCase fieldName in
    let isSensitive :=
      existsb (fun pattern => string_includes lowerFieldName (toLowerCase pattern))
              SENSITIVE_FIELD_PATTERNS in
    if isSensitive then [WarnSensitiveField fieldName] else [].

(* ===================================================================== *)
(** * [useSyncUrl]: the two effects *)
(* ===================================================================== *)

Record RouterAdapter := {
  searchParams : URLSearchParams.t
  (* [setSearchParams] is the sink; its calls are logged in the world *)
}.

(** [UseSyncUrlOptions], without the form handles. *)
Record Options := {
  debounce : nat;
  maxUrlLength : nat;
  excludeFields : list string
}.

Definition defaultOptions : Options :=
  {| debounce := 500;
     maxUrlLength := DEFAULT_MAX_URL_LENGTH;
     excludeFields := [] |}.

(** The value of [useWatch({ control })]: the form's own entries, or
    a falsy value ([None]) that the hook replaces by [{}]. *)
Definition FormValues := option Props.

Definition searchParamsToString (params : URLSearchParams.t) : string :=
  URLSearchParams.toString params.

(** ** Computations that may throw and write to the console *)

Definition Eff (A : Type) := (Completion A * list Diagnostic)%type.

Definition ret {A} (a : A) : Eff A := (Normal a, []).

Definition warn (d : list Diagnostic) : Eff unit := (Normal tt, d).

Definition bindE {A B} (m : Eff A) (k : A -> Eff B) : Eff B :=
  match m with
  | (Normal a, d1) => let '(r, d2) := k a in (r, (d1 ++ d2)%list)
  | (Throw e, d1) => (Throw e, d1)
  end.

Notation "x <-- c ;; k" := (bindE c (fun x => k))
  (at level 61, c at next level, right associativity).

(** [list.forEach(f)] threading the object that [f] mutates. *)
Fixpoint forEachE {X S} (f : X -> S -> Eff S) (l : list X) (s : S) : Eff S :=
  match l with
  | [] => ret s
  | x :: rest => s' <-- f x s ;; forEachE f rest s'
  end.

Section Hook.
Context {json : JSON.Engine}.

(** ** URL -> form *)

(** The [params.forEach] loop of the first effect. *)
Definition restoreValues (excludeFields : list string)
    (params : URLSearchParams.t) : Completion Obj :=
  fold_left
    (fun acc entry =>
       restoredValues <- acc ;;
       let '(key, value) := entry in
       if includes excludeFields key then Normal restoredValues
       else if truthy_string value then
         parsed <- safeJsonParse value ;;
         Normal (assign key parsed restoredValues)
       else Normal restoredValues)
    params (Normal empty_object).

(** ** form -> URL *)

Definition is_empty_value (value : Value) : bool :=
  match value with
  | VUndefined | VNull => true
  | VString s => String.eqb s ""
  | _ => false
  end.

(** One round of the [Object.entries(values || {}).forEach] loop. *)
Definition publishEntry (NODE_ENV : string) (excludeFields : list string)
    (entry : string * Value) (newParams : URLSearchParams.t)
  : Eff URLSearchParams.t :=
  let '(key, value) := entry in
  if includes excludeFields key then ret newParams
  else
    _ <-- warn (warnIfSensitiveField NODE_ENV key excludeFields) ;;
    if is_empty_value value then ret (URLSearchParams.delete key newParams)
    else
      stringValue <-- safeSerialize value ;;
      match stringValue with
      | Some s =>
          if truthy_string s then ret (URLSearchParams.set key s newParams)
          else ret (URLSearchParams.delete key newParams)
      | None => ret (URLSearchParams.delete key newParams)
      end.

(** The working copy that the timer callback builds: a clone of the
    current search params, without the excluded fields, updated from the
    form values. *)
Definition buildParams (NODE_ENV : string) (excludeFields : list string)
    (values : FormValues) (current : URLSearchParams.t)
  : Eff URLSearchParams.t :=
  let newParams := current in
  let newParams :=
    fold_left (fun p field => URLSearchParams.delete field p)
              excludeFields newParams in
  forEachE (publishEntry NODE_ENV excludeFields)
           (match values with Some props => props | None => [] end)
           newParams.

End Hook.

(* ===================================================================== *)
(** * The world the hook runs in *)
(* ===================================================================== *)

(** The four [useRef] cells of one hook instance. *)
Record Refs := {
  firstRender : bool;
  timeoutRef : option nat;
  lastUrlParamsRef : string;
  isUpdatingFromUrlRef : bool
}.

Definition initialRefs : Refs :=
  {| firstRender := true;
     timeoutRef := None;
     lastUrlParamsRef := "";
     isUpdatingFromUrlRef := false |}.

(** A pending [setTimeout]: its handle, the time at which it is due and
    what the callback closes over (the [values], [adapter], [maxUrlLength]
    and [excludeFields] of the render that scheduled it). *)
Record Timer := {
  timer_id : nat;
  timer_due : nat;
  timer_values : FormValues;
  timer_adapter : RouterAdapter;
  timer_options : Options
}.

Record World := {
  refs : Refs;
  NODE_ENV : string;                 (* process.env.NODE_ENV *)
  now : nat;                         (* the clock, in milliseconds *)
  nextTimerId : nat;
  timers : list Timer;               (* pending timers, oldest first *)
  microtasks : nat;                  (* queued flag-clearing callbacks *)
  cleanupRegistered : bool;          (* the second effect returned a cleanup *)
  resetCalls : list Obj;             (* arguments of [reset], oldest first *)
  setSearchParamsCalls : list URLSearchParams.t;
  console : list Diagnostic;
  uncaught : list Error              (* exceptions that left a callback *)
}.

Definition initialWorld (env : string) : World :=
  {| refs := initialRefs; NODE_ENV := env; now := 0; nextTimerId := 1;
     timers := []; microtasks := 0; cleanupRegistered := false;
     resetCalls := []; setSearchParamsCalls := []; console := [];
     uncaught := [] |}.

Definition with_refs (r : Refs) (w : World) : World :=
  {| refs := r; NODE_ENV := NODE_ENV w; now := now w;
     nextTimerId := nextTimerId w; timers := timers w;
     microtasks := microtasks w; cleanupRegistered := cleanupRegistered w;
     resetCalls := resetCalls w;
     setSearchParamsCalls := setSearchParamsCalls w;
     console := console w; uncaught := uncaught w |}.

Definition set_firstRender (b : bool) (r : Refs) : Refs :=
  {| firstRender := b; timeoutRef := timeoutRef r;
     lastUrlParamsRef := lastUrlParamsRef r;
     isUpdatingFromUrlRef := isUpdatingFromUrlRef r |}.

Definition set_timeoutRef (t : option nat) (r : Refs) : Refs :=
  {| firstRender := firstRender r; timeoutRef := t;
     lastUrlParamsRef := lastUrlParamsRef r;
     isUpdatingFromUrlRef := isUpdatingFromUrlRef r |}.

Definition set_lastUrlParamsRef (s : string) (r : Refs) : Refs :=
  {| firstRender := firstRender r; timeoutRef := timeoutRef r;
     lastUrlParamsRef := s;
     isUpdatingFromUrlRef := isUpdatingFromUrlRef r |}.

Definition set_isUpdatingFromUrlRef (b : bool) (r : Refs) : Refs :=
  {| firstRender := firstRender r; timeoutRef := timeoutRef r;
     lastUrlParamsRef := lastUrlParamsRef r;
     isUpdatingFromUrlRef := b |}.

Definition with_timers (next : nat) (ts : list Timer) (w : World) : World :=
  {| refs := refs w; NODE_ENV := NODE_ENV w; now := now w;
     nextTimerId := next; timers := ts;
     microtasks := microtasks w; cleanupRegistered := cleanupRegistered w;
     resetCalls := resetCalls w;
     setSearchParamsCalls := setSearchParamsCalls w;
     console := console w; uncaught := uncaught w |}.

Definition with_now (t : nat) (w : World) : World :=
  {| refs := refs w; NODE_ENV := NODE_ENV w; now := t;
     nextTimerId := nextTimerId w; timers := timers w;
     microtasks := microtasks w; cleanupRegistered := cleanupRegistered w;
     resetCalls := resetCalls w;
     setSearchParamsCalls := setSearchParamsCalls w;
     console := console w; uncaught := uncaught w |}.

Definition with_microtasks (n : nat) (w : World) : World :=
  {| refs := refs w; NODE_ENV := NODE_ENV w; now := now w;
     nextTimerId := nextTimerId w; timers := timers w;
     microtasks := n; cleanupRegistered := cleanupRegistered w;
     resetCalls := resetCalls w;
     setSearchParamsCalls := setSearchParamsCalls w;
     console := console w; uncaught := uncaught w |}.

Definition with_cleanup (b : bool) (w : World) : World :=
  {| refs := refs w; NODE_ENV := NODE_ENV w; now := now w;
     nextTimerId := nextTimerId w; timers := timers w;
     microtasks := microtasks w; cleanupRegistered := b;
     resetCalls := resetCalls w;
     setSearchParamsCalls := setSearchParamsCalls w;
     console := console w; uncaught := uncaught w |}.

(** [reset(restoredValues)] *)
Definition reset (restoredValues : Obj) (w : World) : World :=
  {| refs := refs w; NODE_ENV := NODE_ENV w; now := now w;
     nextTimerId := nextTimerId w; timers := timers w;
     microtasks := microtasks w; cleanupRegistered := cleanupRegistered w;
     resetCalls := (resetCalls w ++ [restoredValues])%list;
     setSearchParamsCalls := setSearchParamsCalls w;
     console := console w; uncaught := uncaught w |}.

(** [adapter.setSearchParams(newParams)] *)
Definition setSearchParams (newParams : URLSearchParams.t) (w : World)
  : World :=
  {| refs := refs w; NODE_ENV := NODE_ENV w; now := now w;
     nextTimerId := nextTimerId w; timers := timers w;
     microtasks := microtasks w; cleanupRegistered := cleanupRegistered w;
     resetCalls := resetCalls w;
     setSearchParamsCalls := (setSearchParamsCalls w ++ [newParams])%list;
     console := console w; uncaught := uncaught w |}.

(** [console.warn(...)] *)
Definition console_warn (d : list Diagnostic) (w : World) : World :=
  {| refs := refs w; NODE_ENV := NODE_ENV w; now := now w;
     nextTimerId := nextTimerId w; timers := timers w;
     microtasks := microtasks w; cleanupRegistered := cleanupRegistered w;
     resetCalls := resetCalls w;
     setSearchParamsCalls := setSearchParamsCalls w;
     console := (console w ++ d)%list; uncaught := uncaught w |}.

Definition raise (e : Error) (w : World) : World :=
  {| refs := refs w; NODE_ENV := NODE_ENV w; now := now w;
     nextTimerId := nextTimerId w; timers := timers w;
     microtasks := microtasks w; cleanupRegistered := cleanupRegistered w;
     resetCalls := resetCalls w;
     setSearchParamsCalls := setSearchParamsCalls w;
     console := console w; uncaught := (uncaught w ++ [e])%list |}.

(** [setTimeout(callback, delay)] returns a fresh handle. *)
Definition setTimeout (values : FormValues) (adapter : RouterAdapter)
    (options : Options) (delay : nat) (w : World) : nat * World :=
  let id := nextTimerId w in
  let t := {| timer_id := id; timer_due := now w + delay;
              timer_values := values; timer_adapter := adapter;
              timer_options := options |} in
  (id, with_timers (S id) (timers w ++ [t])%list w).

(** [clearTimeout(id)]: a handle that already fired or was cleared is
    ignored. *)
Definition clearTimeout (id : nat) (w : World) : World :=
  with_timers (nextTimerId w)
    (filter (fun t => negb (Nat.eqb (timer_id t) id)) (timers w)) w.

Section Effects.
Context {json : JSON.Engine}.

(** The first effect: restore the form from the URL. *)
Definition hydrationEffect (excludeFields : list string)
    (adapter : RouterAdapter) (w : World) : World :=
  let currentUrlParams := searchParamsToString (searchParams adapter) in
  if negb (firstRender (refs w))
     && String.eqb currentUrlParams (lastUrlParamsRef (refs w))
  then w
  else
    let w := with_refs (set_lastUrlParamsRef currentUrlParams (refs w)) w in
    let params := searchParams adapter in
    match restoreValues excludeFields params with
    | Throw e => raise e w
    | Normal restoredValues =>
        let w :=
          if (0 <? List.length (Object_keys restoredValues))%nat then
            let w := with_refs (set_isUpdatingFromUrlRef true (refs w)) w in
            let w := reset restoredValues w in
            with_microtasks (S (microtasks w)) w
          else if firstRender (refs w) then
            with_refs (set_firstRender false (refs w)) w
          else w in
        if firstRender (refs w) then
          with_refs (set_firstRender false (refs w)) w
        else w
    end.

(** The callback queued by [Promise.resolve().then]. *)
Definition runMicrotasks (w : World) : World :=
  match microtasks w with
  | O => w
  | S _ =>
      with_microtasks 0
        (with_refs (set_isUpdatingFromUrlRef false (refs w)) w)
  end.

(** The callback given to [setTimeout] by the second effect. *)
Definition publishCallback (t : Timer) (w : World) : World :=
  let options := timer_options t in
  let '(result, warnings) :=
    buildParams (NODE_ENV w) (excludeFields options) (timer_values t)
                (searchParams (timer_adapter t)) in
  let w := console_warn warnings w in
  match result with
  | Throw e => raise e w
  | Normal newParams =>
      let urlString := URLSearchParams.toString newParams in
      let w :=
        if (maxUrlLength options <? String.length urlString)%nat then
          console_warn
            [WarnUrlLength (String.length urlString) (maxUrlLength options)] w
        else w in
      let newUrlString := searchParamsToString newParams in
      if negb (String.eqb newUrlString (lastUrlParamsRef (refs w))) then
        let w := with_refs (set_lastUrlParamsRef newUrlString (refs w)) w in
        setSearchParams newParams w
      else w
  end.

(** The cleanup function returned by the second effect. *)
Definition publicationCleanup (w : World) : World :=
  match timeoutRef (refs w) with
  | Some id => clearTimeout id w
  | None => w
  end.

(** The body of the second effect. *)
Definition publicationEffect (values : FormValues) (adapter : RouterAdapter)
    (options : Options) (w : World) : World :=
  if isUpdatingFromUrlRef (refs w) || firstRender (refs w) then
    with_cleanup false w
  else
    let w :=
      match timeoutRef (refs w) with
      | Some id => clearTimeout id w
      | None => w
      end in
    let '(id, w) := setTimeout values adapter options (debounce options) w in
    let w := with_refs (set_timeoutRef (Some id) (refs w)) w in
    with_cleanup true w.

(** ** Scheduling *)

(** Stable insertion by due time: timers fire in the order in which they
    fall due, and in the order of their creation when due together. *)
Fixpoint insert_by_due (t : Timer) (l : list Timer) : list Timer :=
  match l with
  | [] => [t]
  | u :: rest =>
      if (timer_due u <=? timer_due t)%nat then u :: insert_by_due t rest
      else t :: l
  end.

Definition sort_by_due (l : list Timer) : list Timer :=
  fold_left (fun acc t => insert_by_due t acc) l [].

(** A timer that falls due runs only if no earlier callback cleared it. *)
Definition fire (w : World) (t : Timer) : World :=
  if existsb (fun u => Nat.eqb (timer_id u) (timer_id t)) (timers w) then
    publishCallback t (clearTimeout (timer_id t) w)
  else w.

(** What React and the host do to the hook. *)
Inductive Event :=
| Hydrate (excludeFields : list string) (adapter : RouterAdapter)
    (* the first effect runs *)
| Publish (values : FormValues) (adapter : RouterAdapter) (options : Options)
    (* the second effect runs again: cleanup of the previous run, then body *)
| Microtasks
    (* the current task ends and the microtask queue is drained *)
| Advance (ms : nat)
    (* time passes; the timers that fall due fire *)
| Unmount.

Definition step (w : World) (ev : Event) : World :=
  match ev with
  | Hydrate excludeFields adapter => hydrationEffect excludeFields adapter w
  | Publish values adapter options =>
      let w := if cleanupRegistered w then publicationCleanup w else w in
      publicationEffect values adapter options w
  | Microtasks => runMicrotasks w
  | Advance ms =>
      let w := runMicrotasks w in
      let w := with_now (now w + ms) w in
      let due :=
        sort_by_due (filter (fun t => (timer_due t <=? now w)%nat) (timers w)) in
      fold_left fire due w
  | Unmount =>
      let w := if cleanupRegistered w then publicationCleanup w else w in
      with_cleanup false w
  end.

Definition run (w : World) (evs : list Event) : World :=
  fold_left step evs w.

End Effects.

(* ===================================================================== *)
(** * An executable JSON engine *)
(* ===================================================================== *)

(** [JSON.stringify] (ECMA-262 25.5.2, no replacer, no indentation) and
    [JSON.parse] (25.5.1, no reviver) on the values above.  Strings are
    UTF-8 bytes: bytes above 0x7F are copied, and a [\u] escape is decoded
    to the UTF-8 form of its code point.  The sign of a negative zero is
    dropped. *)
Module Engine.

(** ** [JSON.stringify] *)

Definition hex_lower (n : nat) : ascii :=
  match n with
  | 0 => "0" | 1 => "1" | 2 => "2" | 3 => "3" | 4 => "4" | 5 => "5"
  | 6 => "6" | 7 => "7" | 8 => "8" | 9 => "9" | 10 => "a" | 11 => "b"
  | 12 => "c" | 13 => "d" | 14 => "e" | _ => "f"
  end%char.

(** The quotation mark, code 34. *)
Definition dquote : ascii := ascii_of_nat 34.

Definition quote_char (c : ascii) : string :=
  let n := nat_of_ascii c in
  if Ascii.eqb c dquote then String "\" (String dquote "")
  else if Ascii.eqb c "\" then "\\"
  else if (n =? 8)%nat then "\b"
  else if (n =? 12)%nat then "\f"
  else if (n =? 10)%nat then "\n"
  else if (n =? 13)%nat then "\r"
  else if (n =? 9)%nat then "\t"
  else if (n <? 32)%nat then
    "\u00" ++ String (hex_lower (n / 16)) (String (hex_lower (n mod 16)) "")
  else String c "".

Fixpoint quote_body (s : string) : string :=
  match s with
  | EmptyString => ""
  | String c s' => quote_char c ++ quote_body s'
  end.

(** [QuoteJSONString] *)
Definition quote (s : string) : string :=
  String dquote (quote_body s ++ String dquote "").

Definition number_is_finite (n : Number) : bool :=
  match n with Dec _ _ => true | _ => false end.

(** [SerializeJSONProperty]: [None] is [undefined]. *)
Fixpoint serialize (v : Value) : Completion (option string) :=
  match v with
  | VUndefined | VSymbol _ | VFunction _ => Normal None
  | VNull => Normal (Some "null")
  | VBool b => Normal (Some (if b then "true" else "false"))
  | VNumber n =>
      Normal (Some (if number_is_finite n then Number_toString n else "null"))
  | VString s => Normal (Some (quote s))
  | VBigInt _ => Throw (TypeError "Do not know how to serialize a BigInt")
  | VArray elems =>
      let fix elements (l : list Value) : Completion (list string) :=
        match l with
        | [] => Normal []
        | x :: rest =>
            match serialize x with
            | Throw e => Throw e
            | Normal sx =>
                match elements rest with
                | Throw e => Throw e
                | Normal srest =>
                    Normal (match sx with Some s => s | None => "null" end
                            :: srest)
                end
            end
        end in
      match elements elems with
      | Throw e => Throw e
      | Normal parts => Normal (Some ("[" ++ join "," parts ++ "]"))
      end
  | VObject _ props =>
      let fix members (l : list (string * Value)) : Completion (list string) :=
        match l with
        | [] => Normal []
        | (k, x) :: rest =>
            match serialize x with
            | Throw e => Throw e
            | Normal sx =>
                match members rest with
                | Throw e => Throw e
                | Normal srest =>
                    Normal (match sx with
                            | Some s => (quote k ++ ":" ++ s) :: srest
                            | None => srest
                            end)
                end
            end
        end in
      match members props with
      | Throw e => Throw e
      | Normal parts => Normal (Some ("{" ++ join "," parts ++ "}"))
      end
  | VHost _ _ (Some s) => Normal (Some (quote s))
  | VHost _ _ None => Normal (Some "{}")
  end.

(** ** [JSON.parse] *)

Definition is_ws (c : ascii) : bool :=
  let n := nat_of_ascii c in
  ((n =? 32) || (n =? 9) || (n =? 10) || (n =? 13))%nat.

Fixpoint skip_ws (s : string) : string :=
  match s with
  | String c s' => if is_ws c then skip_ws s' else s
  | EmptyString => s
  end.

Definition is_digit (c : ascii) : bool := URLSearchParams.in_range 48 57 c.

Definition digit_value (c : ascii) : N := N.of_nat (nat_of_ascii c - 48).

(** The longest prefix of digits, as a number, with its length. *)
Fixpoint take_digits (s : string) (acc : N) (count : nat) : N * nat * string :=
  match s with
  | String c s' =>
      if is_digit c then take_digits s' (acc * 10 + digit_value c)%N (S count)
      else (acc, count, s)
  | EmptyString => (acc, count, s)
  end.

(** A JSON number: an optional minus sign, an integer part without a
    leading zero, an optional fraction and an optional exponent. *)
Definition parse_number (s : string) : option (Number * string) :=
  let '(negative, s) :=
    match s with String "-" s' => (true, s') | _ => (false, s) end in
  let int_part :=
    match s with
    | String "0" s' => Some (0%N, s')
    | String c _ =>
        if is_digit c then
          let '(n, _, rest) := take_digits s 0%N 0 in Some (n, rest)
        else None
    | EmptyString => None
    end in
  match int_part with
  | None => None
  | Some (i, s) =>
      let frac_part :=
        match s with
        | String "." s' =>
            let '(f, count, rest) := take_digits s' i 0 in
            if (count =? 0)%nat then None else Some (f, count, rest)
        | _ => Some (i, 0, s)
        end in
      match frac_part with
      | None => None
      | Some (m, count, s) =>
          let exp_part :=
            match s with
            | String c s' =>
                if Ascii.eqb c "e" || Ascii.eqb c "E" then
                  let '(eneg, s'') :=
                    match s' with
                    | String "-" r => (true, r)
                    | String "+" r => (false, r)
                    | _ => (false, s')
                    end in
                  let '(x, xcount, rest) := take_digits s'' 0%N 0 in
                  if (xcount =? 0)%nat then None
                  else Some (if eneg then (- Z.of_N x)%Z else Z.of_N x, rest)
                else Some (0%Z, s)
            | EmptyString => Some (0%Z, s)
            end in
          match exp_part with
          | None => None
          | Some (x, rest) =>
              let mant := if negative then (- Z.of_N m)%Z else Z.of_N m in
              Some (normalize (Dec mant (x - Z.of_nat count)), rest)
          end
      end
  end.

Definition hex_value (c : ascii) : option N :=
  let n := N_of_ascii c in
  if URLSearchParams.in_range 48 57 c then Some (n - 48)%N
  else if URLSearchParams.in_range 65 70 c then Some (n - 55)%N
  else if URLSearchParams.in_range 97 102 c then Some (n - 87)%N
  else None.

(** Four hexadecimal digits. *)
Definition parse_hex4 (s : string) : option (N * string) :=
  match s with
  | String a (String b (String c (String d rest))) =>
      match hex_value a, hex_value b, hex_value c, hex_value d with
      | Some x, Some y, Some z, Some w =>
          Some ((((x * 16 + y) * 16 + z) * 16 + w)%N, rest)
      | _, _, _, _ => None
      end
  | _ => None
  end.

Definition byte (n : N) : ascii := ascii_of_N n.

(** UTF-8 form of a code point. *)
Definition utf8 (cp : N) : string :=
  (if cp <? 128 then String (byte cp) ""
   else if cp <? 2048 then
     String (byte (192 + cp / 64)) (String (byte (128 + cp mod 64)) "")
   else if cp <? 65536 then
     String (byte (224 + cp / 4096))
       (String (byte (128 + (cp / 64) mod 64))
          (String (byte (128 + cp mod 64)) ""))
   else
     String (byte (240 + cp / 262144))
       (String (byte (128 + (cp / 4096) mod 64))
          (String (byte (128 + (cp / 64) mod 64))
             (String (byte (128 + cp mod 64)) ""))))%N.

(** The characters of a string literal after its opening quote.  A high
    surrogate escape directly followed by a low surrogate escape is one
    code point. *)
Fixpoint parse_chars (fuel : nat) (s : string) : option (string * string) :=
  match fuel with
  | O => None
  | S fuel' =>
      match s with
      | EmptyString => None
      | String c rest =>
          if Ascii.eqb c dquote then Some ("", rest)
          else if Ascii.eqb c "\" then
            match rest with
            | String e rest' =>
                let simple (x : N) :=
                  match parse_chars fuel' rest' with
                  | Some (body, r) => Some (String (byte x) body, r)
                  | None => None
                  end in
                if Ascii.eqb e dquote then simple 34%N
                else if Ascii.eqb e "\" then simple 92%N
                else if Ascii.eqb e "/" then simple 47%N
                else if Ascii.eqb e "b" then simple 8%N
                else if Ascii.eqb e "f" then simple 12%N
                else if Ascii.eqb e "n" then simple 10%N
                else if Ascii.eqb e "r" then simple 13%N
                else if Ascii.eqb e "t" then simple 9%N
                else if Ascii.eqb e "u" then
                  match parse_hex4 rest' with
                  | None => None
                  | Some (hi, r1) =>
                      let paired :=
                        if ((55296 <=? hi) && (hi <=? 56319))%N then
                          match r1 with
                          | String "\" (String "u" r2) =>
                              match parse_hex4 r2 with
                              | Some (lo, r3) =>
                                  if ((56320 <=? lo) && (lo <=? 57343))%N
                                  then Some ((65536 + (hi - 55296) * 1024
                                              + (lo - 56320))%N, r3)
                                  else None
                              | None => None
                              end
                          | _ => None
                          end
                        else None in
                      let '(cp, r) :=
                        match paired with
                        | Some p => p
                        | None => (hi, r1)
                        end in
                      match parse_chars fuel' r with
                      | Some (body, r') => Some (utf8 cp ++ body, r')
                      | None => None
                      end
                  end
                else None
            | EmptyString => None
            end
          else if (nat_of_ascii c <? 32)%nat then None
          else
            match parse_chars fuel' rest with
            | Some (body, r) => Some (String c body, r)
            | None => None
            end
      end
  end.

Definition parse_string (s : string) : option (string * string) :=
  parse_chars (S (String.length s)) s.

Definition expect (word s : string) : option string :=
  if prefix word s then Some (string_drop (String.length word) s) else None.

(** Recursive descent; [fuel] bounds the number of nested calls. *)
Fixpoint parse_value (fuel : nat) (s : string) : option (Value * string) :=
  match fuel with
  | O => None
  | S fuel' =>
      match skip_ws s with
      | EmptyString => None
      | String c rest as s0 =>
          if Ascii.eqb c "n" then
            match expect "null" s0 with
            | Some r => Some (VNull, r) | None => None end
          else if Ascii.eqb c "t" then
            match expect "true" s0 with
            | Some r => Some (VBool true, r) | None => None end
          else if Ascii.eqb c "f" then
            match expect "false" s0 with
            | Some r => Some (VBool false, r) | None => None end
          else if Ascii.eqb c dquote then
            match parse_string rest with
            | Some (str, r) => Some (VString str, r) | None => None end
          else if Ascii.eqb c "[" then
            match skip_ws rest with
            | String "]" r => Some (VArray [], r)
            | r => parse_elements fuel' r []
            end
          else if Ascii.eqb c "{" then
            match skip_ws rest with
            | String "}" r => Some (VObject ObjectPrototype [], r)
            | r => parse_members fuel' r []
            end
          else
            match parse_number s0 with
            | Some (n, r) => Some (VNumber n, r) | None => None end
      end
  end

with parse_elements (fuel : nat) (s : string) (acc : list Value)
  : option (Value * string) :=
  match fuel with
  | O => None
  | S fuel' =>
      match parse_value fuel' s with
      | None => None
      | Some (v, r) =>
          match skip_ws r with
          | String "," r' => parse_elements fuel' r' (acc ++ [v])%list
          | String "]" r' => Some (VArray (acc ++ [v])%list, r')
          | _ => None
          end
      end
  end

with parse_members (fuel : nat) (s : string) (acc : Props)
  : option (Value * string) :=
  match fuel with
  | O => None
  | S fuel' =>
      match skip_ws s with
      | String q r0 =>
          if negb (Ascii.eqb q dquote) then None
          else
          match parse_string r0 with
          | None => None
          | Some (key, r1) =>
              match skip_ws r1 with
              | String ":" r2 =>
                  match parse_value fuel' r2 with
                  | None => None
                  | Some (v, r3) =>
                      match skip_ws r3 with
                      | String "," r4 =>
                          parse_members fuel' r4 (define_own key v acc)
                      | String "}" r4 =>
                          Some (VObject ObjectPrototype (define_own key v acc),
                                r4)
                      | _ => None
                      end
                  end
              | _ => None
              end
          end
      | _ => None
      end
  end.

Definition parse (text : string) : Completion Value :=
  match parse_value (2 * String.length text + 2) text with
  | Some (v, rest) =>
      match skip_ws rest with
      | EmptyString => Normal v
      | _ => Throw (SyntaxError "Unexpected non-whitespace character after JSON")
      end
  | None => Throw (SyntaxError "Unexpected token in JSON")
  end.

#[export] Instance json : JSON.Engine :=
  {| JSON.parse := parse; JSON.stringify := serialize |}.

End Engine.

(* ===================================================================== *)
(** * Notions used in the statements *)
(* ===================================================================== *)

Section Notions.
Context {json : JSON.Engine}.

(** An object that is neither an array nor tagged ["Object"]: the first
    test of [safeJsonParse]. *)
Definition non_plain_object (v : Value) : bool :=
  negb (is_null v)
  && String.eqb (typeof v) "object"
  && negb (isArray v)
  && negb (String.eqb (objectToString v) "[object Object]").

(** An array or a plain structure. *)
Definition structured (v : Value) : bool :=
  match v with
  | VArray _ | VObject _ _ => true
  | _ => false
  end.

(** [v] is fully JSON-representable: [JSON.stringify] writes it as a string
    from which [JSON.parse] rebuilds it. *)
Definition json_representable (v : Value) : Prop :=
  exists text, JSON.stringify v = Normal (Some text)
               /\ JSON.parse text = Normal v.

(** No own top-level key of [v] is on the denylist. *)
Definition no_dangerous_keys (v : Value) : bool :=
  forallb (fun key => negb (dangerous key)) (keys (ownProperties v)).

(** [decode(encode(v))].  When [safeSerialize] returns [undefined],
    [JSON.parse(undefined)] throws and [safeJsonParse] hands its argument
    back. *)
Definition decode_encode (v : Value) : Completion Value :=
  match fst (safeSerialize v) with
  | Normal (Some text) => safeJsonParse text
  | Normal None => Normal VUndefined
  | Throw e => Throw e
  end.

(** What one round of the publication loop does to the working copy. *)
Inductive Update :=
| Keep
| Delete (key : string)
| Put (key value : string).

Definition apply_update (p : URLSearchParams.t) (u : Update)
  : URLSearchParams.t :=
  match u with
  | Keep => p
  | Delete key => URLSearchParams.delete key p
  | Put key value => URLSearchParams.set key value p
  end.

Definition update_keys (us : list Update) : list string :=
  flat_map (fun u => match u with
                     | Keep => []
                     | Delete key | Put key _ => [key]
                     end) us.

(** What the pairs called by the name of an update look like once the
    update has been applied. *)
Definition settled (u : Update) (p : URLSearchParams.t) : Prop :=
  match u with
  | Keep => True
  | Delete k => URLSearchParams.getAll k p = []
  | Put k v => URLSearchParams.getAll k p = [v]
  end.

(** The decision taken by [publishEntry], before it touches the params. *)
Definition entryUpdate (NODE_ENV : string) (excludeFields : list string)
    (entry : string * Value) : Eff Update :=
  let '(key, value) := entry in
  if includes excludeFields key then ret Keep
  else
    _ <-- warn (warnIfSensitiveField NODE_ENV key excludeFields) ;;
    if is_empty_value value then ret (Delete key)
    else
      stringValue <-- safeSerialize value ;;
      match stringValue with
      | Some s => if truthy_string s then ret (Put key s) else ret (Delete key)
      | None => ret (Delete key)
      end.

Fixpoint entryUpdates (NODE_ENV : string) (excludeFields : list string)
    (entries : Props) : Eff (list Update) :=
  match entries with
  | [] => ret []
  | entry :: rest =>
      u <-- entryUpdate NODE_ENV excludeFields entry ;;
      us <-- entryUpdates NODE_ENV excludeFields rest ;;
      ret (u :: us)
  end.

(** The keys a publication cycle may write: the excluded fields and the
    fields of the form. *)
Definition touched (excludeFields : list string) (values : FormValues)
    (key : string) : bool :=
  includes excludeFields key
  || includes (keys (match values with Some props => props | None => [] end))
              key.

End Notions.

(** ** Notions about runs *)

Section RunNotions.
Context {json : JSON.Engine}.

(** One observed change of the form: what the second effect closes over. *)
Record Change := {
  change_values : FormValues;
  change_adapter : RouterAdapter;
  change_options : Options
}.

Definition publish (c : Change) : Event :=
  Publish (change_values c) (change_adapter c) (change_options c).

(** Changes that follow one another, each after a pause. *)
Fixpoint burst (changes : list (Change * nat)) : list Event :=
  match changes with
  | [] => []
  | (c, pause) :: rest => publish c :: Advance pause :: burst rest
  end.

(** Every pause is shorter than the debounce delay of the change before
    it: the next change arrives inside the window. *)
Definition within_window (changes : list (Change * nat)) : Prop :=
  Forall (fun cp => snd cp < debounce (change_options (fst cp))) changes.

(** The first hydration pass is over and the hook is not applying URL
    values to the form. *)
Definition ready (w : World) : Prop :=
  firstRender (refs w) = false /\ isUpdatingFromUrlRef (refs w) = false.

(** Every pending timer is the one [timeoutRef] points to. *)
Definition timers_tracked (w : World) : Prop :=
  forall t, In t (timers w) -> timeoutRef (refs w) = Some (timer_id t).

(** The timer that the second effect creates for a change. *)
Definition scheduled (c : Change) (w : World) : Timer :=
  {| timer_id := nextTimerId w;
     timer_due := now w + debounce (change_options c);
     timer_values := change_values c;
     timer_adapter := change_adapter c;
     timer_options := change_options c |}.

(** The working copy built from a change, when the loop completes. *)
Definition workingCopy (c : Change) (w : World)
  : Completion URLSearchParams.t :=
  fst (buildParams (NODE_ENV w) (excludeFields (change_options c))
         (change_values c) (searchParams (change_adapter c))).

(** What the timer callback of a change hands to [setSearchParams]:
    the working copy, unless its string form is the last known one. *)
Definition commits (c : Change) (w : World) : list URLSearchParams.t :=
  match workingCopy c w with
  | Normal newParams =>
      if String.eqb (searchParamsToString newParams)
                    (lastUrlParamsRef (refs w))
      then [] else [newParams]
  | Throw _ => []
  end.

(** An event of a hook instance whose [excludeFields] option is [excl]. *)
Definition configured (excl : list string) (ev : Event) : Prop :=
  match ev with
  | Hydrate e _ => e = excl
  | Publish _ _ o => excludeFields o = excl
  | _ => True
  end.

(** The entries of the watched form values ([values || {}]). *)
Definition entries (values : FormValues) : Props :=
  match values with Some props => props | None => [] end.

End RunNotions.

(** ** Notions for the further properties *)

(** A value whose conversion by [String] completes wherever
    [safeSerialize] would call it: everything but an object that is
    neither an array nor tagged ["Object"] and whose conversion throws. *)
Definition printable (v : Value) : bool :=
  match v with
  | VHost tag None _ => String.eqb tag "Object"
  | _ => true
  end.

(** The values that [safeSerialize] hands to [JSON.stringify]: arrays and
    the objects tagged ["Object"]. *)
Definition stringified (v : Value) : bool :=
  match v with
  | VArray _ | VObject _ _ => true
  | VHost tag _ _ => String.eqb tag "Object"
  | _ => false
  end.

(** The value of the last pair called [key] whose value is not empty. *)
Definition last_value (key : string) (params : URLSearchParams.t)
  : option string :=
  fold_left
    (fun found entry =>
       if String.eqb (fst entry) key && truthy_string (snd entry)
       then Some (snd entry) else found)
    params None.

(** A pending timer is covered by a registered cleanup. *)
Definition cleanup_covers (w : World) : Prop :=
  timers w = [] \/ cleanupRegistered w = true.

(** Events other than a run of the first effect. *)
Definition not_hydrate (ev : Event) : Prop :=
  match ev with Hydrate _ _ => False | _ => True end.

(** Events in which the hook's effects do not run: time passing and
    microtasks. *)
Definition passive (ev : Event) : Prop :=
  match ev with Advance _ | Microtasks => True | _ => False end.

(** The order in which an ordinary object enumerates its own keys: array
    indices first, ascending, then the other keys. *)
Fixpoint property_order (bound : option N) (ks : list string) : bool :=
  match ks with
  | [] => true
  | k :: rest =>
      match array_index k with
      | Some n =>
          match bound with Some b => (b <? n)%N | None => true end
          && property_order (Some n) rest
      | None =>
          forallb (fun k' => match array_index k' with
                             | Some _ => false
                             | None => true
                             end) rest
      end
  end.

(** The guard is only up while the microtask that takes it down is
    queued. *)
Definition guard_queued (w : World) : Prop :=
  isUpdatingFromUrlRef (refs w) = true -> microtasks w <> 0.

(** ** Sample inputs *)

(** A string between quotation marks. *)
Definition q (s : string) : string := Engine.quote s.

(** The payload of the prototype-pollution test:
    an object with the members [__proto__] and [normalKey]. *)
Definition pollution_payload : string :=
  "{" ++ q "__proto__" ++ ":{" ++ q "isAdmin" ++ ":true},"
      ++ q "normalKey" ++ ":" ++ q "value" ++ "}".

(** An object whose only member is called [constructor]. *)
Definition constructor_record : Value :=
  VObject ObjectPrototype [("constructor", VString "x")].

(** An object whose class tag is not ["Object"] and whose conversion to a
    string throws, such as
    [Object.create(null, { [Symbol.toStringTag]: { value: "Custom" } })]. *)
Definition unprintable : Value := VHost "Custom" None None.

(** A plain structure and an array, as the form of the tests holds them. *)
Definition filters_record : Value :=
  VObject ObjectPrototype
    [("category", VString "tech"); ("active", VBool true);
     ("tags", VArray [VString "react"; VString "typescript"])].

(** The router of the tests before any navigation: an empty query. *)
Definition empty_adapter : RouterAdapter := {| searchParams := [] |}.

(** The hook after its first render over an empty query string. *)
Definition mounted : World :=
  @run Engine.json (initialWorld "test") [Hydrate [] empty_adapter; Microtasks].

(** The form of the debounce test, its one field holding [text]. *)
Definition typed (text : string) : Change :=
  {| change_values := Some [("search", VString text)];
     change_adapter := empty_adapter;
     change_options := defaultOptions |}.

(** The form of the idempotence test, over a given query. *)
Definition named (name : string) (current : URLSearchParams.t) : Change :=
  {| change_values := Some [("name", VString name)];
     change_adapter := {| searchParams := current |};
     change_options :=
       {| debounce := 100; maxUrlLength := DEFAULT_MAX_URL_LENGTH;
          excludeFields := [] |} |}.

(** A login form whose password must stay out of the URL. *)
Definition login_options : Options :=
  {| debounce := 500; maxUrlLength := DEFAULT_MAX_URL_LENGTH;
     excludeFields := ["password"] |}.

Definition login_adapter : RouterAdapter :=
  {| searchParams := [("password", "secret123"); ("name", "John")] |}.

(** A query that names no excluded field, but whose [__proto__] parameter
    holds an object with a [password] member. *)
Definition smuggling_adapter : RouterAdapter :=
  {| searchParams :=
       [("__proto__", "{" ++ q "password" ++ ":" ++ q "secret123" ++ "}");
        ("name", "John")] |}.

Definition login_run : list Event :=
  [ Hydrate ["password"] login_adapter;
    Microtasks;
    Publish (Some [("name", VString "Jane"); ("password", VString "hunter2")])
            login_adapter login_options;
    Advance 500 ].

(** A pending publication of [name = abc] over a query that also holds an
    unrelated parameter. *)
Definition rename_timer : Timer :=
  {| timer_id := 1; timer_due := 500;
     timer_values := Some [("name", VString "abc")];
     timer_adapter :=
       {| searchParams := [("unrelated", "value"); ("name", "a")] |};
     timer_options := defaultOptions |}.

(** The hook after its first pass, the last known query string being
    [text]. *)
Definition synced (text : string) : World :=
  with_refs
    {| firstRender := false; timeoutRef := None;
       lastUrlParamsRef := text; isUpdatingFromUrlRef := false |}
    (initialWorld "test").

(** A profile form with a filled field, an emptied one, a [null], an
    array and an array that [JSON.stringify] refuses. *)
Definition profile_values : FormValues :=
  Some [("name", VString "Jane"); ("nickname", VString ""); ("age", VNull);
        ("tags", VArray [VString "a"]); ("big", VArray [VBigInt 1])].

(** A query that holds older values for these fields, [name] twice. *)
Definition profile_current : URLSearchParams.t :=
  [("name", "a"); ("nickname", "old"); ("name", "b"); ("age", "3");
   ("big", "x")].

(** What the profile form publishes over that query. *)
Definition profile_published : URLSearchParams.t :=
  [("name", "Jane"); ("tags", "[" ++ q "a" ++ "]")].

(** A form with a field whose name contains a sensitive word in capitals
    and an excluded field. *)
Definition account_values : FormValues :=
  Some [("userPASSWORD2", VString "x"); ("apiToken", VString "t");
        ("city", VString "Oslo")].

(** An array holding an object with a [__proto__] member, as JSON text. *)
Definition nested_payload : string :=
  "[{" ++ q "__proto__" ++ ":{" ++ q "isAdmin" ++ ":true}}]".

(** A query with repeated, empty and excluded parameters. *)
Definition messy_query : URLSearchParams.t :=
  [("name", "John"); ("password", "x"); ("name", ""); ("age", "30");
   ("name", "Jane"); ("age", "")].

(** A parsed object with two array indices, two ordinary keys and a
    [constructor] member. *)
Definition indexed_record : Value :=
  VObject ObjectPrototype
    [("2", VBool true); ("10", VNull); ("b", VString "x");
     ("constructor", VNull); ("a", VString "y")].

(** The hook while the user is typing: a publication is pending. *)
Definition editing : World :=
  @run Engine.json mounted [publish (typed "a")].

(** A publication of a six-letter name under a limit of five characters. *)
Definition long_timer : Timer :=
  {| timer_id := 1; timer_due := 500;
     timer_values := Some [("name", VString "abcdef")];
     timer_adapter := empty_adapter;
     timer_options :=
       {| debounce := 500; maxUrlLength := 5; excludeFields := [] |} |}.

(* ===================================================================== *)
(** * Facts about own properties *)
(* ===================================================================== *)

Ltac string_cases :=
  repeat match goal with
  | |- context [String.eqb ?a ?b] =>
      destruct (String.eqb_spec a b); subst; simpl
  | H : context [String.eqb ?a ?b] |- _ =>
      destruct (String.eqb_spec a b); subst; simpl in H
  end.

Lemma has_own_In (key : string) (props : Props) :
  has_own key props = true <-> In key (keys props).
Proof.
  unfold has_own. induction props as [|[k v] rest IH]; simpl.
  - split; [discriminate | tauto].
  - destruct (String.eqb_spec k key) as [->|Hne].
    + split; auto.
    + rewrite IH. split; [auto | intros [H|H]; [contradiction | exact H]].
Qed.

Lemma has_own_false (key : string) (props : Props) :
  has_own key props = false <-> get_own key props = None.
Proof.
  unfold has_own. destruct (get_own key props); split; congruence.
Qed.

Lemma get_own_replace_own (k key : string) (v : Value) (props : Props) :
  get_own k (replace_own key v props) =
  if String.eqb key k && has_own key props then Some v else get_own k props.
Proof.
  unfold has_own.
  induction props as [|[k0 w] rest IH]; simpl.
  - now rewrite andb_false_r.
  - destruct (String.eqb_spec k0 key) as [->|Hne]; simpl.
    + destruct (String.eqb_spec key k) as [->|Hk]; simpl; auto.
    + destruct (String.eqb_spec k0 k) as [->|Hk]; simpl.
      * destruct (String.eqb_spec key k); [congruence | reflexivity].
      * exact IH.
Qed.

Lemma get_own_insert_index (k key : string) (n : N) (v : Value) (props : Props) :
  get_own key props = None ->
  get_own k (insert_index n key v props) =
  if String.eqb key k then Some v else get_own k props.
Proof.
  induction props as [|[k0 w] rest IH]; simpl; intros Hnone.
  - reflexivity.
  - destruct (String.eqb_spec k0 key) as [->|Hne]; [discriminate|].
    destruct (array_index k0) as [n'|]; simpl.
    + destruct (n' <? n)%N; simpl.
      * destruct (String.eqb_spec k0 k) as [->|Hk].
        -- destruct (String.eqb_spec key k); [congruence | reflexivity].
        -- apply IH, Hnone.
      * reflexivity.
    + reflexivity.
Qed.

Lemma get_own_app (k : string) (l1 l2 : Props) :
  get_own k (l1 ++ l2)%list =
  match get_own k l1 with Some v => Some v | None => get_own k l2 end.
Proof.
  induction l1 as [|[k0 w] rest IH]; simpl; auto.
  destruct (String.eqb k0 k); auto.
Qed.

(** Reading back what [define_own] wrote. *)
Lemma get_own_define_own (k key : string) (v : Value) (props : Props) :
  get_own k (define_own key v props) =
  if String.eqb key k then Some v else get_own k props.
Proof.
  unfold define_own.
  destruct (has_own key props) eqn:Hhas.
  - rewrite get_own_replace_own, Hhas, andb_true_r. reflexivity.
  - apply has_own_false in Hhas.
    destruct (array_index key) as [n|].
    + now apply get_own_insert_index.
    + rewrite get_own_app. simpl.
      destruct (String.eqb_spec key k) as [->|Hk].
      * now rewrite Hhas.
      * destruct (get_own k props); reflexivity.
Qed.

Lemma keys_replace_own (key : string) (v : Value) (props : Props) :
  keys (replace_own key v props) = keys props.
Proof.
  unfold keys. induction props as [|[k0 w] rest IH]; simpl; auto.
  destruct (String.eqb k0 key); simpl; congruence.
Qed.

Lemma In_keys_insert_index (k key : string) (n : N) (v : Value) (props : Props) :
  In k (keys (insert_index n key v props)) <-> k = key \/ In k (keys props).
Proof.
  unfold keys. induction props as [|[k0 w] rest IH]; simpl.
  - intuition.
  - destruct (array_index k0) as [n'|]; simpl.
    + destruct (n' <? n)%N; simpl; [rewrite IH|]; intuition.
    + intuition.
Qed.

Lemma In_keys_define_own (k key : string) (v : Value) (props : Props) :
  In k (keys (define_own key v props)) <-> k = key \/ In k (keys props).
Proof.
  unfold define_own. destruct (has_own key props) eqn:Hhas.
  - rewrite keys_replace_own. apply has_own_In in Hhas.
    split; [auto | intros [->|H]; auto].
  - destruct (array_index key).
    + apply In_keys_insert_index.
    + unfold keys. rewrite map_app, in_app_iff. simpl. intuition.
Qed.

Lemma NoDup_keys_insert_index (key : string) (n : N) (v : Value) (props : Props) :
  ~ In key (keys props) -> NoDup (keys props) ->
  NoDup (keys (insert_index n key v props)).
Proof.
  induction props as [|[k0 w] rest IH]; simpl; intros Hnot Hnd.
  - constructor; [tauto | constructor].
  - assert (Hcons : NoDup (key :: k0 :: keys rest)).
    { constructor; [exact Hnot | exact Hnd]. }
    destruct (array_index k0) as [n'|]; [|exact Hcons].
    destruct (n' <? n)%N; [|exact Hcons].
    simpl. inversion Hnd as [|? ? Hk0 Hrest]; subst.
    constructor.
    + fold (keys (insert_index n key v rest)).
      rewrite In_keys_insert_index. intros [->|H]; [|contradiction].
      apply Hnot. now left.
    + apply IH; [|exact Hrest]. intros H. apply Hnot. now right.
Qed.

(** [define_own] never duplicates a key. *)
Lemma NoDup_keys_define_own (key : string) (v : Value) (props : Props) :
  NoDup (keys props) -> NoDup (keys (define_own key v props)).
Proof.
  intros Hnd. unfold define_own. destruct (has_own key props) eqn:Hhas.
  - now rewrite keys_replace_own.
  - assert (Hnot : ~ In key (keys props)).
    { intros H. apply has_own_In in H. congruence. }
    destruct (array_index key).
    + now apply NoDup_keys_insert_index.
    + unfold keys. rewrite map_app. simpl.
      apply NoDup_app; [exact Hnd | constructor; [simpl; tauto | constructor] |].
      intros x Hx [<-|[]]. contradiction.
Qed.

(* ===================================================================== *)
(** * The codec *)
(* ===================================================================== *)

Section CodecFacts.
Context {json : JSON.Engine}.

Lemma dangerous_spec (own : bool) (key : string) :
  own && negb (String.eqb key "__proto__")
  && negb (String.eqb key "constructor")
  && negb (String.eqb key "prototype") = own && negb (dangerous key).
Proof.
  unfold dangerous.
  destruct own, (String.eqb key "__proto__"), (String.eqb key "constructor"),
    (String.eqb key "prototype"); reflexivity.
Qed.

Lemma existsb_eqb_has_own (k : string) (props : Props) :
  existsb (String.eqb k) (keys props) = has_own k props.
Proof.
  unfold has_own. induction props as [|[k0 w] rest IH]; simpl; auto.
  rewrite String.eqb_sym. destruct (String.eqb k0 k); simpl; auto.
Qed.

(** The copy loop, started from any accumulator: a key is overwritten by
    the value read from [obj] exactly when the loop visits it and accepts it. *)
Lemma get_own_sanitize_loop (obj : Value) (k : string) (ks : list string)
    (acc : Props) :
  get_own k
    (fold_left
       (fun sanitized key =>
          if hasOwnProperty obj key
             && negb (String.eqb key "__proto__")
             && negb (String.eqb key "constructor")
             && negb (String.eqb key "prototype")
          then define_own key (get obj key) sanitized
          else sanitized) ks acc) =
  if existsb (String.eqb k) ks && hasOwnProperty obj k && negb (dangerous k)
  then Some (get obj k) else get_own k acc.
Proof.
  revert acc. induction ks as [|k0 ks IH]; intros acc; simpl; [reflexivity|].
  rewrite IH. clear IH.
  rewrite dangerous_spec, <- !andb_assoc.
  destruct (String.eqb_spec k k0) as [->|Hne]; simpl.
  - destruct (hasOwnProperty obj k0 && negb (dangerous k0)) eqn:Hok.
    + destruct (existsb (String.eqb k0) ks); simpl;
        [reflexivity | now rewrite get_own_define_own, String.eqb_refl].
    + now rewrite andb_false_r.
  - destruct (existsb (String.eqb k) ks && (hasOwnProperty obj k && negb (dangerous k)));
      [reflexivity|].
    destruct (hasOwnProperty obj k0 && negb (dangerous k0)); [|reflexivity].
    rewrite get_own_define_own.
    destruct (String.eqb_spec k0 k); [congruence | reflexivity].
Qed.

(** What [sanitize] keeps: every own property whose key is not on the
    denylist, with the value it had. *)
Lemma get_own_sanitize (obj : Value) (k : string) :
  get_own k (sanitize obj) =
  if dangerous k then None else get_own k (ownProperties obj).
Proof.
  unfold sanitize. rewrite get_own_sanitize_loop. simpl.
  rewrite existsb_eqb_has_own. unfold hasOwnProperty, get, has_own.
  destruct (get_own k (ownProperties obj)); simpl;
    destruct (dangerous k); reflexivity.
Qed.

Lemma NoDup_keys_sanitize (obj : Value) : NoDup (keys (sanitize obj)).
Proof.
  unfold sanitize.
  assert (H : forall ks acc, NoDup (keys acc) ->
    NoDup (keys (fold_left
       (fun sanitized key =>
          if hasOwnProperty obj key
             && negb (String.eqb key "__proto__")
             && negb (String.eqb key "constructor")
             && negb (String.eqb key "prototype")
          then define_own key (get obj key) sanitized
          else sanitized) ks acc))).
  { induction ks as [|k0 ks IH]; intros acc Hacc; simpl; [exact Hacc|].
    apply IH. destruct (_ && _); [now apply NoDup_keys_define_own | exact Hacc]. }
  apply H. constructor.
Qed.

Lemma hasDangerousKeys_spec (props : Props) :
  has_own "__proto__" props || has_own "constructor" props
  || has_own "prototype" props
  = negb (forallb (fun key => negb (dangerous key)) (keys props)).
Proof.
  rewrite <- !existsb_eqb_has_own.
  induction (keys props) as [|k ks IH]; [reflexivity|].
  cbn [existsb forallb]. unfold dangerous at 1.
  rewrite !(String.eqb_sym k).
  destruct (String.eqb "__proto__" k), (String.eqb "constructor" k),
    (String.eqb "prototype" k); cbn [orb andb negb];
    rewrite ?orb_true_r; try reflexivity; exact IH.
Qed.

(** The three outcomes of [safeJsonParse]. *)
Lemma safeJsonParse_cases (value : string) :
  match JSON.parse value with
  | Throw _ => safeJsonParse value = Normal (VString value)
  | Normal parsed =>
      if non_plain_object parsed then
        safeJsonParse value = Normal (VString value)
      else if structured parsed && negb (isArray parsed)
              && negb (no_dangerous_keys parsed) then
        safeJsonParse value = Normal (VObject ObjectPrototype (sanitize parsed))
      else safeJsonParse value = Normal parsed
  end.
Proof.
  unfold safeJsonParse, non_plain_object.
  destruct (JSON.parse value) as [parsed|e]; simpl; [|reflexivity].
  destruct parsed; simpl; try reflexivity.
  - unfold no_dangerous_keys, hasOwnProperty. simpl ownProperties.
    rewrite hasDangerousKeys_spec.
    destruct (forallb _ _); reflexivity.
  - destruct (String.eqb _ _); reflexivity.
Qed.

End CodecFacts.

Section CodecClaims.
Context {json : JSON.Engine}.

Lemma safeJsonParse_total (value : string) :
  exists v, safeJsonParse value = Normal v.
Proof.
  pose proof (safeJsonParse_cases value) as H.
  destruct (JSON.parse value) as [parsed|e]; [|eauto].
  destruct (non_plain_object parsed); [eauto|].
  destruct (structured parsed && negb (isArray parsed)
            && negb (no_dangerous_keys parsed)); eauto.
Qed.

(** C4. [safeJsonParse] returns a value for every input string: when
    [JSON.parse] throws it returns the raw string, when the parsed value is
    an object of a non-plain type it returns the raw string as well, and no
    path ends in an exception. *)
Theorem safeJsonParse_never_throws (value : string) :
  (exists v, safeJsonParse value = Normal v)
  /\ (forall e, JSON.parse value = Throw e ->
                safeJsonParse value = Normal (VString value))
  /\ (forall parsed, JSON.parse value = Normal parsed ->
                     non_plain_object parsed = true ->
                     safeJsonParse value = Normal (VString value)).
Proof.
  split; [apply safeJsonParse_total|].
  pose proof (safeJsonParse_cases value) as H.
  split.
  - intros e He. now rewrite He in H.
  - intros parsed Hp Hnp. now rewrite Hp, Hnp in H.
Qed.

(** C2 (as amended). When the parsed value is a plain structure with an own
    key [__proto__], [constructor] or [prototype], [safeJsonParse] returns
    a new object literal (its prototype is [Object.prototype]) whose own
    keys are pairwise distinct and are exactly the own keys of the parsed
    structure that are not on the denylist, each with its parsed value;
    nested structures are among these values and are not swept. *)
Theorem safeJsonParse_sanitizes (value : string) (proto : Proto) (props : Props) :
  JSON.parse value = Normal (VObject proto props) ->
  has_own "__proto__" props || has_own "constructor" props
  || has_own "prototype" props = true ->
  exists sanitized,
    safeJsonParse value = Normal (VObject ObjectPrototype sanitized)
    /\ NoDup (keys sanitized)
    /\ (forall k, get_own k sanitized =
                  if dangerous k then None else get_own k props)
    /\ (forall k, In k (keys sanitized) <->
                  In k (keys props) /\ dangerous k = false).
Proof.
  intros Hparse Hdanger.
  exists (sanitize (VObject proto props)).
  pose proof (safeJsonParse_cases value) as H.
  rewrite Hparse in H. simpl in H.
  unfold no_dangerous_keys in H. simpl ownProperties in H.
  rewrite hasDangerousKeys_spec in Hdanger. rewrite Hdanger in H.
  split; [exact H|]. split; [apply NoDup_keys_sanitize|].
  assert (Hget : forall k, get_own k (sanitize (VObject proto props)) =
                           if dangerous k then None else get_own k props).
  { intros k. apply get_own_sanitize. }
  split; [exact Hget|].
  intros k. rewrite <- !has_own_In. unfold has_own. rewrite Hget.
  destruct (dangerous k); [intuition discriminate|].
  destruct (get_own k props); intuition discriminate.
Qed.


(** C3 (as amended). For an array, or a plain structure without an own
    top-level key named [__proto__], [constructor] or [prototype], that is
    fully JSON-representable, decoding the encoding gives the value back. *)
Theorem decode_encode_roundtrip (v : Value) :
  structured v = true ->
  json_representable v ->
  (isArray v = false -> no_dangerous_keys v = true) ->
  decode_encode v = Normal v.
Proof.
  intros Hs (text & Hstr & Hparse) Hclean.
  unfold decode_encode.
  assert (Henc : fst (safeSerialize v) = Normal (Some text)).
  { unfold safeSerialize. destruct v; try discriminate Hs; simpl;
      now rewrite Hstr. }
  rewrite Henc.
  pose proof (safeJsonParse_cases text) as H. rewrite Hparse in H.
  destruct v; try discriminate Hs; simpl in H; [exact H|].
  rewrite (Hclean eq_refl) in H. exact H.
Qed.

(** What a denylisted key does to the round trip: the value that comes
    back is the sanitized copy. *)
Lemma decode_encode_sanitized (proto : Proto) (props : Props) :
  json_representable (VObject proto props) ->
  no_dangerous_keys (VObject proto props) = false ->
  decode_encode (VObject proto props) =
  Normal (VObject ObjectPrototype (sanitize (VObject proto props))).
Proof.
  intros (text & Hstr & Hparse) Hd. unfold decode_encode.
  assert (Henc : fst (safeSerialize (VObject proto props))
                 = Normal (Some text)).
  { unfold safeSerialize. simpl. now rewrite Hstr. }
  rewrite Henc.
  pose proof (safeJsonParse_cases text) as H. rewrite Hparse in H.
  simpl in H. now rewrite Hd in H.
Qed.


(** The cases of [safeSerialize], one per branch of the source. *)
Lemma safeSerialize_cases (value : Value) :
  match value with
  | VNull => safeSerialize value = (Normal (Some ""), [])
  | VArray _ =>
      safeSerialize value =
      match JSON.stringify value with
      | Normal r => (Normal r, [])
      | Throw error => (Normal (Some ""), [WarnSerializeArray error])
      end
  | VObject _ _ =>
      safeSerialize value =
      match JSON.stringify value with
      | Normal r => (Normal r, [])
      | Throw error => (Normal (Some ""), [WarnSerializeObject error])
      end
  | VHost tag str _ =>
      if String.eqb tag "Object" then
        safeSerialize value =
        match JSON.stringify value with
        | Normal r => (Normal r, [])
        | Throw error => (Normal (Some ""), [WarnSerializeObject error])
        end
      else
        safeSerialize value =
        match str with
        | Some s => (Normal (Some s), [])
        | None =>
            (Throw (TypeError "Cannot convert object to primitive value"), [])
        end
  | _ =>
      exists s, String_ value = Normal s
                /\ safeSerialize value = (Normal (Some s), [])
  end.
Proof.
  unfold safeSerialize.
  destruct value; simpl; try reflexivity; try (eexists; split; reflexivity).
  destruct (String.eqb_spec tag "Object") as [->|Hne].
  - reflexivity.
  - assert (Hc : String.eqb (tag ++ "]") "Object]" = false).
    { apply String.eqb_neq. intros Heq. apply Hne.
      clear -Heq. revert Heq.
      change "Object]" with ("Object" ++ "]").
      generalize "Object". induction tag as [|c t IH]; intros [|d o]; simpl;
        intros H; try reflexivity.
      - inversion H. destruct o; discriminate.
      - inversion H. destruct t; discriminate.
      - inversion H. f_equal. now apply IH. }
    rewrite Hc. destruct str; reflexivity.
Qed.

End CodecClaims.

(* ===================================================================== *)
(** * Facts about [URLSearchParams] *)
(* ===================================================================== *)

Module ParamsFacts.
Import URLSearchParams.

Lemma has_delete (f k : string) (l : t) :
  has f (delete k l) = negb (String.eqb k f) && has f l.
Proof.
  unfold has, delete. induction l as [|[k0 v0] rest IH]; simpl.
  - now rewrite andb_false_r.
  - destruct (String.eqb_spec k0 k) as [->|Hne]; simpl.
    + rewrite IH. destruct (String.eqb k f); reflexivity.
    + rewrite IH. destruct (String.eqb_spec k0 f) as [->|Hf]; simpl; auto.
      destruct (String.eqb_spec k f); [congruence | reflexivity].
Qed.

Lemma has_set (f k v : string) (l : t) :
  has f (set k v l) = String.eqb k f || has f l.
Proof.
  induction l as [|[k0 v0] rest IH]; simpl.
  - unfold has. simpl. now rewrite orb_false_r.
  - destruct (String.eqb_spec k0 k) as [->|Hne].
    + change (has f ((k, v) :: delete k rest))
        with (String.eqb k f || has f (delete k rest)).
      change (has f ((k, v0) :: rest)) with (String.eqb k f || has f rest).
      rewrite has_delete. destruct (String.eqb k f); reflexivity.
    + change (has f ((k0, v0) :: set k v rest))
        with (String.eqb k0 f || has f (set k v rest)).
      change (has f ((k0, v0) :: rest)) with (String.eqb k0 f || has f rest).
      rewrite IH.
      destruct (String.eqb k0 f), (String.eqb k f); reflexivity.
Qed.

Lemma has_get (f : string) (l : t) :
  has f l = false <-> get f l = None.
Proof.
  unfold has. induction l as [|[k0 v0] rest IH]; simpl; [tauto|].
  destruct (String.eqb k0 f); simpl; [split; discriminate | exact IH].
Qed.

Lemma has_In (f : string) (l : t) :
  has f l = true <-> In f (map fst l).
Proof.
  unfold has. rewrite existsb_exists, in_map_iff.
  split; intros (e & H1 & H2).
  - exists e. apply String.eqb_eq in H2. auto.
  - exists e. subst. split; [auto | apply String.eqb_refl].
Qed.

Lemma getAll_has (f : string) (l : t) :
  has f l = false <-> getAll f l = [].
Proof.
  unfold has, getAll. induction l as [|[k0 v0] rest IH]; simpl; [tauto|].
  destruct (String.eqb k0 f); simpl; [split; discriminate | exact IH].
Qed.

(** Deleting an absent name changes nothing. *)
Lemma delete_absent (k : string) (l : t) :
  has k l = false -> delete k l = l.
Proof.
  unfold has, delete. induction l as [|[k0 v0] rest IH]; simpl; auto.
  destruct (String.eqb k0 k); simpl; [discriminate|].
  intros H. now rewrite IH.
Qed.

(** Setting a name to the value that its only pair already has changes
    nothing. *)
Lemma set_settled (k v : string) (l : t) :
  getAll k l = [v] -> set k v l = l.
Proof.
  induction l as [|[k0 v0] rest IH]; simpl; [discriminate|].
  unfold getAll. simpl. destruct (String.eqb_spec k0 k) as [->|Hne]; simpl.
  - intros H. injection H as -> Hrest.
    rewrite delete_absent; [reflexivity|].
    apply getAll_has. exact Hrest.
  - intros H. now rewrite IH.
Qed.

Lemma getAll_delete (f k : string) (l : t) :
  getAll f (delete k l) = if String.eqb k f then [] else getAll f l.
Proof.
  unfold getAll, delete. induction l as [|[k0 v0] rest IH]; simpl.
  - now destruct (String.eqb k f).
  - destruct (String.eqb_spec k0 k) as [->|Hne]; simpl.
    + rewrite IH. destruct (String.eqb k f); reflexivity.
    + destruct (String.eqb_spec k0 f) as [->|Hf]; simpl.
      * rewrite IH. destruct (String.eqb_spec k f); [congruence | reflexivity].
      * exact IH.
Qed.

Lemma getAll_set (f k v : string) (l : t) :
  getAll f (set k v l) = if String.eqb k f then [v] else getAll f l.
Proof.
  induction l as [|[k0 v0] rest IH].
  - unfold getAll. simpl. now destruct (String.eqb k f).
  - simpl set. destruct (String.eqb_spec k0 k) as [->|Hne].
    + pose proof (getAll_delete f k rest) as Hd.
      unfold getAll in *. simpl.
      destruct (String.eqb_spec k f) as [->|Hf]; simpl.
      * now rewrite Hd.
      * exact Hd.
    + unfold getAll in *. simpl.
      destruct (String.eqb_spec k0 f) as [->|Hf]; simpl; rewrite IH;
        destruct (String.eqb_spec k f); try congruence; reflexivity.
Qed.

(** Frame: the pairs whose names a predicate selects are those of the
    original list, in the same order, when the name written is not
    selected. *)
Lemma filter_delete (P : string -> bool) (k : string) (l : t) :
  P k = false ->
  filter (fun e => P (fst e)) (delete k l) = filter (fun e => P (fst e)) l.
Proof.
  intros HP. unfold delete.
  induction l as [|[k0 v0] rest IH]; simpl; auto.
  destruct (String.eqb_spec k0 k) as [->|Hne]; simpl.
  - now rewrite HP.
  - now rewrite IH.
Qed.

Lemma filter_set (P : string -> bool) (k v : string) (l : t) :
  P k = false ->
  filter (fun e => P (fst e)) (set k v l) = filter (fun e => P (fst e)) l.
Proof.
  intros HP. induction l as [|[k0 v0] rest IH]; simpl.
  - now rewrite HP.
  - destruct (String.eqb_spec k0 k) as [->|Hne]; simpl.
    + rewrite HP. now apply filter_delete.
    + now rewrite IH.
Qed.

End ParamsFacts.

(* ===================================================================== *)
(** * The publication loop *)
(* ===================================================================== *)

Section PublicationFacts.
Context {json : JSON.Engine}.
Import URLSearchParams ParamsFacts.

Lemma includes_In (l : list string) (x : string) :
  includes l x = true <-> In x l.
Proof.
  unfold includes. rewrite existsb_exists. split.
  - intros (y & Hy & Heq). apply String.eqb_eq in Heq. now subst.
  - intros H. exists x. split; [exact H | apply String.eqb_refl].
Qed.

Lemma includes_false (l : list string) (x : string) :
  includes l x = false <-> ~ In x l.
Proof.
  rewrite <- includes_In. destruct (includes l x); split; congruence.
Qed.

(** [publishEntry] applies the update that [entryUpdate] decides on. *)
Lemma publishEntry_update (env : string) (excl : list string)
    (entry : string * Value) (p : t) :
  publishEntry env excl entry p =
  match entryUpdate env excl entry with
  | (Normal u, d) => (Normal (apply_update p u), d)
  | (Throw e, d) => (Throw e, d)
  end.
Proof.
  destruct entry as [key value]. unfold publishEntry, entryUpdate.
  destruct (includes excl key); [reflexivity|].
  unfold bindE, warn, ret.
  destruct (is_empty_value value); [reflexivity|].
  destruct (safeSerialize value) as [[[s|]|e] d]; simpl; try reflexivity.
  destruct (truthy_string s); reflexivity.
Qed.

Lemma forEachE_updates (env : string) (excl : list string)
    (entries : Props) (p : t) :
  forEachE (publishEntry env excl) entries p =
  match entryUpdates env excl entries with
  | (Normal us, d) => (Normal (fold_left apply_update us p), d)
  | (Throw e, d) => (Throw e, d)
  end.
Proof.
  revert p. induction entries as [|entry rest IH]; intros p; simpl.
  - reflexivity.
  - unfold bindE at 1. rewrite publishEntry_update.
    unfold bindE at 1.
    destruct (entryUpdate env excl entry) as [[u|e] d]; [|reflexivity].
    rewrite IH. unfold bindE, ret.
    destruct (entryUpdates env excl rest) as [[us|e] d']; simpl;
      [now rewrite app_nil_r | reflexivity].
Qed.

(** The working copy is the current params without the excluded names,
    updated once per form entry. *)
Lemma buildParams_updates (env : string) (excl : list string)
    (values : FormValues) (current : t) :
  buildParams env excl values current =
  match entryUpdates env excl
          (match values with Some props => props | None => [] end) with
  | (Normal us, d) =>
      (Normal (fold_left apply_update us
                 (fold_left (fun p field => delete field p) excl current)), d)
  | (Throw e, d) => (Throw e, d)
  end.
Proof. unfold buildParams. apply forEachE_updates. Qed.

Lemma update_keys_cons (u : Update) (us : list Update) :
  update_keys (u :: us) = (update_keys [u] ++ update_keys us)%list.
Proof. unfold update_keys. simpl. now rewrite app_nil_r. Qed.

(** The names the updates write are the form's keys that are not
    excluded, in order. *)
Lemma update_keys_entryUpdates (env : string) (excl : list string)
    (entries : Props) (us : list Update) (d : list Diagnostic) :
  entryUpdates env excl entries = (Normal us, d) ->
  update_keys us = filter (fun k => negb (includes excl k)) (keys entries).
Proof.
  revert us d. induction entries as [|[key value] rest IH]; intros us d.
  - unfold entryUpdates, ret. intros H. injection H as <- _. reflexivity.
  - cbn [entryUpdates]. unfold bindE at 1.
    destruct (entryUpdate env excl (key, value)) as [[u|e] d1] eqn:Hu;
      [|intros H; discriminate H].
    unfold bindE, ret.
    destruct (entryUpdates env excl rest) as [[us'|e] d2];
      [|intros H; discriminate H].
    intros H. injection H as <- _.
    rewrite update_keys_cons, (IH us' d2 eq_refl).
    cbn [keys map fst filter]. fold (keys rest).
    unfold entryUpdate in Hu.
    destruct (includes excl key); simpl.
    + unfold ret in Hu. injection Hu as <- _. reflexivity.
    + unfold bindE, warn, ret in Hu.
      destruct (is_empty_value value); [injection Hu as <- _; reflexivity|].
      destruct (safeSerialize value) as [[[s|]|e] d3]; simpl in Hu;
        try discriminate.
      * destruct (truthy_string s); injection Hu as <- _; reflexivity.
      * injection Hu as <- _. reflexivity.
Qed.

Lemma has_fold_delete (f : string) (excl : list string) (l : t) :
  has f (fold_left (fun p field => delete field p) excl l)
  = negb (includes excl f) && has f l.
Proof.
  revert l. induction excl as [|k excl IH]; intros l; simpl; [reflexivity|].
  rewrite IH, has_delete. rewrite (String.eqb_sym f k).
  destruct (String.eqb k f), (includes excl f); simpl;
    rewrite ?andb_false_r; reflexivity.
Qed.

Lemma filter_fold_delete (P : string -> bool) (excl : list string) (l : t) :
  (forall k, In k excl -> P k = false) ->
  filter (fun e => P (fst e)) (fold_left (fun p field => delete field p) excl l)
  = filter (fun e => P (fst e)) l.
Proof.
  revert l. induction excl as [|k excl IH]; intros l HP; simpl; [reflexivity|].
  rewrite IH by (intros; apply HP; now right).
  apply filter_delete, HP. now left.
Qed.

(** An update leaves alone every name it does not write. *)
Lemma has_apply_update (f : string) (u : Update) (p : t) :
  ~ In f (update_keys [u]) -> has f (apply_update p u) = has f p.
Proof.
  destruct u as [|k|k v]; simpl; intros Hf; [reflexivity| |].
  - rewrite has_delete. destruct (String.eqb_spec k f); [tauto | reflexivity].
  - rewrite has_set. destruct (String.eqb_spec k f); [tauto | reflexivity].
Qed.

Lemma has_fold_updates (f : string) (us : list Update) (p : t) :
  ~ In f (update_keys us) -> has f (fold_left apply_update us p) = has f p.
Proof.
  revert p. induction us as [|u us IH]; intros p Hf; simpl; [reflexivity|].
  rewrite update_keys_cons, in_app_iff in Hf.
  rewrite IH by tauto. apply has_apply_update. tauto.
Qed.

Lemma filter_fold_updates (P : string -> bool) (us : list Update) (p : t) :
  (forall k, In k (update_keys us) -> P k = false) ->
  filter (fun e => P (fst e)) (fold_left apply_update us p)
  = filter (fun e => P (fst e)) p.
Proof.
  revert p. induction us as [|u us IH]; intros p HP; simpl; [reflexivity|].
  rewrite IH.
  - destruct u as [|k|k v]; simpl; [reflexivity| |].
    + apply filter_delete, HP. simpl. now left.
    + apply filter_set, HP. simpl. now left.
  - intros k Hk. apply HP. rewrite update_keys_cons, in_app_iff. now right.
Qed.

(** Publication never leaves an excluded name in the working copy. *)
Lemma buildParams_excluded (env : string) (excl : list string)
    (values : FormValues) (current newParams : t) (d : list Diagnostic)
    (f : string) :
  buildParams env excl values current = (Normal newParams, d) ->
  In f excl -> has f newParams = false.
Proof.
  rewrite buildParams_updates.
  destruct (entryUpdates env excl _) as [[us|e] d'] eqn:Hus;
    [|intros H; discriminate H].
  intros H Hf. injection H as <- _.
  rewrite has_fold_updates.
  - rewrite has_fold_delete. apply includes_In in Hf. now rewrite Hf.
  - rewrite (update_keys_entryUpdates _ _ _ _ _ Hus), filter_In.
    apply includes_In in Hf. rewrite Hf. intros [_ H]. discriminate.
Qed.

(** Publication keeps, in their order, the pairs whose name is neither
    excluded nor a field of the form. *)
Lemma buildParams_frame (env : string) (excl : list string)
    (values : FormValues) (current newParams : t) (d : list Diagnostic) :
  buildParams env excl values current = (Normal newParams, d) ->
  filter (fun e => negb (touched excl values (fst e))) newParams
  = filter (fun e => negb (touched excl values (fst e))) current.
Proof.
  rewrite buildParams_updates.
  destruct (entryUpdates env excl _) as [[us|e] d'] eqn:Hus;
    [|intros H; discriminate H].
  intros H. injection H as <- _.
  rewrite (filter_fold_updates (fun k => negb (touched excl values k))).
  - apply (filter_fold_delete (fun k => negb (touched excl values k))).
    intros k Hk. unfold touched. apply includes_In in Hk. now rewrite Hk.
  - intros k Hk.
    rewrite (update_keys_entryUpdates _ _ _ _ _ Hus), filter_In in Hk.
    destruct Hk as [Hk _]. unfold touched.
    assert (Hin : includes (keys match values with
                                 | Some props => props
                                 | None => []
                                 end) k = true) by now apply includes_In.
    rewrite Hin. now rewrite orb_true_r.
Qed.

(** ** Idempotence *)

Lemma settled_apply (u : Update) (p : t) : settled u (apply_update p u).
Proof.
  destruct u as [|k|k v]; simpl; auto.
  - now rewrite getAll_delete, String.eqb_refl.
  - now rewrite getAll_set, String.eqb_refl.
Qed.

Lemma settled_fixed (u : Update) (p : t) : settled u p -> apply_update p u = p.
Proof.
  destruct u as [|k|k v]; simpl; auto.
  - intros H. apply delete_absent, getAll_has, H.
  - apply set_settled.
Qed.

Lemma settled_other (u u' : Update) (p : t) :
  (forall k, In k (update_keys [u]) -> ~ In k (update_keys [u'])) ->
  settled u p -> settled u (apply_update p u').
Proof.
  intros Hdis. destruct u as [|k|k v]; simpl; auto;
    destruct u' as [|k'|k' v']; simpl; auto;
    rewrite ?getAll_delete, ?getAll_set;
    (destruct (String.eqb_spec k' k) as [->|Hne];
     [exfalso; apply (Hdis k); simpl; auto | auto]).
Qed.

Lemma settled_fold (u : Update) (us : list Update) (p : t) :
  ~ (exists k, In k (update_keys [u]) /\ In k (update_keys us)) ->
  settled u p -> settled u (fold_left apply_update us p).
Proof.
  revert p. induction us as [|u' us IH]; intros p Hdis Hs; simpl; [exact Hs|].
  apply IH.
  - intros (k & H1 & H2). apply Hdis. exists k. split; [exact H1|].
    rewrite update_keys_cons, in_app_iff. now right.
  - apply settled_other; [|exact Hs].
    intros k H1 H2. apply Hdis. exists k. split; [exact H1|].
    rewrite update_keys_cons, in_app_iff. now left.
Qed.

(** Once a list of updates on distinct names has been applied, applying
    it again changes nothing. *)
Lemma fold_updates_idempotent (us : list Update) (p : t) :
  NoDup (update_keys us) ->
  fold_left apply_update us (fold_left apply_update us p)
  = fold_left apply_update us p.
Proof.
  intros Hnd.
  assert (Hall : forall u, In u us -> settled u (fold_left apply_update us p)).
  { revert p. induction us as [|u0 us IH]; intros p u Hu; [destruct Hu|].
    rewrite update_keys_cons in Hnd. simpl.
    destruct Hu as [<-|Hu].
    - apply settled_fold; [|apply settled_apply].
      intros (k & H1 & H2).
      apply NoDup_app_remove_r in Hnd as Hl.
      revert H1 H2 Hnd. clear. intros H1 H2 Hnd.
      induction (update_keys [u0]) as [|a l IHl]; [destruct H1|].
      simpl in Hnd. inversion Hnd as [|? ? Ha Hrest]; subst.
      destruct H1 as [->|H1].
      + apply Ha, in_or_app. now right.
      + now apply IHl.
    - apply IH; [|exact Hu]. now apply NoDup_app_remove_l in Hnd. }
  remember (fold_left apply_update us p) as r eqn:Hr. clear Hr Hnd.
  induction us as [|u us IH]; simpl; [reflexivity|].
  rewrite (settled_fixed u r) by (apply Hall; now left).
  apply IH. intros u' Hu'. apply Hall. now right.
Qed.

Lemma NoDup_filter {A} (f : A -> bool) (l : list A) :
  NoDup l -> NoDup (filter f l).
Proof.
  induction 1 as [|x l Hx Hnd IH]; simpl; [constructor|].
  destruct (f x); [|exact IH].
  constructor; [|exact IH]. rewrite filter_In. tauto.
Qed.

(** Publishing the same form values over the result of a publication
    gives that result again. *)
Lemma buildParams_idempotent (env : string) (excl : list string)
    (values : FormValues) (current newParams : t) (d : list Diagnostic) :
  NoDup (keys (match values with Some props => props | None => [] end)) ->
  buildParams env excl values current = (Normal newParams, d) ->
  buildParams env excl values newParams = (Normal newParams, d).
Proof.
  intros Hnd H.
  pose proof (fun f => buildParams_excluded env excl values current newParams d f H) as Hex.
  rewrite buildParams_updates in *.
  destruct (entryUpdates env excl _) as [[us|e] d'] eqn:Hus; [|discriminate].
  injection H as H <-. f_equal. f_equal.
  assert (Hdel : fold_left (fun p field => delete field p) excl newParams
                 = newParams).
  { clear -Hex. induction excl as [|k excl IH]; simpl; [reflexivity|].
    rewrite delete_absent by (apply Hex; now left).
    apply IH. intros f Hf. apply Hex. now right. }
  rewrite Hdel. rewrite <- H at 1.
  rewrite fold_updates_idempotent; [exact H|].
  rewrite (update_keys_entryUpdates _ _ _ _ _ Hus). now apply NoDup_filter.
Qed.

End PublicationFacts.

(* ===================================================================== *)
(** * The hydration loop *)
(* ===================================================================== *)

Section HydrationFacts.
Context {json : JSON.Engine}.

(** One round of the [params.forEach] loop. *)
Lemma restoreValues_snoc (excl : list string) (params : URLSearchParams.t)
    (key value : string) :
  restoreValues excl (params ++ [(key, value)])%list =
  (restoredValues <- restoreValues excl params ;;
   if includes excl key then Normal restoredValues
   else if truthy_string value then
     parsed <- safeJsonParse value ;;
     Normal (assign key parsed restoredValues)
   else Normal restoredValues).
Proof. unfold restoreValues. now rewrite fold_left_app. Qed.

(** A property of [{}] that every accepted assignment preserves holds of
    the restored values. *)
Lemma restoreValues_invariant (P : Obj -> Prop) (excl : list string) :
  P empty_object ->
  (forall key parsed r,
      includes excl key = false -> P r -> P (assign key parsed r)) ->
  forall params, exists r, restoreValues excl params = Normal r /\ P r.
Proof.
  intros Hempty Hstep params.
  induction params as [|[key value] params IH] using rev_ind.
  - exists empty_object. split; [reflexivity | exact Hempty].
  - rewrite restoreValues_snoc.
    destruct IH as (r & -> & Hr). simpl.
    destruct (includes excl key) eqn:Hinc; [eauto|].
    destruct (truthy_string value); [|eauto].
    destruct (safeJsonParse_total value) as (parsed & ->). simpl.
    eauto.
Qed.

(** The loop never throws. *)
Lemma restoreValues_total (excl : list string) (params : URLSearchParams.t) :
  exists r, restoreValues excl params = Normal r.
Proof.
  destruct (restoreValues_invariant (fun _ => True) excl I
              (fun _ _ _ _ _ => I) params) as (r & H & _).
  eauto.
Qed.

Lemma Object_keys_assign (k key : string) (parsed : Value) (r : Obj) :
  In k (Object_keys (assign key parsed r)) ->
  k = key \/ In k (Object_keys r).
Proof.
  unfold assign, Object_keys.
  destruct (String.eqb key "__proto__" && reaches_Object_prototype (obj_proto r)).
  - destruct (is_object_or_null parsed); simpl; auto.
  - simpl. rewrite In_keys_define_own. tauto.
Qed.

(** An excluded name is never a key of the restored values. *)
Lemma restoreValues_excluded (excl : list string) (params : URLSearchParams.t)
    (r : Obj) (f : string) :
  restoreValues excl params = Normal r ->
  In f excl -> ~ In f (Object_keys r).
Proof.
  intros Hr Hf.
  destruct (restoreValues_invariant (fun r => ~ In f (Object_keys r)) excl)
    with (params := params) as (r' & Hr' & HP).
  - simpl. tauto.
  - intros key parsed r0 Hinc Hr0 Hin.
    apply Object_keys_assign in Hin as [->|Hin]; [|tauto].
    apply includes_false in Hinc. tauto.
  - congruence.
Qed.


End HydrationFacts.

(* ===================================================================== *)
(** * The effects in the world *)
(* ===================================================================== *)

Section WorldFacts.
Context {json : JSON.Engine}.

Ltac break_world w :=
  let r := fresh "r" in
  destruct w as [r ? ? ? ? ? ? ? ? ? ?]; destruct r; simpl in *.

(** What the timer callback does, in terms of the working copy. *)
Lemma publishCallback_cases (t : Timer) (w : World) :
  match buildParams (NODE_ENV w) (excludeFields (timer_options t))
          (timer_values t) (searchParams (timer_adapter t)) with
  | (Throw e, d) =>
      publishCallback t w = raise e (console_warn d w)
  | (Normal newParams, d) =>
      let text := searchParamsToString newParams in
      setSearchParamsCalls (publishCallback t w) =
        (setSearchParamsCalls w ++
         if String.eqb text (lastUrlParamsRef (refs w))
         then [] else [newParams])%list
      /\ lastUrlParamsRef (refs (publishCallback t w)) = text
      /\ firstRender (refs (publishCallback t w)) = firstRender (refs w)
      /\ isUpdatingFromUrlRef (refs (publishCallback t w))
         = isUpdatingFromUrlRef (refs w)
      /\ timeoutRef (refs (publishCallback t w)) = timeoutRef (refs w)
      /\ timers (publishCallback t w) = timers w
      /\ NODE_ENV (publishCallback t w) = NODE_ENV w
      /\ resetCalls (publishCallback t w) = resetCalls w
  end.
Proof.
  unfold publishCallback.
  destruct (buildParams _ _ _ _) as [[newParams|e] d]; [|reflexivity].
  unfold searchParamsToString.
  destruct (maxUrlLength (timer_options t)
            <? String.length (URLSearchParams.toString newParams))%nat;
    break_world w;
    destruct (String.eqb_spec (URLSearchParams.toString newParams)
                lastUrlParamsRef0) as [->|Hne]; simpl;
    rewrite ?app_nil_r; repeat split; reflexivity.
Qed.

(** Every mapping handed to the sink by the callback is the working copy
    it built. *)
Lemma publishCallback_commit (t : Timer) (w : World) (p : URLSearchParams.t) :
  In p (setSearchParamsCalls (publishCallback t w)) ->
  In p (setSearchParamsCalls w)
  \/ exists d,
       buildParams (NODE_ENV w) (excludeFields (timer_options t))
         (timer_values t) (searchParams (timer_adapter t))
       = (Normal p, d).
Proof.
  pose proof (publishCallback_cases t w) as H.
  destruct (buildParams _ _ _ _) as [[newParams|e] d].
  - destruct H as (-> & _). rewrite in_app_iff.
    intros [Hin|Hin]; [now left|].
    destruct (String.eqb _ _); [destruct Hin|].
    destruct Hin as [<-|[]]. right. now exists d.
  - rewrite H. break_world w. now left.
Qed.

(** The cases of the first effect. *)
Lemma hydrationEffect_cases (excl : list string) (a : RouterAdapter)
    (w : World) :
  let text := searchParamsToString (searchParams a) in
  if negb (firstRender (refs w))
     && String.eqb text (lastUrlParamsRef (refs w))
  then hydrationEffect excl a w = w
  else
    exists restored,
      restoreValues excl (searchParams a) = Normal restored
      /\ lastUrlParamsRef (refs (hydrationEffect excl a w)) = text
      /\ firstRender (refs (hydrationEffect excl a w)) = false
      /\ resetCalls (hydrationEffect excl a w) =
         (resetCalls w ++
          if (0 <? List.length (Object_keys restored))%nat
          then [restored] else [])%list
      /\ isUpdatingFromUrlRef (refs (hydrationEffect excl a w)) =
         ((0 <? List.length (Object_keys restored))%nat
          || isUpdatingFromUrlRef (refs w))
      /\ microtasks (hydrationEffect excl a w) =
         (if (0 <? List.length (Object_keys restored))%nat
          then S (microtasks w) else microtasks w)
      /\ setSearchParamsCalls (hydrationEffect excl a w)
         = setSearchParamsCalls w
      /\ timers (hydrationEffect excl a w) = timers w
      /\ timeoutRef (refs (hydrationEffect excl a w)) = timeoutRef (refs w)
      /\ NODE_ENV (hydrationEffect excl a w) = NODE_ENV w.
Proof.
  intros text. unfold hydrationEffect. fold text.
  destruct (negb (firstRender (refs w))
            && String.eqb text (lastUrlParamsRef (refs w))); [reflexivity|].
  destruct (restoreValues_total excl (searchParams a)) as (restored & Hr).
  exists restored. rewrite Hr. split; [reflexivity|].
  destruct (0 <? List.length (Object_keys restored))%nat;
    break_world w; destruct firstRender0; simpl; rewrite ?app_nil_r;
    repeat split; reflexivity.
Qed.

End WorldFacts.

Section DebounceFacts.
Context {json : JSON.Engine}.

Ltac break_world w :=
  let r := fresh "r" in
  destruct w as [r ? ? ? ? ? ? ? ? ? ?]; destruct r; simpl in *.

Lemma clear_tracked (w : World) (id : nat) :
  timers_tracked w -> timeoutRef (refs w) = Some id ->
  filter (fun t => negb (Nat.eqb (timer_id t) id)) (timers w) = [].
Proof.
  intros Htr Hid.
  assert (H : forall t, In t (timers w) -> timer_id t = id).
  { intros t Ht. apply Htr in Ht. congruence. }
  induction (timers w) as [|t ts IH]; simpl; [reflexivity|].
  rewrite (H t) by now left. rewrite Nat.eqb_refl. simpl.
  apply IH. intros t' Ht'. apply H. now right.
Qed.

Lemma untracked_empty (w : World) :
  timers_tracked w -> timeoutRef (refs w) = None -> timers w = [].
Proof.
  intros Htr Hnone. destruct (timers w) as [|t ts] eqn:Ht; [reflexivity|].
  specialize (Htr t). rewrite Ht in Htr.
  rewrite Hnone in Htr. discriminate Htr. now left.
Qed.

(** A change observed when the hook is ready replaces whatever timer was
    pending by a timer of its own. *)
Lemma step_publish (c : Change) (w : World) :
  ready w -> timers_tracked w ->
  let w1 := step w (publish c) in
  timers w1 = [scheduled c w]
  /\ timeoutRef (refs w1) = Some (nextTimerId w)
  /\ ready w1
  /\ setSearchParamsCalls w1 = setSearchParamsCalls w
  /\ lastUrlParamsRef (refs w1) = lastUrlParamsRef (refs w)
  /\ NODE_ENV w1 = NODE_ENV w
  /\ now w1 = now w.
Proof.
  intros [Hfirst Hflag] Htr.
  assert (Hclear : forall id, timeoutRef (refs w) = Some id ->
            filter (fun t => negb (Nat.eqb (timer_id t) id)) (timers w) = [])
    by (intros; now apply clear_tracked).
  assert (Hnone : timeoutRef (refs w) = None -> timers w = [])
    by (intros; now apply untracked_empty).
  unfold ready, scheduled, publish, step, publicationCleanup,
    publicationEffect, clearTimeout, setTimeout.
  break_world w. subst.
  destruct cleanupRegistered0, timeoutRef0 as [id|]; simpl;
    rewrite ?Nat.eqb_refl; simpl;
    try rewrite (Hclear id eq_refl); try rewrite (Hnone eq_refl); simpl;
    repeat split; reflexivity.
Qed.

Lemma runMicrotasks_ready (w : World) :
  isUpdatingFromUrlRef (refs w) = false ->
  refs (runMicrotasks w) = refs w
  /\ timers (runMicrotasks w) = timers w
  /\ setSearchParamsCalls (runMicrotasks w) = setSearchParamsCalls w
  /\ NODE_ENV (runMicrotasks w) = NODE_ENV w
  /\ now (runMicrotasks w) = now w.
Proof.
  unfold runMicrotasks. break_world w. intros ->.
  destruct microtasks0; simpl; repeat split; reflexivity.
Qed.

(** Before the timer is due, time passes and nothing else happens. *)
Lemma step_advance_early (t : Timer) (ms : nat) (w : World) :
  ready w -> timers w = [t] -> now w + ms < timer_due t ->
  let w1 := step w (Advance ms) in
  timers w1 = [t]
  /\ refs w1 = refs w
  /\ setSearchParamsCalls w1 = setSearchParamsCalls w
  /\ NODE_ENV w1 = NODE_ENV w.
Proof.
  intros [Hfirst Hflag] Ht Hlt.
  destruct (runMicrotasks_ready w Hflag) as (Hr & Hts & Hs & He & Hn).
  cbn [step]. cbv zeta.
  remember (runMicrotasks w) as w0 eqn:Hw0. clear Hw0.
  change (timers (with_now (now w0 + ms) w0)) with (timers w0).
  change (now (with_now (now w0 + ms) w0)) with (now w0 + ms).
  rewrite Hts, Ht, Hn. cbn [filter].
  assert (Hdue : (timer_due t <=? now w + ms)%nat = false)
    by (apply Nat.leb_gt; exact Hlt).
  rewrite Hdue. cbn. rewrite Hts, Ht, Hr, Hs, He.
  repeat split; reflexivity.
Qed.

(** When the timer is due its callback runs, once. *)
Lemma step_advance_due (t : Timer) (ms : nat) (w : World) :
  ready w -> timers w = [t] -> timer_due t <= now w + ms ->
  exists w0,
    step w (Advance ms) = publishCallback t w0
    /\ refs w0 = refs w
    /\ timers w0 = []
    /\ setSearchParamsCalls w0 = setSearchParamsCalls w
    /\ NODE_ENV w0 = NODE_ENV w.
Proof.
  intros [Hfirst Hflag] Ht Hle.
  destruct (runMicrotasks_ready w Hflag) as (Hr & Hts & Hs & He & Hn).
  cbn [step]. cbv zeta.
  remember (runMicrotasks w) as w0 eqn:Hw0. clear Hw0.
  change (timers (with_now (now w0 + ms) w0)) with (timers w0).
  change (now (with_now (now w0 + ms) w0)) with (now w0 + ms).
  rewrite Hts, Ht, Hn. cbn [filter].
  assert (Hdue : (timer_due t <=? now w + ms)%nat = true)
    by (apply Nat.leb_le; exact Hle).
  rewrite Hdue. cbn [sort_by_due fold_left insert_by_due].
  unfold fire.
  change (timers (with_now (now w + ms) w0)) with (timers w0).
  rewrite Hts, Ht. cbn [existsb]. rewrite Nat.eqb_refl. cbn [orb].
  eexists. split; [reflexivity|].
  cbn. rewrite Hts, Ht, Hr, Hs, He. cbn. rewrite Nat.eqb_refl. cbn.
  repeat split; reflexivity.
Qed.

(** A change followed by a pause shorter than its debounce delay: the
    sink is not called and the hook is ready for the next change. *)
Lemma window_step (c : Change) (pause : nat) (w : World) :
  ready w -> timers_tracked w -> pause < debounce (change_options c) ->
  let w1 := run w [publish c; Advance pause] in
  ready w1 /\ timers_tracked w1
  /\ setSearchParamsCalls w1 = setSearchParamsCalls w
  /\ lastUrlParamsRef (refs w1) = lastUrlParamsRef (refs w)
  /\ NODE_ENV w1 = NODE_ENV w.
Proof.
  intros Hready Htr Hpause. cbv zeta. unfold run. cbn [fold_left].
  destruct (step_publish c w Hready Htr)
    as (Hts & Href & Hready1 & Hs & Hl & He & Hn).
  destruct (step_advance_early (scheduled c w) pause (step w (publish c)))
    as (Hts2 & Hr2 & Hs2 & He2); auto.
  { rewrite Hn. simpl. lia. }
  unfold ready, timers_tracked. rewrite Hts2, Hr2, Hs2, He2.
  repeat split; try tauto; try congruence; try apply Hready1.
  intros t [<-|[]]. rewrite Href. reflexivity.
Qed.

Lemma burst_spec (changes : list (Change * nat)) (w : World) :
  ready w -> timers_tracked w -> within_window changes ->
  let w1 := run w (burst changes) in
  ready w1 /\ timers_tracked w1
  /\ setSearchParamsCalls w1 = setSearchParamsCalls w
  /\ lastUrlParamsRef (refs w1) = lastUrlParamsRef (refs w)
  /\ NODE_ENV w1 = NODE_ENV w.
Proof.
  revert w. induction changes as [|[c pause] rest IH]; intros w Hr Htr Hw.
  - simpl. tauto.
  - inversion Hw as [|? ? Hc Hrest]; subst. cbn [fst snd] in Hc.
    destruct (window_step c pause w Hr Htr Hc) as (Hr1 & Htr1 & Hs1 & Hl1 & He1).
    destruct (IH _ Hr1 Htr1 Hrest) as (Hr2 & Htr2 & Hs2 & Hl2 & He2).
    cbv zeta.
    change (run w (burst ((c, pause) :: rest)))
      with (run (run w [publish c; Advance pause]) (burst rest)).
    split; [exact Hr2|]. split; [exact Htr2|].
    repeat split; congruence.
Qed.

(** The last change of a window, once its delay has passed. *)
Lemma window_close (c : Change) (delay : nat) (w : World) :
  ready w -> timers_tracked w -> debounce (change_options c) <= delay ->
  let w1 := run w [publish c; Advance delay] in
  setSearchParamsCalls w1 = (setSearchParamsCalls w ++ commits c w)%list
  /\ ready w1 /\ timers_tracked w1
  /\ NODE_ENV w1 = NODE_ENV w
  /\ (forall newParams, workingCopy c w = Normal newParams ->
        lastUrlParamsRef (refs w1) = searchParamsToString newParams).
Proof.
  intros Hready Htr Hdelay. cbv zeta. unfold run. cbn [fold_left].
  destruct (step_publish c w Hready Htr)
    as (Hts & Href & Hready1 & Hs & Hl & He & Hn).
  destruct (step_advance_due (scheduled c w) delay (step w (publish c)))
    as (w0 & -> & Hr0 & Hts0 & Hs0 & He0); auto.
  { rewrite Hn. simpl. lia. }
  pose proof (publishCallback_cases (scheduled c w) w0) as H.
  unfold commits, workingCopy. simpl in H.
  rewrite He0, He in H.
  destruct (buildParams _ _ _ _) as [[newParams|e] d]; simpl.
  - destruct H as (Hsink & Hlast & Hfirst & Hflag & Hto & Htimers & Henv & _).
    destruct Hready1 as [Hf1 Hg1].
    split; [rewrite Hsink, Hs0, Hs, Hr0, Hl; reflexivity|].
    split; [split; [rewrite Hfirst, Hr0; exact Hf1
                   | rewrite Hflag, Hr0; exact Hg1]|].
    split; [intros t Ht; rewrite Htimers, Hts0 in Ht; destruct Ht|].
    split; [exact Henv|].
    intros p Hp. injection Hp as <-. exact Hlast.
  - destruct Hready1 as [Hf1 Hg1]. rewrite <- Hr0 in Hf1, Hg1.
    rewrite H. rewrite app_nil_r.
    split; [cbn; congruence|].
    split; [split; cbn; assumption|].
    split; [intros t Ht; cbn in Ht; rewrite Hts0 in Ht; destruct Ht|].
    split; [cbn; congruence|].
    intros p Hp. discriminate Hp.
Qed.

End DebounceFacts.

(* ===================================================================== *)
(** * Invariants of runs *)
(* ===================================================================== *)

Section RunFacts.
Context {json : JSON.Engine}.

(** The parts of the world that the effects and callbacks may change,
    bounded from above: timers only disappear unless the second effect
    schedules one, and the logs only grow. *)

Lemma clearTimeout_proj (id : nat) (w : World) :
  (forall t, In t (timers (clearTimeout id w)) -> In t (timers w))
  /\ refs (clearTimeout id w) = refs w
  /\ setSearchParamsCalls (clearTimeout id w) = setSearchParamsCalls w
  /\ resetCalls (clearTimeout id w) = resetCalls w
  /\ NODE_ENV (clearTimeout id w) = NODE_ENV w.
Proof.
  unfold clearTimeout. cbn. repeat split; try reflexivity.
  intros t Ht. apply filter_In in Ht. tauto.
Qed.

Lemma publicationCleanup_proj (w : World) :
  (forall t, In t (timers (publicationCleanup w)) -> In t (timers w))
  /\ refs (publicationCleanup w) = refs w
  /\ setSearchParamsCalls (publicationCleanup w) = setSearchParamsCalls w
  /\ resetCalls (publicationCleanup w) = resetCalls w
  /\ NODE_ENV (publicationCleanup w) = NODE_ENV w.
Proof.
  unfold publicationCleanup.
  destruct (timeoutRef (refs w)); [apply clearTimeout_proj | tauto].
Qed.

(** The second effect: the logs are untouched, and a pending timer is an
    old one (kept because the effect returned early, or because
    [timeoutRef] did not point to it) or the one just created. *)
Lemma publish_proj (values : FormValues) (a : RouterAdapter) (o : Options)
    (w : World) :
  let w1 := step w (Publish values a o) in
  setSearchParamsCalls w1 = setSearchParamsCalls w
  /\ resetCalls w1 = resetCalls w
  /\ NODE_ENV w1 = NODE_ENV w
  /\ (forall t, In t (timers w1) ->
        (In t (timers w) /\ refs w1 = refs w)
        \/ (In t (timers w) /\ timeoutRef (refs w) <> Some (timer_id t))
        \/ (timer_options t = o /\ timer_values t = values
            /\ timer_adapter t = a
            /\ timeoutRef (refs w1) = Some (timer_id t))).
Proof.
  cbn [step]. cbv zeta.
  set (w0 := if cleanupRegistered w then publicationCleanup w else w).
  assert (H0 : (forall t, In t (timers w0) -> In t (timers w))
               /\ refs w0 = refs w
               /\ setSearchParamsCalls w0 = setSearchParamsCalls w
               /\ resetCalls w0 = resetCalls w
               /\ NODE_ENV w0 = NODE_ENV w).
  { unfold w0. destruct (cleanupRegistered w);
      [apply publicationCleanup_proj | tauto]. }
  clearbody w0. destruct H0 as (Ht0 & Hr0 & Hs0 & Hre0 & He0).
  unfold publicationEffect.
  destruct (isUpdatingFromUrlRef (refs w0) || firstRender (refs w0)).
  - cbn. rewrite Hs0, Hre0, He0, Hr0. repeat split; auto.
  - set (w1 := match timeoutRef (refs w0) with
               | Some id => clearTimeout id w0
               | None => w0
               end).
    assert (H1 : (forall t, In t (timers w1) ->
                    In t (timers w0)
                    /\ timeoutRef (refs w0) <> Some (timer_id t))
                 /\ setSearchParamsCalls w1 = setSearchParamsCalls w0
                 /\ resetCalls w1 = resetCalls w0
                 /\ NODE_ENV w1 = NODE_ENV w0).
    { unfold w1. destruct (timeoutRef (refs w0)) as [id|] eqn:Hid.
      - unfold clearTimeout. cbn. repeat split; try reflexivity.
        + apply filter_In in H. tauto.
        + apply filter_In in H. destruct H as [_ H].
          intros Heq. injection Heq as ->.
          now rewrite Nat.eqb_refl in H.
      - repeat split; auto. discriminate. }
    clearbody w1. destruct H1 as (Ht1 & Hs1 & Hre1 & He1).
    cbn. rewrite Hs1, Hs0, Hre1, Hre0, He1, He0.
    repeat split; try reflexivity.
    intros t Ht. apply in_app_iff in Ht as [Ht|[<-|[]]].
    + right. left. rewrite <- Hr0. split; [apply Ht0|]; apply Ht1, Ht.
    + right. right. cbn. repeat split; reflexivity.
Qed.

(** [timeoutRef] tracks the pending timers in every run. *)
Lemma fire_proj (w : World) (t : Timer) :
  (forall u, In u (timers (fire w t)) -> In u (timers w))
  /\ timeoutRef (refs (fire w t)) = timeoutRef (refs w)
  /\ resetCalls (fire w t) = resetCalls w
  /\ NODE_ENV (fire w t) = NODE_ENV w
  /\ (forall p, In p (setSearchParamsCalls (fire w t)) ->
        In p (setSearchParamsCalls w)
        \/ exists d,
             buildParams (NODE_ENV w) (excludeFields (timer_options t))
               (timer_values t) (searchParams (timer_adapter t))
             = (Normal p, d)).
Proof.
  unfold fire. destruct (existsb _ _); [|tauto].
  destruct (clearTimeout_proj (timer_id t) w) as (Hts & Hr & Hs & Hre & He).
  set (w0 := clearTimeout (timer_id t) w) in *. clearbody w0.
  pose proof (publishCallback_cases t w0) as H.
  pose proof (publishCallback_commit t w0) as Hc.
  rewrite He, Hs in Hc.
  destruct (buildParams _ _ _ _) as [[newParams|e] d].
  - destruct H as (_ & _ & _ & _ & Hto & Htimers & Henv & Hreset).
    rewrite Htimers, Hto, Henv, Hreset, Hr, Hre, He.
    repeat split; auto.
  - rewrite H in *. cbn in *. rewrite Hr, Hre, He. repeat split; auto.
Qed.

Lemma fold_fire_proj (due : list Timer) (w : World) :
  (forall u, In u (timers (fold_left fire due w)) -> In u (timers w))
  /\ timeoutRef (refs (fold_left fire due w)) = timeoutRef (refs w)
  /\ resetCalls (fold_left fire due w) = resetCalls w
  /\ NODE_ENV (fold_left fire due w) = NODE_ENV w
  /\ (forall p, In p (setSearchParamsCalls (fold_left fire due w)) ->
        In p (setSearchParamsCalls w)
        \/ exists t d,
             In t due
             /\ buildParams (NODE_ENV w) (excludeFields (timer_options t))
                  (timer_values t) (searchParams (timer_adapter t))
                = (Normal p, d)).
Proof.
  revert w. induction due as [|t due IH]; intros w; cbn [fold_left].
  - repeat split; auto.
  - destruct (IH (fire w t)) as (Ht & Hto & Hre & He & Hs).
    destruct (fire_proj w t) as (Ht' & Hto' & Hre' & He' & Hs').
    rewrite Hto, Hre, He, Hto', Hre', He'. repeat split; auto.
    intros p Hp. apply Hs in Hp as [Hp|(u & d & Hu & Hb)].
    + apply Hs' in Hp as [Hp|(d & Hb)]; [now left|].
      right. exists t, d. split; [now left | exact Hb].
    + right. exists u, d. split; [now right|]. now rewrite <- He'.
Qed.

Lemma In_insert_by_due (t u : Timer) (l : list Timer) :
  In u (insert_by_due t l) <-> u = t \/ In u l.
Proof.
  induction l as [|x l IH]; simpl; [intuition|].
  destruct (timer_due x <=? timer_due t)%nat; simpl; [rewrite IH|];
    intuition.
Qed.

Lemma In_sort_by_due (u : Timer) (l : list Timer) :
  In u (sort_by_due l) <-> In u l.
Proof.
  unfold sort_by_due.
  assert (H : forall acc, In u (fold_left (fun acc t => insert_by_due t acc) l acc)
                          <-> In u l \/ In u acc).
  { induction l as [|x l IH]; intros acc; simpl; [intuition|].
    rewrite IH, In_insert_by_due. intuition. }
  rewrite H. simpl. tauto.
Qed.

End RunFacts.

Section RunInvariants.
Context {json : JSON.Engine}.

Lemma runMicrotasks_proj (w : World) :
  timers (runMicrotasks w) = timers w
  /\ timeoutRef (refs (runMicrotasks w)) = timeoutRef (refs w)
  /\ setSearchParamsCalls (runMicrotasks w) = setSearchParamsCalls w
  /\ resetCalls (runMicrotasks w) = resetCalls w
  /\ NODE_ENV (runMicrotasks w) = NODE_ENV w.
Proof.
  unfold runMicrotasks. destruct (microtasks w); cbn; tauto.
Qed.

(** What one event may add to the logs and to the pending timers. *)
Lemma step_logs (ev : Event) (w : World) :
  let w1 := step w ev in
  NODE_ENV w1 = NODE_ENV w
  /\ (forall p, In p (setSearchParamsCalls w1) ->
        In p (setSearchParamsCalls w)
        \/ exists t d,
             In t (timers w)
             /\ buildParams (NODE_ENV w) (excludeFields (timer_options t))
                  (timer_values t) (searchParams (timer_adapter t))
                = (Normal p, d))
  /\ (forall r, In r (resetCalls w1) ->
        In r (resetCalls w)
        \/ exists excl a,
             ev = Hydrate excl a
             /\ restoreValues excl (searchParams a) = Normal r)
  /\ (forall t, In t (timers w1) ->
        In t (timers w)
        \/ exists v a o,
             ev = Publish v a o /\ timer_options t = o
             /\ timer_values t = v /\ timer_adapter t = a).
Proof.
  destruct ev as [excl a|v a o| |ms|].
  - cbn [step]. pose proof (hydrationEffect_cases excl a w) as H.
    cbv zeta in H.
    destruct (_ && _).
    + rewrite H. tauto.
    + destruct H
        as (restored & Hr & _ & _ & Hreset & _ & _ & Hs & Ht & _ & Henv).
      rewrite Hs, Ht, Hreset, Henv. repeat split; auto.
      intros r Hin. apply in_app_iff in Hin as [Hin|Hin]; [now left|].
      destruct (0 <? _)%nat; [|destruct Hin].
      destruct Hin as [<-|[]]. right. eauto.
  - destruct (publish_proj v a o w) as (Hs & Hre & He & Ht).
    cbv zeta. rewrite Hs, Hre, He. repeat split; auto.
    intros t Hin. apply Ht in Hin as [[Hin _]|[[Hin _]|(H1 & H2 & H3 & _)]];
      [now left | now left |].
    right. exists v, a, o. auto.
  - cbn [step]. destruct (runMicrotasks_proj w) as (Ht & _ & Hs & Hre & He).
    cbv zeta. rewrite Ht, Hs, Hre, He. repeat split; auto.
  - cbn [step]. cbv zeta.
    set (w0 := with_now (now (runMicrotasks w) + ms) (runMicrotasks w)).
    assert (H0 : timers w0 = timers w
                 /\ setSearchParamsCalls w0 = setSearchParamsCalls w
                 /\ resetCalls w0 = resetCalls w
                 /\ NODE_ENV w0 = NODE_ENV w).
    { destruct (runMicrotasks_proj w) as (Ht & _ & Hs & Hre & He).
      unfold w0. cbn. auto. }
    destruct H0 as (Ht & Hs & Hre & He).
    set (due := sort_by_due
                  (filter (fun t => (timer_due t <=? now w0)%nat) (timers w0))).
    destruct (fold_fire_proj due w0) as (Ht' & _ & Hre' & He' & Hs').
    assert (Hdue : forall t, In t due -> In t (timers w)).
    { intros t Hin. unfold due in Hin.
      apply (proj1 (In_sort_by_due _ _)) in Hin.
      apply filter_In in Hin. destruct Hin as [Hin _].
      now rewrite Ht in Hin. }
    clearbody due. clearbody w0.
    rewrite He', Hre', He, Hre. repeat split; auto.
    + intros p Hp. apply Hs' in Hp as [Hp|(t & d & Hin & Hb)].
      * left. now rewrite Hs in Hp.
      * right. exists t, d. split; [auto|]. now rewrite He in Hb.
    + intros t Hin. left. apply Ht' in Hin. now rewrite Ht in Hin.
  - cbn [step]. cbv zeta.
    set (w0 := if cleanupRegistered w then publicationCleanup w else w).
    assert (H0 : (forall t, In t (timers w0) -> In t (timers w))
                 /\ refs w0 = refs w
                 /\ setSearchParamsCalls w0 = setSearchParamsCalls w
                 /\ resetCalls w0 = resetCalls w
                 /\ NODE_ENV w0 = NODE_ENV w).
    { unfold w0. destruct (cleanupRegistered w);
        [apply publicationCleanup_proj | tauto]. }
    destruct H0 as (Ht & _ & Hs & Hre & He). cbn.
    rewrite Hs, Hre, He. repeat split; auto.
Qed.

(** [timeoutRef] points to every pending timer, whatever happens. *)
Lemma timers_tracked_step (ev : Event) (w : World) :
  timers_tracked w -> timers_tracked (step w ev).
Proof.
  intros Htr. destruct ev as [excl a|v a o| |ms|].
  - cbn [step]. pose proof (hydrationEffect_cases excl a w) as H.
    cbv zeta in H. destruct (_ && _); [now rewrite H|].
    destruct H as (restored & _ & _ & _ & _ & _ & _ & _ & Ht & Hto & _).
    intros t Hin. rewrite Ht in Hin. rewrite Hto. now apply Htr.
  - destruct (publish_proj v a o w) as (_ & _ & _ & Ht).
    intros t Hin. apply Ht in Hin as [[Hin ->]|[[Hin Hne]|(_ & _ & _ & H)]].
    + now apply Htr.
    + exfalso. apply Hne. now apply Htr.
    + exact H.
  - cbn [step]. destruct (runMicrotasks_proj w) as (Ht & Hto & _).
    intros t Hin. rewrite Ht in Hin. rewrite Hto. now apply Htr.
  - cbn [step]. cbv zeta.
    set (w0 := with_now (now (runMicrotasks w) + ms) (runMicrotasks w)).
    assert (H0 : timers w0 = timers w
                 /\ timeoutRef (refs w0) = timeoutRef (refs w)).
    { destruct (runMicrotasks_proj w) as (Ht & Hto & _).
      unfold w0. cbn. auto. }
    destruct H0 as (Ht & Hto).
    set (due := sort_by_due
                  (filter (fun t => (timer_due t <=? now w0)%nat) (timers w0))).
    destruct (fold_fire_proj due w0) as (Ht' & Hto' & _).
    clearbody due. clearbody w0.
    intros t Hin. rewrite Hto', Hto. apply Ht' in Hin.
    rewrite Ht in Hin. now apply Htr.
  - cbn [step]. cbv zeta.
    destruct (cleanupRegistered w).
    + destruct (publicationCleanup_proj w) as (Ht & Hr & _).
      intros t Hin. cbn in *. rewrite Hr. apply Htr, Ht, Hin.
    + intros t Hin. cbn in *. now apply Htr.
Qed.

Lemma timers_tracked_run (evs : list Event) (w : World) :
  timers_tracked w -> timers_tracked (run w evs).
Proof.
  revert w. induction evs as [|ev evs IH]; intros w Htr; [exact Htr|].
  apply IH, timers_tracked_step, Htr.
Qed.

(** At most one timer is pending in a run of the hook, when handles are
    not reused. *)
Lemma timers_tracked_initial (env : string) :
  timers_tracked (initialWorld env).
Proof. intros t []. Qed.

End RunInvariants.

(* ===================================================================== *)
(** * The synchronisation properties *)
(* ===================================================================== *)

Section SyncClaims.
Context {json : JSON.Engine}.
Import URLSearchParams ParamsFacts.

(** The state that the exclusion invariant maintains along a run. *)
Lemma exclusion_step (f : string) (excl : list string) (ev : Event)
    (w : World) :
  In f excl -> configured excl ev ->
  (forall t, In t (timers w) -> excludeFields (timer_options t) = excl) ->
  (forall p, In p (setSearchParamsCalls w) -> has f p = false) ->
  (forall r, In r (resetCalls w) -> ~ In f (Object_keys r)) ->
  (forall t, In t (timers (step w ev)) ->
             excludeFields (timer_options t) = excl)
  /\ (forall p, In p (setSearchParamsCalls (step w ev)) -> has f p = false)
  /\ (forall r, In r (resetCalls (step w ev)) -> ~ In f (Object_keys r)).
Proof.
  intros Hf Hev Ht Hs Hr.
  destruct (step_logs ev w) as (_ & Hs' & Hr' & Ht').
  split; [|split].
  - intros t Hin. apply Ht' in Hin as [Hin|(v & a & o & -> & <- & _)];
      [now apply Ht | exact Hev].
  - intros p Hin. apply Hs' in Hin as [Hin|(t & d & Hin & Hb)];
      [now apply Hs|].
    apply (buildParams_excluded _ _ _ _ _ _ f Hb).
    now rewrite (Ht t Hin).
  - intros r Hin. apply Hr' in Hin as [Hin|(e & a & -> & Hb)];
      [now apply Hr|].
    simpl in Hev. subst e.
    now apply (restoreValues_excluded _ _ _ f Hb).
Qed.

(** Exclusion, as far as it holds.  In every run of a hook instance
    configured with [excludeFields], from its mount on, no mapping handed
    to [setSearchParams] has an entry for an excluded field and no object
    handed to [reset] has an excluded field among its own keys, whatever
    the URL and the form contain.  What the object inherits is another
    matter. *)
Theorem exclusion_invariant (f : string) (excl : list string) (env : string)
    (evs : list Event) :
  In f excl ->
  Forall (configured excl) evs ->
  (forall p, In p (setSearchParamsCalls (run (initialWorld env) evs)) ->
             get f p = None)
  /\ (forall r, In r (resetCalls (run (initialWorld env) evs)) ->
                ~ In f (Object_keys r)).
Proof.
  intros Hf Hevs.
  assert (H : forall w,
    (forall t, In t (timers w) -> excludeFields (timer_options t) = excl) ->
    (forall p, In p (setSearchParamsCalls w) -> has f p = false) ->
    (forall r, In r (resetCalls w) -> ~ In f (Object_keys r)) ->
    (forall p, In p (setSearchParamsCalls (run w evs)) -> has f p = false)
    /\ (forall r, In r (resetCalls (run w evs)) -> ~ In f (Object_keys r))).
  { induction Hevs as [|ev evs Hev Hevs IH]; intros w Ht Hs Hr; [tauto|].
    destruct (exclusion_step f excl ev w Hf Hev Ht Hs Hr) as (Ht1 & Hs1 & Hr1).
    exact (IH _ Ht1 Hs1 Hr1). }
  destruct (H (initialWorld env)) as [Hs Hr]; try (intros ? []).
  split; [|exact Hr].
  intros p Hp. apply has_get, Hs, Hp.
Qed.

(** One publication cycle and one hydration cycle, taken alone. *)
Lemma exclusion_cycle (f : string) (excl : list string) :
  In f excl ->
  (forall env values current newParams d,
      buildParams env excl values current = (Normal newParams, d) ->
      get f newParams = None)
  /\ (forall params restored,
        restoreValues excl params = Normal restored ->
        ~ In f (Object_keys restored)).
Proof.
  intros Hf. split.
  - intros env values current newParams d H.
    apply has_get. exact (buildParams_excluded _ _ _ _ _ _ f H Hf).
  - intros params restored H. exact (restoreValues_excluded _ _ _ f H Hf).
Qed.

(** The [params.forEach] loop continued from an object [r0] over pairs none
    of which is called [__proto__]: the prototype slot stays as it is and
    every accepted pair leaves an own key. *)
Lemma restore_keeps_prototype (excl : list string)
    (rest : URLSearchParams.t) :
  Forall (fun e => fst e <> "__proto__") rest ->
  forall r0,
  exists r,
    fold_left
      (fun acc entry =>
         restoredValues <- acc ;;
         let '(key, value) := entry in
         if includes excl key then Normal restoredValues
         else if truthy_string value then
           parsed <- safeJsonParse value ;;
           Normal (assign key parsed restoredValues)
         else Normal restoredValues)
      rest (Normal r0) = Normal r
    /\ obj_proto r = obj_proto r0
    /\ (forall k, In k (Object_keys r0) -> In k (Object_keys r))
    /\ (forall key value,
          In (key, value) rest -> includes excl key = false ->
          value <> "" -> In key (Object_keys r)).
Proof.
  induction 1 as [|[key value] rest Hkey Hrest IH]; intros r0.
  - exists r0. repeat split; auto. intros key value [].
  - cbn [fold_left JS.bind]. simpl in Hkey.
    destruct (includes excl key) eqn:Hinc.
    + destruct (IH r0) as (r & Hr & Hp & Hk & Hnew).
      exists r. repeat split; auto.
      intros key' value' [Heq|Hin] Hinc' Hval; [|eauto].
      injection Heq as <- <-. congruence.
    + destruct (truthy_string value) eqn:Ht.
      * destruct (safeJsonParse_total value) as (parsed & ->).
        cbn [JS.bind].
        assert (Ha : assign key parsed r0
                     = {| obj_proto := obj_proto r0;
                          obj_props := define_own key parsed (obj_props r0) |}).
        { unfold assign.
          destruct (String.eqb_spec key "__proto__"); [contradiction|].
          reflexivity. }
        destruct (IH (assign key parsed r0)) as (r & Hr & Hp & Hk & Hnew).
        rewrite Ha in Hp, Hk. unfold Object_keys in Hk. simpl in Hp, Hk.
        exists r. split; [exact Hr|]. split; [exact Hp|]. split.
        -- intros k Hin. apply Hk, In_keys_define_own. now right.
        -- intros key' value' [Heq|Hin] Hinc' Hval; [|eauto].
           injection Heq as <- <-. apply Hk, In_keys_define_own. now left.
      * destruct (IH r0) as (r & Hr & Hp & Hk & Hnew).
        exists r. repeat split; auto.
        intros key' value' [Heq|Hin] Hinc' Hval; [|eauto].
        injection Heq as <- <-. unfold truthy_string in Ht.
        apply negb_false_iff, String.eqb_eq in Ht. contradiction.
Qed.

(** C1. The exclusion invariant fails for what [reset] receives.  The
    first effect assigns [restoredValues[key]] for every key of the query
    that is not excluded, the key [__proto__] among them, and on [{}]
    that assignment replaces the prototype.  So when the query is mounted
    with a [__proto__] parameter that decodes to an object holding the
    excluded field [f], next to any other restorable parameter, [reset] is
    handed an object that has no own key [f] and on which [f] reads the
    value from the URL. *)
Theorem exclusion_prototype_leak (f : string) (excl : list string)
    (env payload : string) (proto : Proto) (props : Props) (v : Value)
    (key value : string) (rest : URLSearchParams.t) :
  In f excl ->
  ~ In "__proto__" excl ->
  payload <> "" ->
  safeJsonParse payload = Normal (VObject proto props) ->
  get_own f props = Some v ->
  Forall (fun e => fst e <> "__proto__") rest ->
  In (key, value) rest -> ~ In key excl -> value <> "" ->
  exists r,
    resetCalls
      (run (initialWorld env)
         [Hydrate excl {| searchParams := ("__proto__", payload) :: rest |}])
    = [r]
    /\ ~ In f (Object_keys r)
    /\ obj_proto r = ProtoReplaced (VObject proto props)
    /\ read r f = Some v.
Proof.
  intros Hf Hproto Hpayload Hparse Hv Hrest Hin Hkey Hvalue.
  apply includes_false in Hproto. apply includes_false in Hkey.
  set (a := {| searchParams := ("__proto__", payload) :: rest |}).
  change (run (initialWorld env) [Hydrate excl a])
    with (hydrationEffect excl a (initialWorld env)).
  pose proof (hydrationEffect_cases excl a (initialWorld env)) as H.
  cbv zeta in H. cbn [initialWorld refs initialRefs firstRender negb andb] in H.
  destruct H as (r & Hr & _ & _ & Hreset & _).
  assert (Hloop : exists r',
    restoreValues excl (searchParams a) = Normal r'
    /\ obj_proto r' = ProtoReplaced (VObject proto props)
    /\ In key (Object_keys r')).
  { unfold restoreValues, a. cbn [searchParams fold_left JS.bind].
    rewrite Hproto.
    assert (Ht : truthy_string payload = true).
    { unfold truthy_string. apply negb_true_iff, String.eqb_neq, Hpayload. }
    rewrite Ht, Hparse. cbn [JS.bind].
    destruct (restore_keeps_prototype excl rest Hrest
                (assign "__proto__" (VObject proto props) empty_object))
      as (r' & Hr' & Hp & _ & Hnew).
    exists r'. split; [exact Hr'|]. split; [exact Hp|].
    exact (Hnew key value Hin Hkey Hvalue). }
  destruct Hloop as (r' & Hr' & Hp & Hown).
  rewrite Hr in Hr'. injection Hr' as <-.
  exists r. split; [|split; [|split]].
  - rewrite Hreset. cbn [initialWorld resetCalls app].
    destruct (Object_keys r) as [|k ks]; [destruct Hown | reflexivity].
  - exact (restoreValues_excluded _ _ _ f Hr Hf).
  - exact Hp.
  - unfold read. rewrite Hp. cbn [ownProperties].
    assert (Hnone : get_own f (obj_props r) = None).
    { apply has_own_false. destruct (has_own f (obj_props r)) eqn:Hhas;
        [|reflexivity].
      apply has_own_In in Hhas.
      exfalso. exact (restoreValues_excluded _ _ _ f Hr Hf Hhas). }
    now rewrite Hnone.
Qed.

Lemma filter_filter_sub {A} (P Q : A -> bool) (l : list A) :
  (forall x, P x = true -> Q x = true) ->
  filter P (filter Q l) = filter P l.
Proof.
  intros Hsub. induction l as [|x l IH]; simpl; [reflexivity|].
  destruct (Q x) eqn:HQ; simpl.
  - now rewrite IH.
  - destruct (P x) eqn:HP; [|exact IH].
    apply Hsub in HP. congruence.
Qed.

(** C8. Unrelated-parameter preservation.  A mapping that a timer callback
    commits is the callback's snapshot of the search params as far as
    the names are concerned that are neither excluded nor fields of the
    form: these pairs are all there, unchanged and in their order; in
    particular each such name has the values it had. *)
Theorem unrelated_params_preserved (t : Timer) (w : World)
    (p : URLSearchParams.t) (k : string) :
  In p (setSearchParamsCalls (publishCallback t w)) ->
  ~ In p (setSearchParamsCalls w) ->
  touched (excludeFields (timer_options t)) (timer_values t) k = false ->
  getAll k p = getAll k (searchParams (timer_adapter t))
  /\ filter (fun e => negb (touched (excludeFields (timer_options t))
                              (timer_values t) (fst e))) p
     = filter (fun e => negb (touched (excludeFields (timer_options t))
                                (timer_values t) (fst e)))
              (searchParams (timer_adapter t)).
Proof.
  intros Hin Hnew Hk.
  apply publishCallback_commit in Hin as [Hin|(d & Hb)]; [contradiction|].
  pose proof (buildParams_frame _ _ _ _ _ _ Hb) as Hframe.
  split; [|exact Hframe].
  unfold getAll. f_equal.
  rewrite <- (filter_filter_sub (fun e => String.eqb (fst e) k)
                (fun e => negb (touched (excludeFields (timer_options t))
                                  (timer_values t) (fst e))) p).
  - rewrite Hframe. apply filter_filter_sub.
    intros [k0 v0] H. simpl in *. apply String.eqb_eq in H. subst.
    now rewrite Hk.
  - intros [k0 v0] H. simpl in *. apply String.eqb_eq in H. subst.
    now rewrite Hk.
Qed.

(** C9 (as amended). Hydration compares strings.  After the first pass,
    a snapshot whose string form is the last known one leaves the world as
    it is.  Any other observation stores the snapshot's string form,
    builds the restored values and, when they have at least one key, hands
    them to [reset]; with no key there is no [reset] call. *)
Theorem hydration_change_detection (excl : list string) (a : RouterAdapter)
    (w : World) :
  (firstRender (refs w) = false ->
   searchParamsToString (searchParams a) = lastUrlParamsRef (refs w) ->
   hydrationEffect excl a w = w)
  /\ (firstRender (refs w) = true
      \/ searchParamsToString (searchParams a) <> lastUrlParamsRef (refs w) ->
      exists restored,
        restoreValues excl (searchParams a) = Normal restored
        /\ lastUrlParamsRef (refs (hydrationEffect excl a w))
           = searchParamsToString (searchParams a)
        /\ resetCalls (hydrationEffect excl a w) =
           (resetCalls w ++
            if (0 <? List.length (Object_keys restored))%nat
            then [restored] else [])%list
        /\ firstRender (refs (hydrationEffect excl a w)) = false).
Proof.
  pose proof (hydrationEffect_cases excl a w) as H. cbv zeta in H.
  split.
  - intros Hfirst Heq. rewrite Hfirst, Heq, String.eqb_refl in H. exact H.
  - intros Hcase.
    destruct (negb (firstRender (refs w))
              && String.eqb (searchParamsToString (searchParams a))
                            (lastUrlParamsRef (refs w))) eqn:Hc.
    + apply andb_prop in Hc as [H1 H2]. apply String.eqb_eq in H2.
      destruct (firstRender (refs w)); [discriminate H1|].
      destruct Hcase; [discriminate | contradiction].
    + destruct H as (restored & Hr & Hl & Hf & Hre & _).
      exists restored. auto.
Qed.


(** C6 (as amended). Debounce coalescing.  When the hook is ready and
    changes arrive one inside the window of the other, each change
    replaces the pending timer by its own, and once the delay of the last
    change has passed the sink has been called at most once: with the
    working copy built from the last snapshot, if its string form differs
    from the last known query string, and not at all otherwise.  The
    earlier snapshots are never published. *)
Theorem debounce_coalescing (changes : list (Change * nat)) (c : Change)
    (delay : nat) (w : World) :
  ready w -> timers_tracked w ->
  within_window changes ->
  debounce (change_options c) <= delay ->
  timers (run w (burst changes ++ [publish c])%list)
    = [scheduled c (run w (burst changes))]
  /\ setSearchParamsCalls
       (run w (burst changes ++ [publish c; Advance delay])%list)
     = (setSearchParamsCalls w ++ commits c w)%list
  /\ List.length (commits c w) <= 1.
Proof.
  intros Hready Htr Hwin Hdelay.
  destruct (burst_spec changes w Hready Htr Hwin)
    as (Hr1 & Htr1 & Hs1 & Hl1 & He1).
  unfold run in *. rewrite !fold_left_app.
  set (w1 := fold_left step (burst changes) w) in *.
  split; [|split].
  - apply (step_publish c w1 Hr1 Htr1).
  - destruct (window_close c delay w1 Hr1 Htr1 Hdelay) as (Hs & _).
    unfold run in Hs. rewrite Hs, Hs1. f_equal.
    unfold commits, workingCopy. now rewrite Hl1, He1.
  - unfold commits. destruct (workingCopy c w); [|simpl; lia].
    destruct (String.eqb _ _); simpl; lia.
Qed.

(** C7. Idempotence of publication.  After a cycle that built the working
    copy [newParams], a second cycle with the same form values, over the
    same snapshot or over the committed one, builds the same working copy,
    finds its string form equal to the last known query string and does
    not call the sink; the first cycle called it only if the string
    differed from the one known before. *)
Theorem publication_idempotent (c c' : Change) (delay delay' : nat)
    (w : World) (newParams : t) :
  ready w -> timers_tracked w ->
  NoDup (keys (entries (change_values c))) ->
  workingCopy c w = Normal newParams ->
  debounce (change_options c) <= delay ->
  debounce (change_options c') <= delay' ->
  change_values c' = change_values c ->
  change_options c' = change_options c ->
  searchParams (change_adapter c') = searchParams (change_adapter c)
  \/ searchParams (change_adapter c') = newParams ->
  let w1 := run w [publish c; Advance delay] in
  let w2 := run w1 [publish c'; Advance delay'] in
  setSearchParamsCalls w1 = (setSearchParamsCalls w ++ commits c w)%list
  /\ lastUrlParamsRef (refs w1) = searchParamsToString newParams
  /\ workingCopy c' w1 = Normal newParams
  /\ setSearchParamsCalls w2 = setSearchParamsCalls w1
  /\ lastUrlParamsRef (refs w2) = lastUrlParamsRef (refs w1).
Proof.
  intros Hready Htr Hnd Hcopy Hd Hd' Hv Ho Ha w1 w2.
  destruct (window_close c delay w Hready Htr Hd)
    as (Hs1 & Hr1 & Htr1 & He1 & Hl1).
  fold w1 in Hs1, Hr1, Htr1, He1, Hl1.
  specialize (Hl1 _ Hcopy).
  assert (Hcopy' : workingCopy c' w1 = Normal newParams).
  { unfold workingCopy in *. rewrite He1, Hv, Ho.
    destruct (buildParams (NODE_ENV w) (excludeFields (change_options c))
                (change_values c) (searchParams (change_adapter c)))
      as [r d] eqn:Hb.
    simpl in Hcopy. subst r.
    destruct Ha as [->| ->].
    - now rewrite Hb.
    - now rewrite (buildParams_idempotent _ _ _ _ _ _ Hnd Hb). }
  destruct (window_close c' delay' w1 Hr1 Htr1 Hd')
    as (Hs2 & _ & _ & _ & Hl2).
  fold w2 in Hs2, Hl2. specialize (Hl2 _ Hcopy').
  repeat split; auto.
  - rewrite Hs2. unfold commits. rewrite Hcopy', Hl1, String.eqb_refl.
    apply app_nil_r.
  - congruence.
Qed.

End SyncClaims.

(* ===================================================================== *)
(** * The model evaluated with the executable engine *)
(* ===================================================================== *)

Section Evaluation.
#[local] Existing Instance Engine.json.
Import URLSearchParams.

(** C5 (the code departs from it). [safeSerialize] converts an object that
    is neither an array nor tagged ["Object"] with [String(value)] outside
    any [try]: when that conversion throws, the exception leaves
    [safeSerialize], and the publication loop that called it stops without
    committing anything. *)
Theorem safeSerialize_unguarded_conversion :
  safeSerialize unprintable
  = (Throw (TypeError "Cannot convert object to primitive value"), [])
  /\ fst (buildParams "test" [] (Some [("when", unprintable)]) [])
     = Throw (TypeError "Cannot convert object to primitive value")
  /\ setSearchParamsCalls
       (run mounted
          [Publish (Some [("when", unprintable)]) empty_adapter defaultOptions;
           Advance 500])
     = [].
Proof. repeat split; vm_compute; reflexivity. Qed.

Lemma safeJsonParse_never_throws_witness :
  safeJsonParse "John" = Normal (VString "John")
  /\ safeJsonParse "{broken" = Normal (VString "{broken")
  /\ safeJsonParse "[1,2" = Normal (VString "[1,2")
  /\ exists v, safeJsonParse "" = Normal v.
Proof.
  destruct (safeJsonParse_never_throws "") as (H & _).
  repeat split; try (vm_compute; reflexivity). exact H.
Defined.

Lemma safeJsonParse_sanitizes_witness :
  JSON.parse pollution_payload
  = Normal (VObject ObjectPrototype
              [("__proto__", VObject ObjectPrototype [("isAdmin", VBool true)]);
               ("normalKey", VString "value")])
  /\ safeJsonParse pollution_payload
     = Normal (VObject ObjectPrototype [("normalKey", VString "value")])
  /\ exists sanitized,
       safeJsonParse pollution_payload
       = Normal (VObject ObjectPrototype sanitized)
       /\ NoDup (keys sanitized)
       /\ (forall k, get_own k sanitized =
                     if dangerous k then None
                     else get_own k
                            [("__proto__",
                              VObject ObjectPrototype [("isAdmin", VBool true)]);
                             ("normalKey", VString "value")])
       /\ (forall k, In k (keys sanitized) <->
                     In k ["__proto__"; "normalKey"] /\ dangerous k = false).
Proof.
  split; [vm_compute; reflexivity|].
  split; [vm_compute; reflexivity|].
  apply (safeJsonParse_sanitizes pollution_payload ObjectPrototype
           [("__proto__", VObject ObjectPrototype [("isAdmin", VBool true)]);
            ("normalKey", VString "value")]);
    vm_compute; reflexivity.
Defined.

(** The result of the sweep is an object literal: it inherits from
    [Object.prototype], it is not an object without a prototype. *)
Lemma safeJsonParse_prototype_counterexample :
  safeJsonParse pollution_payload
  = Normal (VObject ObjectPrototype [("normalKey", VString "value")])
  /\ (forall sanitized,
        safeJsonParse pollution_payload
        <> Normal (VObject NullPrototype sanitized)).
Proof.
  split; [vm_compute; reflexivity|].
  intros sanitized H.
  assert (Heq : safeJsonParse pollution_payload
                = Normal (VObject ObjectPrototype
                            [("normalKey", VString "value")]))
    by (vm_compute; reflexivity).
  rewrite Heq in H. discriminate H.
Qed.

Lemma decode_encode_roundtrip_witness :
  structured filters_record = true
  /\ json_representable filters_record
  /\ (isArray filters_record = false ->
      no_dangerous_keys filters_record = true)
  /\ decode_encode filters_record = Normal filters_record.
Proof.
  assert (Hrep : json_representable filters_record).
  { eexists. split; [vm_compute; reflexivity|]. vm_compute. reflexivity. }
  split; [reflexivity|]. split; [exact Hrep|].
  split; [reflexivity|].
  apply (decode_encode_roundtrip filters_record);
    [reflexivity | exact Hrep | reflexivity].
Defined.

(** A JSON-representable plain structure that does not survive the round
    trip: its member [constructor] is swept by the decoder. *)
Lemma decode_encode_counterexample :
  structured constructor_record = true
  /\ json_representable constructor_record
  /\ fst (safeSerialize constructor_record)
     = Normal (Some ("{" ++ q "constructor" ++ ":" ++ q "x" ++ "}"))
  /\ decode_encode constructor_record = Normal (VObject ObjectPrototype [])
  /\ decode_encode constructor_record <> Normal constructor_record.
Proof.
  split; [reflexivity|].
  split; [eexists; split; [vm_compute; reflexivity|];
          vm_compute; reflexivity|].
  split; [vm_compute; reflexivity|].
  assert (H : decode_encode constructor_record
              = Normal (VObject ObjectPrototype []))
    by (vm_compute; reflexivity).
  split; [exact H|]. rewrite H. discriminate.
Qed.


Lemma exclusion_invariant_witness :
  In "password" ["password"]
  /\ Forall (configured ["password"]) login_run
  /\ resetCalls (run (initialWorld "test") login_run)
     = [{| obj_proto := ProtoDefault;
           obj_props := [("name", VString "John")] |}]
  /\ setSearchParamsCalls (run (initialWorld "test") login_run)
     = [[("name", "Jane")]]
  /\ (forall p,
        In p (setSearchParamsCalls (run (initialWorld "test") login_run)) ->
        get "password" p = None)
  /\ (forall r,
        In r (resetCalls (run (initialWorld "test") login_run)) ->
        ~ In "password" (Object_keys r)).
Proof.
  assert (Hin : In "password" ["password"]) by (left; reflexivity).
  assert (Hconf : Forall (configured ["password"]) login_run)
    by (repeat constructor).
  split; [exact Hin|]. split; [exact Hconf|].
  split; [vm_compute; reflexivity|].
  split; [vm_compute; reflexivity|].
  exact (exclusion_invariant "password" ["password"] "test" login_run
           Hin Hconf).
Defined.

Lemma exclusion_prototype_leak_witness :
  In "password" ["password"]
  /\ ~ In "__proto__" ["password"]
  /\ resetCalls
       (run (initialWorld "test") [Hydrate ["password"] smuggling_adapter])
     = [{| obj_proto :=
             ProtoReplaced
               (VObject ObjectPrototype [("password", VString "secret123")]);
           obj_props := [("name", VString "John")] |}]
  /\ exists r,
       resetCalls
         (run (initialWorld "test") [Hydrate ["password"] smuggling_adapter])
       = [r]
       /\ ~ In "password" (Object_keys r)
       /\ obj_proto r
          = ProtoReplaced
              (VObject ObjectPrototype [("password", VString "secret123")])
       /\ read r "password" = Some (VString "secret123").
Proof.
  assert (Hin : In "password" ["password"]) by (left; reflexivity).
  assert (Hproto : ~ In "__proto__" ["password"])
    by (intros [H|[]]; discriminate H).
  split; [exact Hin|]. split; [exact Hproto|].
  split; [vm_compute; reflexivity|].
  refine (exclusion_prototype_leak "password" ["password"] "test"
            ("{" ++ q "password" ++ ":" ++ q "secret123" ++ "}")
            ObjectPrototype [("password", VString "secret123")]
            (VString "secret123") "name" "John" [("name", "John")]
            Hin Hproto _ _ _ _ _ _ _).
  - vm_compute. intros H; discriminate H.
  - vm_compute. reflexivity.
  - reflexivity.
  - constructor; [|constructor]. simpl. intros H; discriminate H.
  - left. reflexivity.
  - intros [H|[]]; discriminate H.
  - intros H; discriminate H.
Defined.

Lemma mounted_ready : ready mounted /\ timers_tracked mounted.
Proof. split; [split; reflexivity | intros t []]. Qed.

(** The debounce test: "a", "ab", "abc" typed 100 ms apart, then 500 ms
    of silence. *)
Lemma debounce_coalescing_witness :
  ready mounted /\ timers_tracked mounted
  /\ within_window [(typed "a", 100); (typed "ab", 100)]
  /\ debounce (change_options (typed "abc")) <= 500
  /\ setSearchParamsCalls
       (run mounted
          (burst [(typed "a", 100); (typed "ab", 100)]
           ++ [publish (typed "abc"); Advance 500])%list)
     = [[("search", "abc")]]
  /\ (timers
        (run mounted
           (burst [(typed "a", 100); (typed "ab", 100)]
            ++ [publish (typed "abc")])%list)
      = [scheduled (typed "abc")
           (run mounted (burst [(typed "a", 100); (typed "ab", 100)]))]
      /\ setSearchParamsCalls
           (run mounted
              (burst [(typed "a", 100); (typed "ab", 100)]
               ++ [publish (typed "abc"); Advance 500])%list)
         = (setSearchParamsCalls mounted ++ commits (typed "abc") mounted)%list
      /\ List.length (commits (typed "abc") mounted) <= 1).
Proof.
  destruct mounted_ready as [Hready Htr].
  assert (Hwin : within_window [(typed "a", 100); (typed "ab", 100)])
    by (repeat constructor; simpl; lia).
  assert (Hdelay : debounce (change_options (typed "abc")) <= 500)
    by (simpl; lia).
  split; [exact Hready|]. split; [exact Htr|].
  split; [exact Hwin|]. split; [exact Hdelay|].
  split; [vm_compute; reflexivity|].
  exact (debounce_coalescing [(typed "a", 100); (typed "ab", 100)]
           (typed "abc") 500 mounted Hready Htr Hwin Hdelay).
Defined.

(** Typing "a", then "ab", then clearing the field inside the window: the
    last snapshot gives the empty query string, which is the last known
    one, and the sink is not called at all. *)
Lemma debounce_exactly_once_counterexample :
  ready mounted /\ timers_tracked mounted
  /\ within_window [(typed "a", 100); (typed "ab", 100)]
  /\ debounce (change_options (typed "")) <= 500
  /\ setSearchParamsCalls mounted = []
  /\ setSearchParamsCalls
       (run mounted
          (burst [(typed "a", 100); (typed "ab", 100)]
           ++ [publish (typed ""); Advance 500])%list)
     = [].
Proof.
  destruct mounted_ready as [Hready Htr].
  split; [exact Hready|]. split; [exact Htr|].
  split; [repeat constructor; simpl; lia|].
  split; [simpl; lia|].
  split; vm_compute; reflexivity.
Qed.

(** The idempotence test: [name = John] published twice, 100 ms apart,
    the second time over the query that the first cycle committed. *)
Lemma publication_idempotent_witness :
  ready mounted /\ timers_tracked mounted
  /\ workingCopy (named "John" []) mounted = Normal [("name", "John")]
  /\ setSearchParamsCalls
       (run mounted [publish (named "John" []); Advance 100])
     = [[("name", "John")]]
  /\ (let w1 := run mounted [publish (named "John" []); Advance 100] in
      let w2 := run w1 [publish (named "John" [("name", "John")]);
                        Advance 100] in
      setSearchParamsCalls w1
      = (setSearchParamsCalls mounted
         ++ commits (named "John" []) mounted)%list
      /\ lastUrlParamsRef (refs w1)
         = searchParamsToString [("name", "John")]
      /\ workingCopy (named "John" [("name", "John")]) w1
         = Normal [("name", "John")]
      /\ setSearchParamsCalls w2 = setSearchParamsCalls w1
      /\ lastUrlParamsRef (refs w2) = lastUrlParamsRef (refs w1)).
Proof.
  destruct mounted_ready as [Hready Htr].
  assert (Hcopy : workingCopy (named "John" []) mounted
                  = Normal [("name", "John")])
    by (vm_compute; reflexivity).
  split; [exact Hready|]. split; [exact Htr|]. split; [exact Hcopy|].
  split; [vm_compute; reflexivity|].
  apply (publication_idempotent (named "John" [])
           (named "John" [("name", "John")]) 100 100 mounted
           [("name", "John")] Hready Htr).
  - simpl. constructor; [simpl; tauto | constructor].
  - exact Hcopy.
  - simpl; lia.
  - simpl; lia.
  - reflexivity.
  - reflexivity.
  - right. reflexivity.
Defined.

(** The preservation test: [name] changes from "a" to "abc" and the
    parameter [unrelated] stays. *)
Lemma unrelated_params_preserved_witness :
  setSearchParamsCalls
    (publishCallback rename_timer (synced "unrelated=value&name=a"))
  = [[("unrelated", "value"); ("name", "abc")]]
  /\ touched (excludeFields (timer_options rename_timer))
             (timer_values rename_timer) "unrelated" = false
  /\ getAll "unrelated" [("unrelated", "value"); ("name", "abc")]
     = getAll "unrelated" (searchParams (timer_adapter rename_timer))
  /\ filter (fun e => negb (touched (excludeFields (timer_options rename_timer))
                              (timer_values rename_timer) (fst e)))
            [("unrelated", "value"); ("name", "abc")]
     = filter (fun e => negb (touched (excludeFields (timer_options rename_timer))
                                (timer_values rename_timer) (fst e)))
              (searchParams (timer_adapter rename_timer)).
Proof.
  assert (Hcalls : setSearchParamsCalls
                     (publishCallback rename_timer
                        (synced "unrelated=value&name=a"))
                   = [[("unrelated", "value"); ("name", "abc")]])
    by (vm_compute; reflexivity).
  split; [exact Hcalls|]. split; [reflexivity|].
  apply (unrelated_params_preserved rename_timer
           (synced "unrelated=value&name=a")
           [("unrelated", "value"); ("name", "abc")] "unrelated").
  - rewrite Hcalls. left. reflexivity.
  - simpl. tauto.
  - reflexivity.
Defined.

(** Two observations after the first pass: the same query string again,
    and the same parameters in another order. *)
Lemma hydration_change_detection_witness :
  hydrationEffect [] {| searchParams := [("a", "1"); ("b", "2")] |}
    (synced "a=1&b=2")
  = synced "a=1&b=2"
  /\ searchParamsToString [("b", "2"); ("a", "1")] <> "a=1&b=2"
  /\ lastUrlParamsRef
       (refs (hydrationEffect [] {| searchParams := [("b", "2"); ("a", "1")] |}
                (synced "a=1&b=2")))
     = "b=2&a=1"
  /\ resetCalls
       (hydrationEffect [] {| searchParams := [("b", "2"); ("a", "1")] |}
          (synced "a=1&b=2"))
     = [{| obj_proto := ProtoDefault;
           obj_props := [("b", VNumber (number_of_Z 2));
                         ("a", VNumber (number_of_Z 1))] |}].
Proof.
  split.
  - apply (hydration_change_detection []
             {| searchParams := [("a", "1"); ("b", "2")] |}
             (synced "a=1&b=2")); reflexivity.
  - split; [vm_compute; discriminate|].
    split; vm_compute; reflexivity.
Defined.

(** After [?name=a] the query becomes empty: the string differs from the
    last known one, the pass runs, the restored values have no key and
    [reset] is not called. *)
Lemma hydration_apply_counterexample :
  firstRender (refs (synced "name=a")) = false
  /\ searchParamsToString (searchParams empty_adapter) <> "name=a"
  /\ restoreValues [] (searchParams empty_adapter) = Normal empty_object
  /\ lastUrlParamsRef (refs (hydrationEffect [] empty_adapter (synced "name=a")))
     = ""
  /\ resetCalls (synced "name=a") = []
  /\ resetCalls (hydrationEffect [] empty_adapter (synced "name=a")) = [].
Proof.
  split; [reflexivity|]. split; [vm_compute; discriminate|].
  repeat split; vm_compute; reflexivity.
Qed.

End Evaluation.

(* ===================================================================== *)
(** * Further properties of the publication loop *)
(* ===================================================================== *)

Section PublicationOutcome.
Context {json : JSON.Engine}.
Import URLSearchParams ParamsFacts.

(** Every update of a list on distinct names is settled once the whole
    list has been applied. *)
Lemma settled_all (us : list Update) (p : t) (u : Update) :
  NoDup (update_keys us) -> In u us ->
  settled u (fold_left apply_update us p).
Proof.
  revert p. induction us as [|u0 us IH]; intros p Hnd Hu; [destruct Hu|].
  rewrite update_keys_cons in Hnd. cbn [fold_left].
  destruct Hu as [<-|Hu].
  - apply settled_fold; [|apply settled_apply].
    intros (k & H1 & H2).
    revert H1 H2 Hnd. clear.
    induction (update_keys [u0]) as [|a l IHl]; intros H1 H2 Hnd;
      [destruct H1|].
    simpl in Hnd. inversion Hnd as [|? ? Ha Hrest]; subst.
    destruct H1 as [->|H1].
    + apply Ha, in_or_app. now right.
    + now apply IHl.
  - apply IH; [|exact Hu]. now apply NoDup_app_remove_l in Hnd.
Qed.

(** The update decided for an entry of the form is among the updates of
    the loop. *)
Lemma entryUpdates_In (env : string) (excl : list string) (entries : Props)
    (us : list Update) (d : list Diagnostic) (entry : string * Value) :
  entryUpdates env excl entries = (Normal us, d) ->
  In entry entries ->
  exists u, fst (entryUpdate env excl entry) = Normal u /\ In u us.
Proof.
  revert us d. induction entries as [|e rest IH]; intros us d H Hin;
    [destruct Hin|].
  cbn [entryUpdates] in H. unfold bindE at 1 in H.
  destruct (entryUpdate env excl e) as [[u|err] d1] eqn:Hu;
    [|discriminate H].
  unfold bindE, ret in H.
  destruct (entryUpdates env excl rest) as [[us'|err] d2] eqn:Hrest;
    [|discriminate H].
  injection H as <- _.
  destruct Hin as [->|Hin].
  - exists u. rewrite Hu. split; [reflexivity | now left].
  - destruct (IH us' d2 eq_refl Hin) as (u' & H1 & H2).
    exists u'. split; [exact H1 | now right].
Qed.

(** The pairs that a publication leaves for a field of the form. *)
Lemma field_outcome (env : string) (excl : list string) (values : FormValues)
    (current newParams : t) (d : list Diagnostic) (key : string)
    (value : Value) :
  buildParams env excl values current = (Normal newParams, d) ->
  NoDup (keys (entries values)) ->
  In (key, value) (entries values) ->
  includes excl key = false ->
  getAll key newParams =
  if is_empty_value value then []
  else match fst (safeSerialize value) with
       | Normal (Some s) => if truthy_string s then [s] else []
       | _ => []
       end.
Proof.
  intros Hb Hnd Hin Hinc.
  rewrite buildParams_updates in Hb. fold (entries values) in Hb.
  destruct (entryUpdates env excl (entries values)) as [[us|e] d'] eqn:Hus;
    [|discriminate Hb].
  injection Hb as <- _.
  destruct (entryUpdates_In _ _ _ _ _ (key, value) Hus Hin) as (u & Hu & Hinu).
  assert (Hnd' : NoDup (update_keys us)).
  { rewrite (update_keys_entryUpdates _ _ _ _ _ Hus). now apply NoDup_filter. }
  pose proof (settled_all us
                (fold_left (fun p field => delete field p) excl current)
                u Hnd' Hinu) as Hs.
  unfold entryUpdate in Hu. rewrite Hinc in Hu.
  unfold bindE, warn, ret in Hu.
  destruct (is_empty_value value).
  - simpl in Hu. injection Hu as <-. exact Hs.
  - destruct (safeSerialize value) as [[[s|]|e] d3]; simpl in Hu |- *.
    + destruct (truthy_string s); simpl in Hu; injection Hu as <-; exact Hs.
    + injection Hu as <-. exact Hs.
    + discriminate Hu.
Qed.

(** Empty-value removal: a field set to [null], [undefined] or the empty
    string has no pair in the working copy, whatever the URL held for
    it. *)
Theorem empty_value_removed (env : string) (excl : list string)
    (values : FormValues) (current newParams : t) (d : list Diagnostic)
    (key : string) (value : Value) :
  buildParams env excl values current = (Normal newParams, d) ->
  NoDup (keys (entries values)) ->
  In (key, value) (entries values) ->
  is_empty_value value = true ->
  get key newParams = None.
Proof.
  intros Hb Hnd Hin Hempty.
  apply has_get.
  destruct (includes excl key) eqn:Hinc.
  - apply includes_In in Hinc.
    exact (buildParams_excluded _ _ _ _ _ _ key Hb Hinc).
  - apply getAll_has.
    rewrite (field_outcome _ _ _ _ _ _ key value Hb Hnd Hin Hinc).
    now rewrite Hempty.
Qed.

(** A field that is not excluded, not empty and whose encoding is a
    non-empty string ends with exactly one pair, holding that encoding,
    however many pairs of that name the URL had. *)
Theorem field_published_once (env : string) (excl : list string)
    (values : FormValues) (current newParams : t) (d d' : list Diagnostic)
    (key s : string) (value : Value) :
  buildParams env excl values current = (Normal newParams, d) ->
  NoDup (keys (entries values)) ->
  In (key, value) (entries values) ->
  includes excl key = false ->
  is_empty_value value = false ->
  safeSerialize value = (Normal (Some s), d') ->
  s <> "" ->
  getAll key newParams = [s] /\ get key newParams = Some s.
Proof.
  intros Hb Hnd Hin Hinc Hempty Hser Hs.
  assert (Hall : getAll key newParams = [s]).
  { rewrite (field_outcome _ _ _ _ _ _ key value Hb Hnd Hin Hinc).
    rewrite Hempty, Hser. simpl. unfold truthy_string.
    destruct (String.eqb_spec s ""); [contradiction | reflexivity]. }
  split; [exact Hall|].
  clear -Hall. unfold getAll in Hall.
  induction newParams as [|[k0 v0] rest IH]; simpl in *; [discriminate|].
  destruct (String.eqb k0 key); simpl in Hall.
  - now injection Hall as ->.
  - now apply IH.
Qed.


(** The loop completes whenever every value of the form is printable. *)
Theorem buildParams_completes (env : string) (excl : list string)
    (values : FormValues) (current : t) :
  forallb (fun e => printable (snd e)) (entries values) = true ->
  exists newParams d,
    buildParams env excl values current = (Normal newParams, d).
Proof.
  intros Hp. rewrite buildParams_updates. fold (entries values).
  assert (H : exists us d,
             entryUpdates env excl (entries values) = (Normal us, d)).
  { induction (entries values) as [|[key value] rest IH].
    - exists [], []. reflexivity.
    - simpl in Hp. apply andb_prop in Hp as [Hv Hrest].
      destruct (IH Hrest) as (us & d & Hus).
      cbn [entryUpdates]. rewrite Hus.
      assert (Hu : exists u d1,
                 entryUpdate env excl (key, value) = (Normal u, d1)).
      { unfold entryUpdate. destruct (includes excl key); [eexists _, _; reflexivity|].
        unfold bindE, warn, ret.
        destruct (is_empty_value value); [eexists _, _; reflexivity|].
        pose proof (safeSerialize_cases value) as Hc.
        assert (Hn : exists r d2, safeSerialize value = (Normal r, d2)).
        { destruct value
            as [| |b|n|s0|z|sd|src|elems|proto props|tag str js];
            try solve [destruct Hc as (s & _ & ->); eauto];
            try solve [rewrite Hc; eauto];
            try solve [rewrite Hc; destruct (JSON.stringify _); eauto].
          simpl in Hv. destruct (String.eqb tag "Object").
          - rewrite Hc. destruct (JSON.stringify _); eauto.
          - rewrite Hc. destruct str; [eauto | discriminate Hv]. }
        destruct Hn as (r & d2 & ->). simpl.
        destruct r as [s|]; [destruct (truthy_string s)|];
          eexists _, _; reflexivity. }
      destruct Hu as (u & d1 & ->). unfold bindE, ret.
      eexists _, _. reflexivity. }
  destruct H as (us & d & ->). eauto.
Qed.

(** Diagnostics of [safeSerialize] are serialization warnings. *)
Lemma safeSerialize_diagnostics (value : Value) (k : string) :
  ~ In (WarnSensitiveField k) (snd (safeSerialize value)).
Proof.
  unfold safeSerialize.
  destruct (is_null value); [simpl; tauto|].
  destruct (negb (String.eqb (typeof value) "object")); [simpl; tauto|].
  destruct (isArray value).
  - destruct (JSON.stringify value); simpl; [tauto|].
    intros [H|[]]. discriminate H.
  - destruct (String.eqb (objectToString value) "[object Object]").
    + destruct (JSON.stringify value); simpl; [tauto|].
      intros [H|[]]. discriminate H.
    + simpl. tauto.
Qed.

Lemma warnIfSensitiveField_In (env fieldName k : string)
    (excl : list string) :
  In (WarnSensitiveField k) (warnIfSensitiveField env fieldName excl) ->
  k = fieldName /\ env = "development" /\ includes excl fieldName = false
  /\ existsb (fun pattern =>
                string_includes (toLowerCase fieldName) (toLowerCase pattern))
             SENSITIVE_FIELD_PATTERNS = true.
Proof.
  unfold warnIfSensitiveField.
  destruct (String.eqb_spec env "development") as [->|Hne]; cbn [negb];
    [|intros []].
  destruct (includes excl fieldName); [intros []|].
  match goal with
  | |- context [existsb ?f ?l] => destruct (existsb f l) eqn:He
  end; [|intros []].
  intros [H|[]]. injection H as <-. auto.
Qed.

Lemma entryUpdate_diagnostics (env : string) (excl : list string)
    (key k : string) (value : Value) :
  In (WarnSensitiveField k) (snd (entryUpdate env excl (key, value))) ->
  k = key /\ env = "development" /\ includes excl key = false
  /\ existsb (fun pattern =>
                string_includes (toLowerCase key) (toLowerCase pattern))
             SENSITIVE_FIELD_PATTERNS = true.
Proof.
  unfold entryUpdate.
  destruct (includes excl key) eqn:Hinc; [intros []|].
  unfold bindE, warn, ret.
  destruct (is_empty_value value).
  - simpl. rewrite app_nil_r. intros H.
    apply warnIfSensitiveField_In in H. rewrite Hinc in H. tauto.
  - pose proof (safeSerialize_diagnostics value k) as Hs.
    destruct (safeSerialize value) as [[[s|]|e] d]; simpl in *;
      try destruct (truthy_string s); simpl;
      rewrite ?app_nil_r; intros H; apply in_app_iff in H as [H|H];
      try contradiction;
      apply warnIfSensitiveField_In in H; rewrite Hinc in H; tauto.
Qed.

(** A sensitive-field warning for a name of ASCII characters is only ever
    written in development mode, for a field of the form that is not
    excluded and whose lower-cased name contains a lower-cased pattern. *)
Theorem sensitive_warning_sound (env : string) (excl : list string)
    (values : FormValues) (current : t) (k : string) :
  isASCII k = true ->
  In (WarnSensitiveField k) (snd (buildParams env excl values current)) ->
  env = "development"
  /\ In k (keys (entries values))
  /\ ~ In k excl
  /\ existsb (fun pattern =>
                string_includes (toLowerCase k) (toLowerCase pattern))
             SENSITIVE_FIELD_PATTERNS = true.
Proof.
  intros _.
  rewrite buildParams_updates. fold (entries values).
  assert (H : In (WarnSensitiveField k)
                 (snd (entryUpdates env excl (entries values))) ->
              env = "development"
              /\ In k (keys (entries values))
              /\ ~ In k excl
              /\ existsb (fun pattern =>
                   string_includes (toLowerCase k) (toLowerCase pattern))
                   SENSITIVE_FIELD_PATTERNS = true).
  { induction (entries values) as [|[key value] rest IH]; [intros []|].
    cbn [entryUpdates]. unfold bindE at 1.
    pose proof (entryUpdate_diagnostics env excl key k value) as Hd.
    destruct (entryUpdate env excl (key, value)) as [[u|e] d1].
    - unfold bindE, ret.
      destruct (entryUpdates env excl rest) as [[us|e] d2]; simpl in *;
        rewrite ?app_nil_r; intros H; apply in_app_iff in H as [H|H].
      + destruct (Hd H) as (-> & He & Hi & Hp).
        apply includes_false in Hi. auto.
      + destruct (IH H) as (He & Hk & Hx & Hp). auto.
      + destruct (Hd H) as (-> & He & Hi & Hp).
        apply includes_false in Hi. auto.
      + destruct (IH H) as (He & Hk & Hx & Hp). auto.
    - simpl in *. intros H. destruct (Hd H) as (-> & He & Hi & Hp).
      apply includes_false in Hi. auto. }
  destruct (entryUpdates env excl (entries values)) as [[us|e] d]; exact H.
Qed.

End PublicationOutcome.

(* ===================================================================== *)
(** * Further properties of the codec and of hydration *)
(* ===================================================================== *)

Section CodecOutcome.
Context {json : JSON.Engine}.

(** Whatever the input, a plain structure returned by [safeJsonParse] has
    no own top-level key named [__proto__], [constructor] or
    [prototype]. *)
Theorem safeJsonParse_result_clean (value : string) (proto : Proto)
    (props : Props) :
  safeJsonParse value = Normal (VObject proto props) ->
  forall key, In key (keys props) -> dangerous key = false.
Proof.
  intros Hres.
  pose proof (safeJsonParse_cases value) as H.
  destruct (JSON.parse value) as [parsed|e]; [|congruence].
  destruct (non_plain_object parsed); [congruence|].
  destruct (structured parsed && negb (isArray parsed)
            && negb (no_dangerous_keys parsed)) eqn:Hc.
  - rewrite H in Hres. injection Hres as <- <-.
    intros key Hin. apply has_own_In in Hin. unfold has_own in Hin.
    rewrite get_own_sanitize in Hin.
    destruct (dangerous key); [discriminate Hin | reflexivity].
  - rewrite H in Hres. injection Hres as ->.
    simpl in Hc. apply negb_false_iff in Hc.
    unfold no_dangerous_keys in Hc. simpl in Hc.
    rewrite forallb_forall in Hc.
    intros key Hin. apply Hc in Hin. now apply negb_true_iff in Hin.
Qed.

(** The sweep is shallow and touches plain structures only: a primitive,
    an array (whatever it contains) and a plain structure without a
    denylisted own key are returned exactly as [JSON.parse] built them. *)
Theorem safeJsonParse_passes_through (value : string) (parsed : Value) :
  JSON.parse value = Normal parsed ->
  non_plain_object parsed = false ->
  isArray parsed = true \/ no_dangerous_keys parsed = true ->
  safeJsonParse value = Normal parsed.
Proof.
  intros Hparse Hnp Hcase.
  pose proof (safeJsonParse_cases value) as H.
  rewrite Hparse, Hnp in H.
  destruct Hcase as [Ha|Hd].
  - rewrite Ha in H. simpl in H. now rewrite andb_false_r in H.
  - rewrite Hd in H. simpl in H. now rewrite andb_false_r in H.
Qed.

(** On every printable value [safeSerialize] returns normally, and what it
    writes is decided by [JSON.stringify]: for an array or an object
    tagged ["Object"] on which [JSON.stringify] throws, the result is the
    empty string and the console gets one warning, of the array or of the
    object kind, carrying the error; in every other case nothing is
    written, and a value handed to [JSON.stringify] yields what it
    returned. *)
Theorem safeSerialize_printable (value : Value) :
  printable value = true ->
  exists r d,
    safeSerialize value = (Normal r, d)
    /\ if stringified value then
         match JSON.stringify value with
         | Throw error =>
             r = Some ""
             /\ d = [if isArray value then WarnSerializeArray error
                     else WarnSerializeObject error]
         | Normal s => r = s /\ d = []
         end
       else d = [].
Proof.
  intros Hp. pose proof (safeSerialize_cases value) as Hc.
  destruct value as [| |b|n|s0|z|sd|src|elems|proto props|tag str js];
    cbn [stringified isArray];
    try solve [destruct Hc as (s & _ & ->); exists (Some s), []; auto];
    try solve [rewrite Hc; exists (Some ""), []; auto].
  - rewrite Hc. destruct (JSON.stringify (VArray elems)) as [s|error].
    + exists s, []. auto.
    + exists (Some ""), [WarnSerializeArray error]. auto.
  - rewrite Hc. destruct (JSON.stringify (VObject proto props)) as [s|error].
    + exists s, []. auto.
    + exists (Some ""), [WarnSerializeObject error]. auto.
  - simpl in Hp. destruct (String.eqb tag "Object").
    + rewrite Hc. destruct (JSON.stringify (VHost tag str js)) as [s|error].
      * exists s, []. auto.
      * exists (Some ""), [WarnSerializeObject error]. auto.
    + destruct str as [s|]; [|destruct js; discriminate Hp].
      rewrite Hc. exists (Some s), []. auto.
Qed.

Lemma toLowerCase_app (a b : string) :
  toLowerCase (a ++ b) = toLowerCase a ++ toLowerCase b.
Proof. induction a as [|c a IH]; simpl; [reflexivity | now rewrite IH]. Qed.

Lemma prefix_app (p s : string) : prefix p (p ++ s) = true.
Proof.
  induction p as [|c p IH]; simpl; [now destruct s|].
  now rewrite Ascii.eqb_refl || (destruct (ascii_dec c c); [exact IH | congruence]).
Qed.

Lemma string_includes_prefix (s p : string) :
  prefix p s = true -> string_includes s p = true.
Proof. intros H. destruct s; cbn [string_includes]; now rewrite H. Qed.

Lemma string_includes_app (a p b : string) :
  string_includes (a ++ p ++ b) p = true.
Proof.
  induction a as [|c a IH].
  - change ("" ++ p ++ b) with (p ++ b).
    apply string_includes_prefix, prefix_app.
  - cbn [append string_includes]. rewrite IH. apply orb_true_r.
Qed.

(** The sensitive-name check is a case-insensitive substring match: in
    development, a field that is not excluded and whose name contains,
    in any letter case, one of the patterns gets exactly one warning,
    naming the field. *)
Theorem sensitive_match_ignores_case (before word after pattern : string)
    (excl : list string) :
  In pattern SENSITIVE_FIELD_PATTERNS ->
  toLowerCase word = toLowerCase pattern ->
  includes excl (before ++ word ++ after) = false ->
  warnIfSensitiveField "development" (before ++ word ++ after) excl
  = [WarnSensitiveField (before ++ word ++ after)].
Proof.
  intros Hin Hword Hinc. unfold warnIfSensitiveField.
  rewrite Hinc. cbn [String.eqb negb].
  replace (negb ("development" =? "development")) with false
    by (now rewrite String.eqb_refl).
  assert (He : existsb
                 (fun p => string_includes
                             (toLowerCase (before ++ word ++ after))
                             (toLowerCase p))
                 SENSITIVE_FIELD_PATTERNS = true).
  { apply existsb_exists. exists pattern. split; [exact Hin|].
    rewrite !toLowerCase_app, Hword. apply string_includes_app. }
  now rewrite He.
Qed.

End CodecOutcome.

Section HydrationOutcome.
Context {json : JSON.Engine}.

(** Hydration reads neither the excluded names nor the pairs whose value
    is empty: the restored values are those of the query without them. *)
Theorem restoreValues_ignores (excl : list string)
    (params : URLSearchParams.t) :
  restoreValues excl params =
  restoreValues excl
    (filter (fun e => negb (includes excl (fst e)) && truthy_string (snd e))
            params).
Proof.
  unfold restoreValues. generalize (Normal empty_object).
  induction params as [|[key value] rest IH]; intros acc; [reflexivity|].
  cbn [fold_left filter fst snd].
  destruct (includes excl key) eqn:Hinc; cbn [negb andb].
  - rewrite <- IH. f_equal. destruct acc; reflexivity.
  - destruct (truthy_string value) eqn:Ht.
    + cbn [fold_left]. rewrite Hinc, Ht. apply IH.
    + rewrite <- IH. f_equal. destruct acc; reflexivity.
Qed.

Lemma last_value_snoc (key k v : string) (params : URLSearchParams.t) :
  last_value key (params ++ [(k, v)])%list =
  if String.eqb k key && truthy_string v then Some v
  else last_value key params.
Proof. unfold last_value. now rewrite fold_left_app. Qed.

(** What hydration stores for a name: the decoding of the last non-empty
    value that the query gives it, and nothing when there is none. *)
Theorem restoreValues_lookup (excl : list string)
    (params : URLSearchParams.t) (key : string) :
  includes excl key = false ->
  key <> "__proto__" ->
  exists restored,
    restoreValues excl params = Normal restored
    /\ match last_value key params with
       | Some value =>
           exists parsed, safeJsonParse value = Normal parsed
                          /\ get_own key (obj_props restored) = Some parsed
       | None => get_own key (obj_props restored) = None
       end.
Proof.
  intros Hinc Hkey.
  induction params as [|[k v] params IH] using rev_ind.
  - exists empty_object. split; reflexivity.
  - destruct IH as (r & Hr & Hlook).
    rewrite restoreValues_snoc, Hr, last_value_snoc. simpl.
    destruct (includes excl k) eqn:Hk.
    + exists r. split; [reflexivity|].
      destruct (String.eqb_spec k key) as [->|Hne]; [congruence|].
      exact Hlook.
    + destruct (truthy_string v) eqn:Ht.
      * destruct (safeJsonParse_total v) as (parsed & Hp). rewrite Hp. simpl.
        exists (assign k parsed r). split; [reflexivity|].
        destruct (String.eqb_spec k key) as [->|Hne]; simpl.
        -- exists parsed. split; [exact Hp|].
           unfold assign.
           destruct (String.eqb_spec key "__proto__"); [contradiction|].
           simpl. now rewrite get_own_define_own, String.eqb_refl.
        -- assert (Hsame : get_own key (obj_props (assign k parsed r))
                           = get_own key (obj_props r)).
           { unfold assign.
             destruct (String.eqb k "__proto__"
                       && reaches_Object_prototype (obj_proto r)).
             - destruct (is_object_or_null parsed); reflexivity.
             - simpl. rewrite get_own_define_own.
               destruct (String.eqb_spec k key); [contradiction | reflexivity]. }
           rewrite Hsame. exact Hlook.
      * exists r. split; [reflexivity|]. rewrite andb_false_r. exact Hlook.
Qed.

End HydrationOutcome.

(* ===================================================================== *)
(** * Further properties of the effects *)
(* ===================================================================== *)

Section WorldOutcome.
Context {json : JSON.Engine}.

Ltac break_world w :=
  let r := fresh "r" in
  destruct w as [r ? ? ? ? ? ? ? ? ? ?]; destruct r; simpl in *.

(** The console after a timer callback whose loop completed. *)
Lemma publishCallback_console (t : Timer) (w : World)
    (newParams : URLSearchParams.t) (d : list Diagnostic) :
  buildParams (NODE_ENV w) (excludeFields (timer_options t))
    (timer_values t) (searchParams (timer_adapter t)) = (Normal newParams, d) ->
  console (publishCallback t w) =
  (console w ++ d ++
   if (maxUrlLength (timer_options t)
       <? String.length (URLSearchParams.toString newParams))%nat
   then [WarnUrlLength (String.length (URLSearchParams.toString newParams))
           (maxUrlLength (timer_options t))]
   else [])%list.
Proof.
  intros Hb. unfold publishCallback. rewrite Hb.
  unfold searchParamsToString.
  destruct (maxUrlLength (timer_options t)
            <? String.length (URLSearchParams.toString newParams))%nat;
    break_world w;
    destruct (String.eqb (URLSearchParams.toString newParams)
                lastUrlParamsRef0); simpl;
    rewrite ?app_nil_r, <- ?app_assoc; reflexivity.
Qed.

(** The length limit is advisory.  A working copy longer than
    [maxUrlLength] adds one warning with both lengths to the console, a
    shorter one adds none, and in both cases the copy is committed under
    the same condition: its string differs from the last known one. *)
Theorem url_length_advisory (t : Timer) (w : World)
    (newParams : URLSearchParams.t) (d : list Diagnostic) :
  buildParams (NODE_ENV w) (excludeFields (timer_options t))
    (timer_values t) (searchParams (timer_adapter t)) = (Normal newParams, d) ->
  let text := URLSearchParams.toString newParams in
  console (publishCallback t w) =
    (console w ++ d ++
     if (maxUrlLength (timer_options t) <? String.length text)%nat
     then [WarnUrlLength (String.length text) (maxUrlLength (timer_options t))]
     else [])%list
  /\ setSearchParamsCalls (publishCallback t w) =
     (setSearchParamsCalls w ++
      if String.eqb text (lastUrlParamsRef (refs w))
      then [] else [newParams])%list.
Proof.
  intros Hb text. split; [now apply publishCallback_console|].
  pose proof (publishCallback_cases t w) as H. rewrite Hb in H.
  apply H.
Qed.

(** A URL that the hook itself committed is not read back: when the
    router hands the committed mapping to the first effect, after the
    first pass, the effect leaves the world as it is (no [reset]). *)
Theorem own_commit_not_rehydrated (excl : list string) (t : Timer)
    (w : World) (newParams : URLSearchParams.t) (d : list Diagnostic) :
  firstRender (refs w) = false ->
  buildParams (NODE_ENV w) (excludeFields (timer_options t))
    (timer_values t) (searchParams (timer_adapter t)) = (Normal newParams, d) ->
  hydrationEffect excl {| searchParams := newParams |} (publishCallback t w)
  = publishCallback t w.
Proof.
  intros Hfirst Hb.
  pose proof (publishCallback_cases t w) as H. rewrite Hb in H.
  destruct H as (_ & Hlast & Hf & _).
  pose proof (hydrationEffect_cases excl {| searchParams := newParams |}
                (publishCallback t w)) as Hh.
  cbv zeta in Hh. simpl searchParams in Hh.
  now rewrite Hf, Hfirst, Hlast, String.eqb_refl in Hh.
Qed.

(** ** Projections on [cleanupRegistered] *)

Lemma hydrationEffect_cleanup (excl : list string) (a : RouterAdapter)
    (w : World) :
  cleanupRegistered (hydrationEffect excl a w) = cleanupRegistered w.
Proof.
  unfold hydrationEffect.
  destruct (negb (firstRender (refs w)) && _); [reflexivity|].
  destruct (restoreValues excl (searchParams a)); [|reflexivity].
  destruct (0 <? _)%nat; break_world w; destruct firstRender0; reflexivity.
Qed.

Lemma publishCallback_cleanup (t : Timer) (w : World) :
  cleanupRegistered (publishCallback t w) = cleanupRegistered w.
Proof.
  unfold publishCallback.
  destruct (buildParams _ _ _ _) as [[newParams|e] d]; [|reflexivity].
  destruct (_ <? _)%nat; break_world w;
    destruct (negb _); reflexivity.
Qed.

Lemma fire_shrinks (w : World) (t : Timer) :
  cleanupRegistered (fire w t) = cleanupRegistered w
  /\ exists keep, timers (fire w t) = filter keep (timers w).
Proof.
  unfold fire. destruct (existsb _ _).
  - rewrite publishCallback_cleanup. split; [reflexivity|].
    pose proof (publishCallback_cases t (clearTimeout (timer_id t) w)) as H.
    destruct (buildParams _ _ _ _) as [[newParams|e] d].
    + destruct H as (_ & _ & _ & _ & _ & -> & _). eexists. reflexivity.
    + rewrite H. eexists. reflexivity.
  - split; [reflexivity|]. exists (fun _ => true).
    clear. induction (timers w) as [|x l IH]; simpl; congruence.
Qed.

Lemma filter_length_le {A} (f : A -> bool) (l : list A) :
  List.length (filter f l) <= List.length l.
Proof.
  induction l as [|x l IH]; simpl; [lia|]. destruct (f x); simpl; lia.
Qed.

Lemma fold_fire_shrinks (due : list Timer) (w : World) :
  cleanupRegistered (fold_left fire due w) = cleanupRegistered w
  /\ List.length (timers (fold_left fire due w)) <= List.length (timers w)
  /\ (timers w = [] -> fold_left fire due w = w).
Proof.
  revert w. induction due as [|t due IH]; intros w; cbn [fold_left].
  - repeat split; auto.
  - destruct (IH (fire w t)) as (Hc & Hl & He).
    destruct (fire_shrinks w t) as (Hc' & keep & Hk).
    rewrite Hc, Hc'. split; [reflexivity|]. split.
    + rewrite Hk in Hl. pose proof (filter_length_le keep (timers w)). lia.
    + intros Hnil.
      assert (Hf : fire w t = w) by (unfold fire; now rewrite Hnil).
      rewrite Hf in *. now apply He.
Qed.

(** What an [Advance] leaves of the timers, and that it fires nothing when
    none is pending. *)
Lemma advance_shrinks (ms : nat) (w : World) :
  cleanupRegistered (step w (Advance ms)) = cleanupRegistered w
  /\ List.length (timers (step w (Advance ms))) <= List.length (timers w)
  /\ (timers w = [] ->
      setSearchParamsCalls (step w (Advance ms)) = setSearchParamsCalls w
      /\ timers (step w (Advance ms)) = []
      /\ firstRender (refs (step w (Advance ms))) = firstRender (refs w)).
Proof.
  cbn [step]. cbv zeta.
  set (w0 := with_now (now (runMicrotasks w) + ms) (runMicrotasks w)).
  assert (H0 : timers w0 = timers w
               /\ cleanupRegistered w0 = cleanupRegistered w
               /\ setSearchParamsCalls w0 = setSearchParamsCalls w
               /\ firstRender (refs w0) = firstRender (refs w)).
  { unfold w0, runMicrotasks. destruct (microtasks w); cbn; auto. }
  destruct H0 as (Ht & Hc & Hs & Hf).
  set (due := sort_by_due
                (filter (fun t => (timer_due t <=? now w0)%nat) (timers w0))).
  destruct (fold_fire_shrinks due w0) as (Hc' & Hl & He).
  clearbody due. clearbody w0.
  rewrite Hc', Hc. split; [reflexivity|]. split; [now rewrite <- Ht|].
  intros Hnil. rewrite He by congruence. rewrite Hs, Ht, Hf. auto.
Qed.

(** A cleanup leaves no timer pending in a world where [timeoutRef]
    tracks the timers. *)
Lemma cleanup_clears (w : World) :
  timers_tracked w -> timers (publicationCleanup w) = [].
Proof.
  intros Htr. unfold publicationCleanup.
  destruct (timeoutRef (refs w)) as [id|] eqn:Hid.
  - cbn. now apply clear_tracked.
  - now apply untracked_empty.
Qed.

Lemma covered_cleanup (w : World) :
  timers_tracked w -> cleanup_covers w ->
  timers (if cleanupRegistered w then publicationCleanup w else w) = [].
Proof.
  intros Htr [Hnil|Hreg].
  - destruct (cleanupRegistered w); [now apply cleanup_clears | exact Hnil].
  - rewrite Hreg. now apply cleanup_clears.
Qed.

(** Whenever a timer is pending, the second effect has a cleanup
    registered that will cancel it. *)
Lemma cleanup_covers_step (ev : Event) (w : World) :
  timers_tracked w -> cleanup_covers w -> cleanup_covers (step w ev).
Proof.
  intros Htr Hcov. destruct ev as [excl a|v a o| |ms|].
  - cbn [step]. unfold cleanup_covers. rewrite hydrationEffect_cleanup.
    pose proof (hydrationEffect_cases excl a w) as H. cbv zeta in H.
    destruct (_ && _); [now rewrite H|].
    destruct H as (restored & _ & _ & _ & _ & _ & _ & _ & -> & _).
    exact Hcov.
  - pose proof (covered_cleanup w Htr Hcov) as Hnil.
    cbn [step]. cbv zeta.
    set (w0 := if cleanupRegistered w then publicationCleanup w else w) in *.
    clearbody w0. unfold publicationEffect.
    destruct (isUpdatingFromUrlRef (refs w0) || firstRender (refs w0)).
    + left. exact Hnil.
    + right. destruct (timeoutRef (refs w0)); reflexivity.
  - cbn [step]. unfold cleanup_covers, runMicrotasks.
    destruct (microtasks w); exact Hcov.
  - destruct (advance_shrinks ms w) as (Hc & Hl & He).
    unfold cleanup_covers. rewrite Hc.
    destruct Hcov as [Hnil|Hreg]; [left; now apply He | now right].
  - left. pose proof (covered_cleanup w Htr Hcov) as Hnil.
    cbn [step]. cbv zeta. exact Hnil.
Qed.

Lemma run_invariants (evs : list Event) (w : World) :
  timers_tracked w -> cleanup_covers w ->
  List.length (timers w) <= 1 ->
  timers_tracked (run w evs) /\ cleanup_covers (run w evs)
  /\ List.length (timers (run w evs)) <= 1.
Proof.
  revert w. induction evs as [|ev evs IH]; intros w Htr Hcov Hlen;
    [auto|].
  apply IH.
  - now apply timers_tracked_step.
  - now apply cleanup_covers_step.
  - destruct ev as [excl a|v a o| |ms|].
    + cbn [step].
      pose proof (hydrationEffect_cases excl a w) as H. cbv zeta in H.
      destruct (_ && _); [now rewrite H|].
      destruct H as (restored & _ & _ & _ & _ & _ & _ & _ & -> & _).
      exact Hlen.
    + pose proof (covered_cleanup w Htr Hcov) as Hnil.
      cbn [step]. cbv zeta.
      set (w0 := if cleanupRegistered w then publicationCleanup w else w) in *.
      clearbody w0. unfold publicationEffect.
      destruct (isUpdatingFromUrlRef (refs w0) || firstRender (refs w0)).
      * cbn. rewrite Hnil. simpl. lia.
      * destruct (timeoutRef (refs w0)); cbn; rewrite Hnil; simpl; lia.
    + cbn [step]. unfold runMicrotasks. destruct (microtasks w); exact Hlen.
    + destruct (advance_shrinks ms w) as (_ & Hl & _). lia.
    + pose proof (covered_cleanup w Htr Hcov) as Hnil.
      cbn [step]. cbv zeta. cbn. rewrite Hnil. simpl. lia.
Qed.

(** At most one debounce timer is pending, at every point of every run of
    a hook instance. *)
Theorem at_most_one_pending_timer (env : string) (evs : list Event) :
  List.length (timers (run (initialWorld env) evs)) <= 1.
Proof.
  apply run_invariants.
  - intros t [].
  - now left.
  - simpl. lia.
Qed.

End WorldOutcome.

Section GuardOutcome.
Context {json : JSON.Engine}.

Ltac break_world w :=
  let r := fresh "r" in
  destruct w as [r ? ? ? ? ? ? ? ? ? ?]; destruct r; simpl in *.

(** With no timer pending, passing time calls nothing. *)
Lemma passive_run (evs : list Event) (w : World) :
  timers w = [] -> Forall passive evs ->
  setSearchParamsCalls (run w evs) = setSearchParamsCalls w
  /\ timers (run w evs) = [].
Proof.
  revert w. induction evs as [|ev evs IH]; intros w Hnil Hp; [auto|].
  inversion Hp as [|? ? Hev Hrest]; subst.
  destruct ev as [excl a|v a o| |ms|]; try destruct Hev.
  - change (run w (Microtasks :: evs)) with (run (runMicrotasks w) evs).
    assert (H : timers (runMicrotasks w) = []
                /\ setSearchParamsCalls (runMicrotasks w)
                   = setSearchParamsCalls w).
    { unfold runMicrotasks. destruct (microtasks w); cbn; auto. }
    destruct H as (Ht & Hs).
    destruct (IH _ Ht Hrest) as (Hs' & Ht'). rewrite Hs', Hs. auto.
  - change (run w (Advance ms :: evs)) with (run (step w (Advance ms)) evs).
    destruct (advance_shrinks ms w) as (_ & _ & He).
    destruct (He Hnil) as (Hs & Ht & _).
    destruct (IH _ Ht Hrest) as (Hs' & Ht'). rewrite Hs', Hs. auto.
Qed.

(** Disposal.  After the unmount no timer is pending, and however much
    time passes the sink is not called again. *)
Theorem unmount_cancels (evs : list Event) (w : World) :
  timers_tracked w -> cleanup_covers w -> Forall passive evs ->
  timers (step w Unmount) = []
  /\ setSearchParamsCalls (run w (Unmount :: evs)) = setSearchParamsCalls w
  /\ timers (run w (Unmount :: evs)) = [].
Proof.
  intros Htr Hcov Hp.
  pose proof (covered_cleanup w Htr Hcov) as Hnil.
  assert (Ht : timers (step w Unmount) = []) by (cbn; exact Hnil).
  assert (Hs : setSearchParamsCalls (step w Unmount) = setSearchParamsCalls w).
  { cbn. destruct (cleanupRegistered w); [|reflexivity].
    now destruct (publicationCleanup_proj w) as (_ & _ & -> & _). }
  split; [exact Ht|].
  change (run w (Unmount :: evs)) with (run (step w Unmount) evs).
  destruct (passive_run evs _ Ht Hp) as (Hs' & Ht').
  rewrite Hs', Hs. auto.
Qed.

(** The loop breaker.  When a hydration pass has set the guard (it handed
    restored values to [reset]), the run of the second effect that follows
    in the same task cancels the pending timer and schedules none: the
    sink is not called however much time passes afterwards. *)
Theorem url_reset_cancels_publication (excl : list string)
    (a a' : RouterAdapter) (values : FormValues) (o : Options)
    (evs : list Event) (w : World) :
  timers_tracked w -> cleanup_covers w ->
  isUpdatingFromUrlRef (refs (hydrationEffect excl a w)) = true ->
  Forall passive evs ->
  timers (run w [Hydrate excl a; Publish values a' o]) = []
  /\ setSearchParamsCalls
       (run w (Hydrate excl a :: Publish values a' o :: evs))
     = setSearchParamsCalls w.
Proof.
  intros Htr Hcov Hflag Hp.
  set (w1 := hydrationEffect excl a w) in *.
  assert (Htr1 : timers_tracked w1)
    by (apply (timers_tracked_step (Hydrate excl a)), Htr).
  assert (Hcov1 : cleanup_covers w1)
    by (apply (cleanup_covers_step (Hydrate excl a)); assumption).
  assert (Hs1 : setSearchParamsCalls w1 = setSearchParamsCalls w).
  { destruct (step_logs (Hydrate excl a) w) as (_ & _ & _ & _).
    pose proof (hydrationEffect_cases excl a w) as H. cbv zeta in H.
    fold w1 in H. destruct (_ && _); [now rewrite H|].
    now destruct H as (restored & _ & _ & _ & _ & _ & _ & -> & _). }
  pose proof (covered_cleanup w1 Htr1 Hcov1) as Hnil.
  assert (Hstep : timers (step w1 (Publish values a' o)) = []
                  /\ setSearchParamsCalls (step w1 (Publish values a' o))
                     = setSearchParamsCalls w1).
  { cbn [step]. cbv zeta.
    assert (Hr : refs (if cleanupRegistered w1
                       then publicationCleanup w1 else w1) = refs w1
                 /\ setSearchParamsCalls
                      (if cleanupRegistered w1
                       then publicationCleanup w1 else w1)
                    = setSearchParamsCalls w1).
    { destruct (cleanupRegistered w1); [|auto].
      destruct (publicationCleanup_proj w1) as (_ & -> & -> & _). auto. }
    destruct Hr as (Hr & Hs).
    set (w0 := if cleanupRegistered w1 then publicationCleanup w1 else w1) in *.
    clearbody w0. unfold publicationEffect. rewrite Hr, Hflag. cbn.
    auto. }
  destruct Hstep as (Ht2 & Hs2).
  split; [exact Ht2|].
  change (run w (Hydrate excl a :: Publish values a' o :: evs))
    with (run (step w1 (Publish values a' o)) evs).
  destruct (passive_run evs _ Ht2 Hp) as (Hs3 & _).
  rewrite Hs3, Hs2, Hs1. reflexivity.
Qed.

Lemma publishCallback_firstRender (t : Timer) (w : World) :
  firstRender (refs (publishCallback t w)) = firstRender (refs w).
Proof.
  pose proof (publishCallback_cases t w) as H.
  destruct (buildParams _ _ _ _) as [[newParams|e] d].
  - now destruct H as (_ & _ & -> & _).
  - rewrite H. reflexivity.
Qed.

Lemma fold_fire_firstRender (due : list Timer) (w : World) :
  firstRender (refs (fold_left fire due w)) = firstRender (refs w).
Proof.
  revert w. induction due as [|t due IH]; intros w; cbn [fold_left];
    [reflexivity|].
  rewrite IH. unfold fire. destruct (existsb _ _); [|reflexivity].
  rewrite publishCallback_firstRender. reflexivity.
Qed.

Lemma step_firstRender (ev : Event) (w : World) :
  not_hydrate ev ->
  firstRender (refs (step w ev)) = firstRender (refs w).
Proof.
  destruct ev as [excl a|v a o| |ms|]; intros Hev; [destruct Hev| | | |].
  - cbn [step]. cbv zeta.
    assert (Hr : refs (if cleanupRegistered w
                       then publicationCleanup w else w) = refs w).
    { destruct (cleanupRegistered w); [|reflexivity].
      now destruct (publicationCleanup_proj w) as (_ & -> & _). }
    set (w0 := if cleanupRegistered w then publicationCleanup w else w) in *.
    clearbody w0. unfold publicationEffect.
    destruct (isUpdatingFromUrlRef (refs w0) || firstRender (refs w0));
      [cbn; now rewrite Hr|].
    destruct (timeoutRef (refs w0)); cbn; now rewrite Hr.
  - cbn [step]. unfold runMicrotasks. destruct (microtasks w); reflexivity.
  - cbn [step]. cbv zeta. rewrite fold_fire_firstRender.
    unfold runMicrotasks. destruct (microtasks w); reflexivity.
  - cbn [step]. cbv zeta.
    destruct (cleanupRegistered w); [|reflexivity].
    cbn. now destruct (publicationCleanup_proj w) as (_ & -> & _).
Qed.

(** The first-hydration gate.  Until the first effect has run, the second
    effect schedules nothing: whatever the form does and however much
    time passes, no timer is pending and the sink is not called. *)
Theorem publication_waits_for_hydration (evs : list Event) (w : World) :
  firstRender (refs w) = true -> timers w = [] ->
  Forall not_hydrate evs ->
  setSearchParamsCalls (run w evs) = setSearchParamsCalls w
  /\ timers (run w evs) = []
  /\ firstRender (refs (run w evs)) = true.
Proof.
  revert w. induction evs as [|ev evs IH]; intros w Hfirst Hnil Hevs;
    [auto|].
  inversion Hevs as [|? ? Hev Hrest]; subst.
  change (run w (ev :: evs)) with (run (step w ev) evs).
  assert (Hf : firstRender (refs (step w ev)) = true)
    by (rewrite step_firstRender; assumption).
  assert (H : timers (step w ev) = []
              /\ setSearchParamsCalls (step w ev) = setSearchParamsCalls w).
  { destruct ev as [excl a|v a o| |ms|]; [destruct Hev| | | |].
    - cbn [step]. cbv zeta.
      assert (H0 : refs (if cleanupRegistered w
                         then publicationCleanup w else w) = refs w
                   /\ timers (if cleanupRegistered w
                              then publicationCleanup w else w) = []
                   /\ setSearchParamsCalls
                        (if cleanupRegistered w
                         then publicationCleanup w else w)
                      = setSearchParamsCalls w).
      { destruct (cleanupRegistered w); [|auto].
        destruct (publicationCleanup_proj w) as (Ht & -> & -> & _).
        repeat split.
        destruct (timers (publicationCleanup w)) as [|t ts] eqn:E;
          [reflexivity|].
        specialize (Ht t (or_introl eq_refl)). rewrite Hnil in Ht.
        destruct Ht. }
      destruct H0 as (Hr & Ht & Hs).
      set (w0 := if cleanupRegistered w then publicationCleanup w else w) in *.
      clearbody w0. unfold publicationEffect.
      rewrite Hr, Hfirst, orb_true_r. cbn. auto.
    - cbn [step]. unfold runMicrotasks. destruct (microtasks w); cbn; auto.
    - destruct (advance_shrinks ms w) as (_ & _ & He).
      destruct (He Hnil) as (Hs & Ht & _). auto.
    - cbn [step]. cbv zeta. cbn.
      destruct (cleanupRegistered w); [|auto].
      destruct (publicationCleanup_proj w) as (Ht & _ & -> & _).
      split; [|reflexivity].
      destruct (timers (publicationCleanup w)) as [|t ts] eqn:E;
        [reflexivity|].
      specialize (Ht t (or_introl eq_refl)). rewrite Hnil in Ht.
      destruct Ht. }
  destruct H as (Ht & Hs).
  destruct (IH _ Hf Ht Hrest) as (Hs' & Ht' & Hf').
  rewrite Hs', Hs. auto.
Qed.

Lemma step_synced (ev : Event) (w : World) :
  firstRender (refs w) = false -> firstRender (refs (step w ev)) = false.
Proof.
  intros Hfirst.
  destruct ev as [excl a|v a o| |ms|];
    try (rewrite step_firstRender; [exact Hfirst | exact I]).
  cbn [step]. pose proof (hydrationEffect_cases excl a w) as H.
  cbv zeta in H. destruct (_ && _); [now rewrite H|].
  now destruct H as (restored & _ & _ & -> & _).
Qed.

(** The first pass ends the initial state for good: after any run of the
    first effect, over a query with or without parameters, [firstRender]
    is false, and nothing that happens later sets it again. *)
Theorem first_pass_is_final (excl : list string) (a : RouterAdapter)
    (evs : list Event) (w : World) :
  firstRender (refs (run w (Hydrate excl a :: evs))) = false.
Proof.
  change (run w (Hydrate excl a :: evs))
    with (run (hydrationEffect excl a w) evs).
  assert (H0 : firstRender (refs (hydrationEffect excl a w)) = false).
  { pose proof (hydrationEffect_cases excl a w) as H. cbv zeta in H.
    destruct (negb (firstRender (refs w)) && _) eqn:Hc.
    - rewrite H. apply andb_prop in Hc as [Hc _].
      now apply negb_true_iff in Hc.
    - now destruct H as (restored & _ & _ & -> & _). }
  revert H0. generalize (hydrationEffect excl a w).
  induction evs as [|ev evs IH]; intros w0 H0; [exact H0|].
  apply IH. now apply step_synced.
Qed.

End GuardOutcome.

(* ===================================================================== *)
(** * The further properties evaluated *)
(* ===================================================================== *)

Section FurtherEvaluation.
#[local] Existing Instance Engine.json.
Import URLSearchParams.

Lemma profile_build :
  buildParams "test" [] profile_values profile_current
  = (Normal profile_published,
     [WarnSerializeArray (TypeError "Do not know how to serialize a BigInt")]).
Proof. vm_compute. reflexivity. Qed.

Lemma profile_keys : NoDup (keys (entries profile_values)).
Proof.
  repeat (constructor; [simpl; intuition discriminate|]). constructor.
Qed.

Lemma empty_value_removed_witness :
  NoDup (keys (entries profile_values))
  /\ In ("nickname", VString "") (entries profile_values)
  /\ is_empty_value (VString "") = true
  /\ get "nickname" profile_current = Some "old"
  /\ get "nickname" profile_published = None.
Proof.
  assert (Hin : In ("nickname", VString "") (entries profile_values))
    by (simpl; auto).
  split; [exact profile_keys|]. split; [exact Hin|].
  split; [reflexivity|]. split; [reflexivity|].
  exact (empty_value_removed "test" [] profile_values profile_current
           profile_published _ "nickname" (VString "")
           profile_build profile_keys Hin eq_refl).
Defined.

Lemma field_published_once_witness :
  In ("name", VString "Jane") (entries profile_values)
  /\ safeSerialize (VString "Jane") = (Normal (Some "Jane"), [])
  /\ getAll "name" profile_current = ["a"; "b"]
  /\ getAll "name" profile_published = ["Jane"]
  /\ get "name" profile_published = Some "Jane".
Proof.
  assert (Hin : In ("name", VString "Jane") (entries profile_values))
    by (simpl; auto).
  assert (Hser : safeSerialize (VString "Jane") = (Normal (Some "Jane"), []))
    by reflexivity.
  split; [exact Hin|]. split; [exact Hser|]. split; [reflexivity|].
  apply (field_published_once "test" [] profile_values profile_current
           profile_published _ [] "name" "Jane" (VString "Jane")
           profile_build profile_keys Hin eq_refl eq_refl Hser).
  discriminate.
Defined.


Lemma buildParams_completes_witness :
  forallb (fun e => printable (snd e)) (entries profile_values) = true
  /\ exists newParams d,
       buildParams "test" [] profile_values profile_current
       = (Normal newParams, d).
Proof.
  split; [reflexivity|].
  exact (buildParams_completes "test" [] profile_values profile_current
           eq_refl).
Defined.

Lemma sensitive_warning_sound_witness :
  isASCII "userPASSWORD2" = true
  /\ snd (buildParams "development" ["apiToken"] account_values [])
     = [WarnSensitiveField "userPASSWORD2"]
  /\ ("development" = "development"
      /\ In "userPASSWORD2" (keys (entries account_values))
      /\ ~ In "userPASSWORD2" ["apiToken"]
      /\ existsb (fun pattern =>
                    string_includes (toLowerCase "userPASSWORD2")
                                    (toLowerCase pattern))
                 SENSITIVE_FIELD_PATTERNS = true).
Proof.
  assert (H : snd (buildParams "development" ["apiToken"] account_values [])
              = [WarnSensitiveField "userPASSWORD2"])
    by (vm_compute; reflexivity).
  split; [reflexivity|]. split; [exact H|].
  apply (sensitive_warning_sound "development" ["apiToken"] account_values
           [] "userPASSWORD2" eq_refl).
  rewrite H. left. reflexivity.
Defined.

Lemma sensitive_match_ignores_case_witness :
  In "password" SENSITIVE_FIELD_PATTERNS
  /\ toLowerCase "PassWord" = toLowerCase "password"
  /\ warnIfSensitiveField "development" ("user" ++ "PassWord" ++ "2") []
     = [WarnSensitiveField ("user" ++ "PassWord" ++ "2")].
Proof.
  assert (Hin : In "password" SENSITIVE_FIELD_PATTERNS) by (left; reflexivity).
  split; [exact Hin|]. split; [reflexivity|].
  exact (sensitive_match_ignores_case "user" "PassWord" "2" "password" []
           Hin eq_refl eq_refl).
Defined.

Lemma url_length_advisory_witness :
  buildParams (NODE_ENV (synced "")) (excludeFields (timer_options long_timer))
    (timer_values long_timer) (searchParams (timer_adapter long_timer))
  = (Normal [("name", "abcdef")], [])
  /\ console (publishCallback long_timer (synced "")) = [WarnUrlLength 11 5]
  /\ setSearchParamsCalls (publishCallback long_timer (synced ""))
     = [[("name", "abcdef")]]
  /\ (let text := toString [("name", "abcdef")] in
      console (publishCallback long_timer (synced "")) =
        (console (synced "") ++ [] ++
         if (maxUrlLength (timer_options long_timer) <? String.length text)%nat
         then [WarnUrlLength (String.length text)
                 (maxUrlLength (timer_options long_timer))]
         else [])%list
      /\ setSearchParamsCalls (publishCallback long_timer (synced "")) =
         (setSearchParamsCalls (synced "") ++
          if String.eqb text (lastUrlParamsRef (refs (synced "")))
          then [] else [[("name", "abcdef")]])%list).
Proof.
  assert (Hb : buildParams (NODE_ENV (synced ""))
                 (excludeFields (timer_options long_timer))
                 (timer_values long_timer)
                 (searchParams (timer_adapter long_timer))
               = (Normal [("name", "abcdef")], []))
    by (vm_compute; reflexivity).
  split; [exact Hb|].
  split; [vm_compute; reflexivity|].
  split; [vm_compute; reflexivity|].
  exact (url_length_advisory long_timer (synced "") [("name", "abcdef")] []
           Hb).
Defined.

Lemma own_commit_not_rehydrated_witness :
  firstRender (refs (synced "unrelated=value&name=a")) = false
  /\ setSearchParamsCalls
       (publishCallback rename_timer (synced "unrelated=value&name=a"))
     = [[("unrelated", "value"); ("name", "abc")]]
  /\ hydrationEffect []
       {| searchParams := [("unrelated", "value"); ("name", "abc")] |}
       (publishCallback rename_timer (synced "unrelated=value&name=a"))
     = publishCallback rename_timer (synced "unrelated=value&name=a").
Proof.
  split; [reflexivity|]. split; [vm_compute; reflexivity|].
  apply (own_commit_not_rehydrated [] rename_timer
           (synced "unrelated=value&name=a")
           [("unrelated", "value"); ("name", "abc")] []).
  - reflexivity.
  - vm_compute. reflexivity.
Defined.

Lemma safeJsonParse_result_clean_witness :
  safeJsonParse pollution_payload
  = Normal (VObject ObjectPrototype [("normalKey", VString "value")])
  /\ forall key, In key (keys [("normalKey", VString "value")]) ->
                 dangerous key = false.
Proof.
  assert (H : safeJsonParse pollution_payload
              = Normal (VObject ObjectPrototype
                          [("normalKey", VString "value")]))
    by (vm_compute; reflexivity).
  split; [exact H|].
  exact (safeJsonParse_result_clean pollution_payload ObjectPrototype
           [("normalKey", VString "value")] H).
Defined.

Lemma safeJsonParse_passes_through_witness :
  JSON.parse nested_payload
  = Normal (VArray
              [VObject ObjectPrototype
                 [("__proto__",
                   VObject ObjectPrototype [("isAdmin", VBool true)])]])
  /\ safeJsonParse nested_payload
     = Normal (VArray
                 [VObject ObjectPrototype
                    [("__proto__",
                      VObject ObjectPrototype [("isAdmin", VBool true)])]]).
Proof.
  assert (H : JSON.parse nested_payload
              = Normal (VArray
                          [VObject ObjectPrototype
                             [("__proto__",
                               VObject ObjectPrototype
                                 [("isAdmin", VBool true)])]]))
    by (vm_compute; reflexivity).
  split; [exact H|].
  apply (safeJsonParse_passes_through nested_payload _ H).
  - reflexivity.
  - left. reflexivity.
Defined.

Lemma safeSerialize_printable_witness :
  printable (VArray [VBigInt 1]) = true
  /\ JSON.stringify (VArray [VBigInt 1])
     = Throw (TypeError "Do not know how to serialize a BigInt")
  /\ exists r d,
       safeSerialize (VArray [VBigInt 1]) = (Normal r, d)
       /\ r = Some ""
       /\ d = [WarnSerializeArray
                 (TypeError "Do not know how to serialize a BigInt")].
Proof.
  split; [reflexivity|]. split; [reflexivity|].
  destruct (safeSerialize_printable (VArray [VBigInt 1]) eq_refl)
    as (r & d & Hs & H).
  exists r, d. split; [exact Hs|]. exact H.
Defined.

Lemma restoreValues_lookup_witness :
  includes ["password"] "name" = false
  /\ last_value "name" messy_query = Some "Jane"
  /\ restoreValues ["password"] messy_query
     = Normal {| obj_proto := ProtoDefault;
                 obj_props := [("name", VString "Jane");
                               ("age", VNumber (number_of_Z 30))] |}
  /\ exists restored,
       restoreValues ["password"] messy_query = Normal restored
       /\ match last_value "name" messy_query with
          | Some value =>
              exists parsed,
                safeJsonParse value = Normal parsed
                /\ get_own "name" (obj_props restored) = Some parsed
          | None => get_own "name" (obj_props restored) = None
          end.
Proof.
  split; [reflexivity|]. split; [reflexivity|].
  split; [vm_compute; reflexivity|].
  apply (restoreValues_lookup ["password"] messy_query "name").
  - reflexivity.
  - discriminate.
Defined.

Lemma editing_invariants :
  timers_tracked editing /\ cleanup_covers editing
  /\ List.length (timers editing) = 1.
Proof.
  split; [|split; [right; reflexivity | reflexivity]].
  intros t Hin. vm_compute in Hin. destruct Hin as [<-|[]]. reflexivity.
Qed.

Lemma unmount_cancels_witness :
  timers_tracked editing /\ cleanup_covers editing
  /\ Forall passive [Advance 1000]
  /\ List.length (timers editing) = 1
  /\ (timers (step editing Unmount) = []
      /\ setSearchParamsCalls (run editing [Unmount; Advance 1000])
         = setSearchParamsCalls editing
      /\ timers (run editing [Unmount; Advance 1000]) = []).
Proof.
  destruct editing_invariants as (Htr & Hcov & Hlen).
  assert (Hp : Forall passive [Advance 1000]) by (repeat constructor).
  split; [exact Htr|]. split; [exact Hcov|]. split; [exact Hp|].
  split; [exact Hlen|].
  exact (unmount_cancels [Advance 1000] editing Htr Hcov Hp).
Defined.

Lemma url_reset_cancels_publication_witness :
  timers_tracked editing /\ cleanup_covers editing
  /\ List.length (timers editing) = 1
  /\ isUpdatingFromUrlRef
       (refs (hydrationEffect [] {| searchParams := [("search", "x")] |}
                editing)) = true
  /\ Forall passive [Advance 1000]
  /\ (timers (run editing
                [Hydrate [] {| searchParams := [("search", "x")] |};
                 Publish (Some [("search", VString "x")])
                         {| searchParams := [("search", "x")] |}
                         defaultOptions]) = []
      /\ setSearchParamsCalls
           (run editing
              [Hydrate [] {| searchParams := [("search", "x")] |};
               Publish (Some [("search", VString "x")])
                       {| searchParams := [("search", "x")] |}
                       defaultOptions;
               Advance 1000])
         = setSearchParamsCalls editing).
Proof.
  destruct editing_invariants as (Htr & Hcov & Hlen).
  assert (Hp : Forall passive [Advance 1000]) by (repeat constructor).
  assert (Hflag : isUpdatingFromUrlRef
                    (refs (hydrationEffect []
                             {| searchParams := [("search", "x")] |}
                             editing)) = true)
    by (vm_compute; reflexivity).
  split; [exact Htr|]. split; [exact Hcov|]. split; [exact Hlen|].
  split; [exact Hflag|]. split; [exact Hp|].
  exact (url_reset_cancels_publication []
           {| searchParams := [("search", "x")] |}
           {| searchParams := [("search", "x")] |}
           (Some [("search", VString "x")]) defaultOptions
           [Advance 1000] editing Htr Hcov Hflag Hp).
Defined.

Lemma publication_waits_for_hydration_witness :
  firstRender (refs (initialWorld "test")) = true
  /\ timers (initialWorld "test") = []
  /\ Forall not_hydrate [publish (typed "abc"); Advance 1000]
  /\ (setSearchParamsCalls
        (run (initialWorld "test") [publish (typed "abc"); Advance 1000])
      = setSearchParamsCalls (initialWorld "test")
      /\ timers (run (initialWorld "test")
                   [publish (typed "abc"); Advance 1000]) = []
      /\ firstRender
           (refs (run (initialWorld "test")
                    [publish (typed "abc"); Advance 1000])) = true).
Proof.
  assert (Hn : Forall not_hydrate [publish (typed "abc"); Advance 1000])
    by (repeat constructor).
  split; [reflexivity|]. split; [reflexivity|]. split; [exact Hn|].
  exact (publication_waits_for_hydration
           [publish (typed "abc"); Advance 1000] (initialWorld "test")
           eq_refl eq_refl Hn).
Defined.

End FurtherEvaluation.

(* ===================================================================== *)
(** * The copy loop keeps the order of the keys *)
(* ===================================================================== *)

Section SanitizeOrder.

Lemma insert_index_last (n : N) (key : string) (v : Value) (props : Props) :
  (forall k, In k (keys props) ->
             exists n', array_index k = Some n' /\ (n' < n)%N) ->
  insert_index n key v props = (props ++ [(key, v)])%list.
Proof.
  induction props as [|[k0 w] rest IH]; intros H; simpl; [reflexivity|].
  destruct (H k0 (or_introl eq_refl)) as (n' & -> & Hlt).
  apply N.ltb_lt in Hlt. rewrite Hlt. f_equal.
  apply IH. intros k Hk. apply H. now right.
Qed.

(** Defining a key that the enumeration order puts last appends it. *)
Lemma define_own_last (key : string) (v : Value) (props : Props) :
  ~ In key (keys props) ->
  (forall n, array_index key = Some n ->
             forall k, In k (keys props) ->
                       exists n', array_index k = Some n' /\ (n' < n)%N) ->
  define_own key v props = (props ++ [(key, v)])%list.
Proof.
  intros Hnot Hord. unfold define_own.
  destruct (has_own key props) eqn:Hhas.
  - apply has_own_In in Hhas. contradiction.
  - destruct (array_index key) as [n|]; [|reflexivity].
    apply insert_index_last. now apply Hord.
Qed.

Lemma property_order_strings (ks : list string) (k : string) :
  forallb (fun k' => match array_index k' with
                     | Some _ => false
                     | None => true
                     end) ks = true ->
  In k ks -> array_index k = None.
Proof.
  rewrite forallb_forall. intros H Hin. specialize (H k Hin).
  destruct (array_index k); [discriminate | reflexivity].
Qed.

(** In property order, whatever precedes an array index is a smaller
    array index. *)
Lemma property_order_before (bound : option N) (before after : list string)
    (key : string) (n : N) :
  property_order bound (before ++ key :: after)%list = true ->
  array_index key = Some n ->
  forall k, In k before ->
            exists n', array_index k = Some n' /\ (n' < n)%N.
Proof.
  revert bound. induction before as [|k0 before IH]; intros bound H Hkey k Hk;
    [destruct Hk|].
  simpl in H. destruct (array_index k0) as [n0|] eqn:H0.
  - apply andb_prop in H as [_ H].
    assert (Hlt : (n0 < n)%N).
    { clear -H Hkey. revert n0 H.
      induction before as [|k1 before IH]; intros n0 H; simpl in H.
      - rewrite Hkey in H. apply andb_prop in H as [H _].
        now apply N.ltb_lt.
      - destruct (array_index k1) as [n1|] eqn:H1.
        + apply andb_prop in H as [Hb H]. apply N.ltb_lt in Hb.
          specialize (IH _ H). lia.
        + assert (Hnone : array_index key = None).
          { apply (property_order_strings _ _ H).
            apply in_or_app. right. now left. }
          congruence. }
    destruct Hk as [<-|Hk]; [eauto|].
    exact (IH _ H Hkey k Hk).
  - assert (Hnone : array_index key = None).
    { apply (property_order_strings _ _ H).
      apply in_or_app. right. now left. }
    congruence.
Qed.

Lemma get_own_unique (before after : Props) (key : string) (v : Value) :
  NoDup (keys (before ++ (key, v) :: after)%list) ->
  get_own key (before ++ (key, v) :: after)%list = Some v.
Proof.
  intros Hnd. rewrite get_own_app. simpl. rewrite String.eqb_refl.
  destruct (get_own key before) eqn:Hg; [|reflexivity].
  exfalso. unfold keys in Hnd. rewrite map_app in Hnd. simpl in Hnd.
  apply NoDup_remove_2 in Hnd. apply Hnd, in_or_app. left.
  assert (Hhas : has_own key before = true) by (unfold has_own; now rewrite Hg).
  now apply has_own_In in Hhas.
Qed.

(** For an object whose keys are distinct and in property order, as
    [JSON.parse] builds them, the copy made by [safeJsonParse] is the list
    of its properties without the denylisted ones: same values, same
    order. *)
Theorem sanitize_keeps_order (proto : Proto) (props : Props) :
  NoDup (keys props) ->
  property_order None (keys props) = true ->
  sanitize (VObject proto props)
  = filter (fun e => negb (dangerous (fst e))) props.
Proof.
  intros Hnd Hord. unfold sanitize. simpl ownProperties.
  assert (H : forall after before,
    props = (before ++ after)%list ->
    fold_left
      (fun sanitized key =>
         if hasOwnProperty (VObject proto props) key
            && negb (String.eqb key "__proto__")
            && negb (String.eqb key "constructor")
            && negb (String.eqb key "prototype")
         then define_own key (get (VObject proto props) key) sanitized
         else sanitized)
      (keys after)
      (filter (fun e => negb (dangerous (fst e))) before)
    = filter (fun e => negb (dangerous (fst e))) props).
  { induction after as [|[key v] after IH]; intros before Heq.
    - rewrite app_nil_r in Heq. now subst.
    - cbn [keys map fst fold_left]. fold (keys after).
      rewrite dangerous_spec.
      assert (Hhas : hasOwnProperty (VObject proto props) key = true).
      { unfold hasOwnProperty. simpl. apply has_own_In. subst props.
        unfold keys. rewrite map_app. apply in_or_app. right. now left. }
      assert (Hget : get (VObject proto props) key = v).
      { unfold get. simpl. subst props. now rewrite get_own_unique. }
      rewrite Hhas, Hget. cbn [andb].
      rewrite <- (IH (before ++ [(key, v)])%list)
        by (now rewrite <- app_assoc).
      f_equal. rewrite filter_app. cbn [filter fst].
      destruct (dangerous key) eqn:Hd; cbn [negb];
        [now rewrite app_nil_r|].
      apply define_own_last.
      + intros Hin. unfold keys in Hin. apply in_map_iff in Hin.
        destruct Hin as ([k' v'] & Hk & Hin). simpl in Hk. subst k'.
        apply filter_In in Hin. destruct Hin as [Hin _].
        subst props. unfold keys in Hnd. rewrite map_app in Hnd.
        simpl in Hnd. apply NoDup_remove_2 in Hnd. apply Hnd.
        apply in_or_app. left. apply in_map_iff. now exists (key, v').
      + intros n Hn k Hk.
        subst props. unfold keys in Hord. rewrite map_app in Hord.
        simpl in Hord.
        apply (property_order_before None (map fst before) (map fst after)
                 key n Hord Hn).
        unfold keys in Hk. apply in_map_iff in Hk.
        destruct Hk as ([k' v'] & Hk' & Hin). simpl in Hk'. subst k'.
        apply filter_In in Hin. destruct Hin as [Hin _].
        apply in_map_iff. now exists (k, v'). }
  exact (H props [] eq_refl).
Qed.

End SanitizeOrder.

Section GuardLifetime.
Context {json : JSON.Engine}.

(** The guard lasts one task.  After a hydration pass and the microtask
    checkpoint that follows it, the hook is ready: the first pass is over
    and the guard is down, so the next form change is scheduled. *)
Theorem guard_lasts_one_task (excl : list string) (a : RouterAdapter)
    (w : World) :
  guard_queued w ->
  ready (run w [Hydrate excl a; Microtasks]).
Proof.
  intros Hq.
  change (run w [Hydrate excl a; Microtasks])
    with (runMicrotasks (hydrationEffect excl a w)).
  pose proof (hydrationEffect_cases excl a w) as H. cbv zeta in H.
  assert (H1 : firstRender (refs (hydrationEffect excl a w)) = false
               /\ (isUpdatingFromUrlRef (refs (hydrationEffect excl a w))
                   = true ->
                   microtasks (hydrationEffect excl a w) <> 0)).
  { destruct (negb (firstRender (refs w)) && _) eqn:Hc.
    - rewrite H. split; [|exact Hq].
      apply andb_prop in Hc as [Hc _]. now apply negb_true_iff in Hc.
    - destruct H as (restored & _ & _ & Hf & _ & Hflag & Hm & _).
      split; [exact Hf|]. rewrite Hflag, Hm.
      destruct (0 <? List.length (Object_keys restored))%nat;
        [discriminate | exact Hq]. }
  destruct H1 as (Hf & Hq1).
  set (w1 := hydrationEffect excl a w) in *. clearbody w1.
  unfold ready, runMicrotasks.
  destruct (microtasks w1) eqn:Hm; cbn.
  - split; [exact Hf|].
    destruct (isUpdatingFromUrlRef (refs w1)); [|reflexivity].
    exfalso. now apply Hq1.
  - auto.
Qed.

End GuardLifetime.

Section OrderEvaluation.
#[local] Existing Instance Engine.json.

Lemma sanitize_keeps_order_witness :
  NoDup (keys (ownProperties indexed_record))
  /\ property_order None (keys (ownProperties indexed_record)) = true
  /\ sanitize indexed_record
     = [("2", VBool true); ("10", VNull); ("b", VString "x");
        ("a", VString "y")].
Proof.
  assert (Hnd : NoDup (keys (ownProperties indexed_record))).
  { repeat (constructor; [simpl; intuition discriminate|]). constructor. }
  assert (Hord : property_order None (keys (ownProperties indexed_record))
                 = true) by (vm_compute; reflexivity).
  split; [exact Hnd|]. split; [exact Hord|].
  exact (sanitize_keeps_order ObjectPrototype
           [("2", VBool true); ("10", VNull); ("b", VString "x");
            ("constructor", VNull); ("a", VString "y")] Hnd Hord).
Defined.

Lemma guard_lasts_one_task_witness :
  guard_queued (initialWorld "test")
  /\ isUpdatingFromUrlRef
       (refs (run (initialWorld "test")
                [Hydrate [] {| searchParams := [("name", "John")] |}]))
     = true
  /\ ready (run (initialWorld "test")
              [Hydrate [] {| searchParams := [("name", "John")] |};
               Microtasks]).
Proof.
  assert (Hq : guard_queued (initialWorld "test"))
    by (intros H; discriminate H).
  split; [exact Hq|]. split; [vm_compute; reflexivity|].
  exact (guard_lasts_one_task [] {| searchParams := [("name", "John")] |}
           (initialWorld "test") Hq).
Defined.

End OrderEvaluation.
